(** * BlogSeach: the blog-search service of [WebScrapping.py]

    A shallow embedding of the search pipeline ([run_blog_search] and the
    endpoint wrapping it) with the parts of Python it stands on:
    - Python values: [str] as [string], [dict] as an insertion-ordered
      association list, lists as [list];
    - [difflib.SequenceMatcher] and [difflib.get_close_matches], which decide
      every match the service makes, modelled from CPython's [difflib.py];
    - the network as an explicit world threaded through a small state and
      exception monad;
    - the parsers and URL helpers of [bs4] and [urllib.parse] as an interface
      ([Collaborators]) the pipeline is parametrised by.

    Characters are Rocq's [ascii], i.e. the code points below 256. *)

From Stdlib Require Import String Ascii List Bool Arith PeanoNat ZArith QArith Lia Sorted.
From Stdlib Require OrderedTypeEx.
From Stdlib Require Import Permutation.
Import ListNotations.

Set Implicit Arguments.
Local Open Scope string_scope.
Local Open Scope list_scope.
Local Open Scope nat_scope.

(* ===================================================================== *)
(** ** Python strings *)
(* ===================================================================== *)

Module Py.

(** [str.lower()] on one code point below 256: A-Z and the accented
    capitals U+00C0..U+00DE (but not the multiplication sign U+00D7) move
    up by 32. *)
Definition lower_char (c : ascii) : ascii :=
  let n := nat_of_ascii c in
  if ((65 <=? n) && (n <=? 90)) || ((192 <=? n) && (n <=? 222) && negb (n =? 215))
  then ascii_of_nat (n + 32) else c.

Fixpoint lower (s : string) : string :=
  match s with
  | EmptyString => EmptyString
  | String c s' => String (lower_char c) (lower s')
  end.

(** [s.replace(old, new)] for one-character [old] and [new]. *)
Fixpoint replace (old new : ascii) (s : string) : string :=
  match s with
  | EmptyString => EmptyString
  | String c s' => String (if Ascii.eqb c old then new else c) (replace old new s')
  end.

(** [s.split(sep)] for a one-character separator: never the empty list. *)
Fixpoint split (sep : ascii) (s : string) : list string :=
  match s with
  | EmptyString => [EmptyString]
  | String c s' =>
      if Ascii.eqb c sep then EmptyString :: split sep s'
      else match split sep s' with
           | h :: t => String c h :: t
           | [] => [String c EmptyString]
           end
  end.

(** [sub in s]. *)
Fixpoint contains (sub s : string) : bool :=
  String.prefix sub s ||
  match s with
  | EmptyString => false
  | String _ s' => contains sub s'
  end.

(** [str.isspace()] on one code point below 256. *)
Definition isspace (c : ascii) : bool :=
  let n := nat_of_ascii c in
  ((9 <=? n) && (n <=? 13)) || ((28 <=? n) && (n <=? 32)) || (n =? 133) || (n =? 160).

Fixpoint lstrip (s : string) : string :=
  match s with
  | EmptyString => EmptyString
  | String c s' => if isspace c then lstrip s' else s
  end.

Fixpoint rstrip (s : string) : string :=
  match s with
  | EmptyString => EmptyString
  | String c s' =>
      match rstrip s' with
      | EmptyString => if isspace c then EmptyString else String c EmptyString
      | r => String c r
      end
  end.

Definition strip (s : string) : string := rstrip (lstrip s).

(** [sep.join(parts)]. *)
Definition join (sep : string) (parts : list string) : string :=
  String.concat sep parts.

(** [s[:n]]. *)
Fixpoint slice_to (n : nat) (s : string) : string :=
  match n, s with
  | S n', String c s' => String c (slice_to n' s')
  | _, _ => EmptyString
  end.

(** [x > y] on [str]: lexicographic on code points. *)
Definition str_gt (x y : string) : bool :=
  match String.compare x y with Gt => true | _ => false end.

(** Truth value of a [str]. *)
Definition truthy (s : string) : bool :=
  match s with EmptyString => false | _ => true end.

End Py.

(* ===================================================================== *)
(** ** Python dictionaries *)
(* ===================================================================== *)

(** Keys with a decidable equality, as Python asks of hashable keys. *)
Class EqKey (K : Type) := {
  keqb : K -> K -> bool;
  keqb_spec : forall x y, reflect (x = y) (keqb x y)
}.

#[export] Instance EqKey_string : EqKey string :=
  {| keqb := String.eqb; keqb_spec := String.eqb_spec |}.
#[export] Instance EqKey_ascii : EqKey ascii :=
  {| keqb := Ascii.eqb; keqb_spec := Ascii.eqb_spec |}.
#[export] Instance EqKey_nat : EqKey nat :=
  {| keqb := Nat.eqb; keqb_spec := Nat.eqb_spec |}.

Section PyDict.
Context {K V : Type} `{EqKey K}.

(** A [dict] keeps its keys in insertion order. *)
Definition dict := list (K * V).

(** [d.get(k)]. *)
Fixpoint dict_get (d : dict) (k : K) : option V :=
  match d with
  | [] => None
  | (k', v) :: d' => if keqb k' k then Some v else dict_get d' k
  end.

(** [d[k] = v]: a present key keeps its place and takes the new value, a
    new key goes to the end. *)
Fixpoint dict_set (d : dict) (k : K) (v : V) : dict :=
  match d with
  | [] => [(k, v)]
  | (k', v') :: d' =>
      if keqb k' k then (k', v) :: d' else (k', v') :: dict_set d' k v
  end.

(** [list(d.keys())]. *)
Definition dict_keys (d : dict) : list K := map fst d.

(** [k in d]. *)
Definition dict_in (k : K) (d : dict) : bool :=
  match dict_get d k with Some _ => true | None => false end.

(** [del d[k]] for every key [k] that fails [keep]. *)
Definition dict_purge (keep : K -> V -> bool) (d : dict) : dict :=
  filter (fun kv => keep (fst kv) (snd kv)) d.
End PyDict.

Arguments dict K V : clear implicits.

(* ===================================================================== *)
(** ** difflib *)
(* ===================================================================== *)

(** [difflib.SequenceMatcher] as [get_close_matches] uses it: no [isjunk]
    function, [autojunk] on.  Sequences are strings, taken as lists of
    characters; indices and lengths are [nat].

    Ratios are Python floats [2.0 * matches / length], the correctly rounded
    quotient of two integers.  They are modelled by the exact rationals.
    Rounding is monotone, and for strings shorter than 2^26 characters two
    quotients that differ are rounded to floats that differ, and a quotient
    compares with the floats 0.5 and 0.6 as it compares with 1/2 and 3/5: on
    such strings every comparison the code makes agrees with the exact
    one. *)
Module Difflib.

Definition Match := (nat * nat * nat)%type.

(** [_calculate_ratio(matches, length)]. *)
Definition _calculate_ratio (matches length : nat) : Q :=
  if length =? 0 then 1%Q
  else Qmake (2 * Z.of_nat matches) (Pos.of_nat length).

(** *** [__chain_b]: the index [b2j] of the second sequence *)

(** [indices = b2j.setdefault(elt, []); indices.append(i)]. *)
Definition setdefault_append (b2j : dict ascii (list nat)) (elt : ascii) (i : nat)
  : dict ascii (list nat) :=
  match dict_get b2j elt with
  | Some indices => dict_set b2j elt (indices ++ [i])
  | None => dict_set b2j elt [i]
  end.

(** [for i, elt in enumerate(b): ...], from index [i] on. *)
Fixpoint enumerate_b (b : list ascii) (i : nat) (b2j : dict ascii (list nat))
  : dict ascii (list nat) :=
  match b with
  | [] => b2j
  | elt :: b' => enumerate_b b' (S i) (setdefault_append b2j elt i)
  end.

(** With no [isjunk] the junk set stays empty. *)
Definition isbjunk (_ : ascii) : bool := false.

(** The popular elements are purged when [b] has 200 elements or more: an
    element is popular when it occurs more than [n // 100 + 1] times. *)
Definition __chain_b (b : list ascii) : dict ascii (list nat) :=
  let b2j := enumerate_b b 0 [] in
  let n := length b in
  if 200 <=? n then
    let ntest := n / 100 + 1 in
    dict_purge (fun _ idxs => negb (ntest <? length idxs)) b2j
  else b2j.

(** *** [find_longest_match] *)

Section FindLongestMatch.
Variables a b : list ascii.
Variable b2j : dict ascii (list nat).

Definition zero_char : ascii := Ascii.zero.

(** [a[i]], for [i] in range. *)
Definition item (s : list ascii) (i : nat) : ascii := nth i s zero_char.

(** [b2j.get(a[i], nothing)]. *)
Definition b2j_get (elt : ascii) : list nat :=
  match dict_get b2j elt with Some idxs => idxs | None => [] end.

(** [j2lenget(j-1, 0)]: the key [-1] is never present. *)
Definition j2lenget_pred (j2len : dict nat nat) (j : nat) : nat :=
  match j with
  | 0 => 0
  | S j' => match dict_get j2len j' with Some k => k | None => 0 end
  end.

(** The inner loop [for j in b2j.get(a[i], nothing)] at row [i].  The
    invariant [k <= i + 1] and [k <= j + 1] (lemma [inner_loop_sound])
    makes the truncated subtractions exact. *)
Fixpoint inner_loop (j2len : dict nat nat) (i blo bhi : nat) (js : list nat)
         (newj2len : dict nat nat) (best : Match) : dict nat nat * Match :=
  match js with
  | [] => (newj2len, best)
  | j :: js' =>
      if j <? blo then inner_loop j2len i blo bhi js' newj2len best
      else if bhi <=? j then (newj2len, best)
      else
        let k := j2lenget_pred j2len j + 1 in
        let newj2len' := dict_set newj2len j k in
        let '(besti, bestj, bestsize) := best in
        let best' := if bestsize <? k then (i + 1 - k, j + 1 - k, k) else best in
        inner_loop j2len i blo bhi js' newj2len' best'
  end.

(** The outer loop [for i in range(alo, ahi)]. *)
Fixpoint outer_loop (blo bhi : nat) (rows : list nat) (j2len : dict nat nat)
         (best : Match) : Match :=
  match rows with
  | [] => best
  | i :: rows' =>
      let '(newj2len, best') :=
        inner_loop j2len i blo bhi (b2j_get (item a i)) [] best in
      outer_loop blo bhi rows' newj2len best'
  end.

(** [while besti > alo and bestj > blo and isbjunk(b[bestj-1]) == junk
    and a[besti-1] == b[bestj-1]]: one step back per iteration. *)
Fixpoint extend_back (junk : bool) (alo blo besti bestj bestsize : nat) : Match :=
  match besti, bestj with
  | S i', S j' =>
      if (alo <? besti) && (blo <? bestj)
         && Bool.eqb (isbjunk (item b j')) junk
         && Ascii.eqb (item a i') (item b j')
      then extend_back junk alo blo i' j' (bestsize + 1)
      else (besti, bestj, bestsize)
  | _, _ => (besti, bestj, bestsize)
  end.

(** [while besti+bestsize < ahi and bestj+bestsize < bhi and
    isbjunk(b[bestj+bestsize]) == junk and
    a[besti+bestsize] == b[bestj+bestsize]]; [room] is
    [ahi - (besti + bestsize)], the number of iterations left at most. *)
Fixpoint extend_fwd (junk : bool) (room ahi bhi besti bestj bestsize : nat) : nat :=
  match room with
  | 0 => bestsize
  | S room' =>
      if (besti + bestsize <? ahi) && (bestj + bestsize <? bhi)
         && Bool.eqb (isbjunk (item b (bestj + bestsize))) junk
         && Ascii.eqb (item a (besti + bestsize)) (item b (bestj + bestsize))
      then extend_fwd junk room' ahi bhi besti bestj (bestsize + 1)
      else bestsize
  end.

Definition find_longest_match (alo ahi blo bhi : nat) : Match :=
  let best0 := outer_loop blo bhi (seq alo (ahi - alo)) [] (alo, blo, 0) in
  let '(besti1, bestj1, bestsize1) := best0 in
  let '(besti2, bestj2, bestsize2) :=
    extend_back false alo blo besti1 bestj1 bestsize1 in
  let bestsize3 :=
    extend_fwd false (ahi - (besti2 + bestsize2)) ahi bhi besti2 bestj2 bestsize2 in
  let '(besti4, bestj4, bestsize4) :=
    extend_back true alo blo besti2 bestj2 bestsize3 in
  let bestsize5 :=
    extend_fwd true (ahi - (besti4 + bestsize4)) ahi bhi besti4 bestj4 bestsize4 in
  (besti4, bestj4, bestsize5).

(** *** [get_matching_blocks] *)

(** The [while queue] loop.  The queue is a stack: its head is the end of
    the Python list.  Every iteration takes one unit of [fuel]; [None]
    is running out of it, which [2 * len(a) + 1] units never do (lemma
    [queue_loop_total]). *)
Fixpoint queue_loop (fuel : nat) (queue : list (nat * nat * nat * nat))
         (matching_blocks : list Match) : option (list Match) :=
  match queue with
  | [] => Some matching_blocks
  | (alo, ahi, blo, bhi) :: queue' =>
      match fuel with
      | 0 => None
      | S fuel' =>
          let '(i, j, k) := find_longest_match alo ahi blo bhi in
          if k =? 0 then queue_loop fuel' queue' matching_blocks
          else
            let q1 := if (alo <? i) && (blo <? j)
                      then (alo, i, blo, j) :: queue' else queue' in
            let q2 := if (i + k <? ahi) && (j + k <? bhi)
                      then (i + k, ahi, j + k, bhi) :: q1 else q1 in
            queue_loop fuel' q2 (matching_blocks ++ [(i, j, k)])
      end
  end.

End FindLongestMatch.

(** [x <= y] on the triples, lexicographic. *)
Definition match_leb (x y : Match) : bool :=
  let '(i1, j1, k1) := x in
  let '(i2, j2, k2) := y in
  (i1 <? i2) || ((i1 =? i2) && ((j1 <? j2) || ((j1 =? j2) && (k1 <=? k2)))).

Fixpoint insert_sorted (x : Match) (l : list Match) : list Match :=
  match l with
  | [] => [x]
  | y :: l' => if match_leb x y then x :: l else y :: insert_sorted x l'
  end.

(** [matching_blocks.sort()]. *)
Definition sort_blocks (l : list Match) : list Match :=
  fold_right insert_sorted [] l.

(** The loop that collapses adjacent equal blocks, with its closing
    [if k1: non_adjacent.append((i1, j1, k1))]. *)
Fixpoint collapse (blocks : list Match) (i1 j1 k1 : nat) (non_adjacent : list Match)
  : list Match :=
  match blocks with
  | [] => if k1 =? 0 then non_adjacent else non_adjacent ++ [(i1, j1, k1)]
  | (i2, j2, k2) :: blocks' =>
      if (i1 + k1 =? i2) && (j1 + k1 =? j2)
      then collapse blocks' i1 j1 (k1 + k2) non_adjacent
      else collapse blocks' i2 j2 k2
             (if k1 =? 0 then non_adjacent else non_adjacent ++ [(i1, j1, k1)])
  end.

(** The blocks the queue loop finds; the fuel given is enough, so the
    [None] branch is never taken (lemma [queue_loop_total]). *)
Definition raw_blocks (a b : list ascii) : list Match :=
  let la := length a in
  let lb := length b in
  match queue_loop a b (__chain_b b) (2 * la + 1) [(0, la, 0, lb)] [] with
  | Some matching_blocks => matching_blocks
  | None => []
  end.

Definition get_matching_blocks (a b : list ascii) : list Match :=
  collapse (sort_blocks (raw_blocks a b)) 0 0 0 [] ++ [(length a, length b, 0)].

(** [sum(triple[-1] for triple in blocks)]. *)
Definition sum_sizes (blocks : list Match) : nat :=
  fold_right (fun t acc => snd t + acc) 0 blocks.

(** *** The three ratios *)

(** [ratio()] of [SequenceMatcher(None, a, b)]. *)
Definition ratio (a b : string) : Q :=
  let a' := list_ascii_of_string a in
  let b' := list_ascii_of_string b in
  _calculate_ratio (sum_sizes (get_matching_blocks a' b')) (length a' + length b').

(** [fullbcount], the number of occurrences in [b] of each element. *)
Fixpoint fullbcount_of (b : list ascii) (fullbcount : dict ascii Z) : dict ascii Z :=
  match b with
  | [] => fullbcount
  | elt :: b' =>
      fullbcount_of b'
        (dict_set fullbcount elt
           (match dict_get fullbcount elt with Some n => n | None => 0%Z end + 1)%Z)
  end.

(** The loop [for elt in self.a] of [quick_ratio]. *)
Fixpoint quick_loop (fullbcount : dict ascii Z) (a : list ascii)
         (avail : dict ascii Z) (matches : nat) : nat :=
  match a with
  | [] => matches
  | elt :: a' =>
      let numb :=
        match dict_get avail elt with
        | Some n => n
        | None => match dict_get fullbcount elt with Some n => n | None => 0%Z end
        end in
      quick_loop fullbcount a' (dict_set avail elt (numb - 1)%Z)
        (if (0 <? numb)%Z then matches + 1 else matches)
  end.

Definition quick_ratio (a b : string) : Q :=
  let a' := list_ascii_of_string a in
  let b' := list_ascii_of_string b in
  _calculate_ratio (quick_loop (fullbcount_of b' []) a' [] 0) (length a' + length b').

Definition real_quick_ratio (a b : string) : Q :=
  let la := String.length a in
  let lb := String.length b in
  _calculate_ratio (Nat.min la lb) (la + lb).

(** *** [get_close_matches] with [n=1] *)

(** [x > y] on the tuples [(score, word)]. *)
Definition tuple_gt (x y : Q * string) : bool :=
  if Qeq_bool (fst x) (fst y) then Py.str_gt (snd x) (snd y)
  else negb (Qle_bool (fst x) (fst y)).

(** [max(it)]: the first of the greatest items. *)
Definition py_max (first : Q * string) (rest : list (Q * string)) : Q * string :=
  fold_left (fun max_item item => if tuple_gt item max_item then item else max_item)
    rest first.

(** [heapq.nlargest(1, result)]. *)
Definition nlargest1 (result : list (Q * string)) : list (Q * string) :=
  match result with
  | [] => []
  | first :: rest => [py_max first rest]
  end.

(** The loop [for x in possibilities]: [x] is kept with its score when
    the three ratios reach the cut-off, cheapest first. *)
Fixpoint scored (word : string) (possibilities : list string) (cutoff : Q)
  : list (Q * string) :=
  match possibilities with
  | [] => []
  | x :: rest =>
      if Qle_bool cutoff (real_quick_ratio x word)
         && Qle_bool cutoff (quick_ratio x word)
         && Qle_bool cutoff (ratio x word)
      then (ratio x word, x) :: scored word rest cutoff
      else scored word rest cutoff
  end.

(** [get_close_matches(word, possibilities, n=1, cutoff=cutoff)]. *)
Definition get_close_matches (word : string) (possibilities : list string) (cutoff : Q)
  : list string :=
  map snd (nlargest1 (scored word possibilities cutoff)).

End Difflib.

(* ===================================================================== *)
(** ** Results, the world and the monad *)
(* ===================================================================== *)

(** A call returns a value or raises an exception, kept as its message. *)
Inductive Result (A : Type) : Type :=
| Return (a : A)
| Raise (e : string).
Arguments Return {A} a.
Arguments Raise {A} e.

(** The world outside the process.  [network n url] is what the [n]-th GET
    request of the run gives when it goes to [url]: [Some body] for a
    response with a 2xx status, [None] for anything that makes the [try]
    block around the request raise (no connection, a time-out, another
    status), which every caller turns into [None] or the empty list.
    [finished n] is the instant at which the [n]-th future submitted to a
    pool completes; [clock] counts the requests sent so far.  The requests of
    a pool are numbered in the order of submission: whatever the
    interleaving of the workers, each request gets a number of its own. *)
Record World := mkWorld {
  clock : nat;
  network : nat -> string -> option string;
  finished : nat -> nat
}.

Definition tick (w : World) : World :=
  {| clock := S (clock w); network := network w; finished := finished w |}.

(** Computations on the world that may raise. *)
Definition M (A : Type) : Type := World -> Result A * World.

Definition ret {A} (a : A) : M A := fun w => (Return a, w).

Definition raise {A} (e : string) : M A := fun w => (Raise e, w).

Definition bind {A B} (m : M A) (f : A -> M B) : M B :=
  fun w => match m w with
           | (Return a, w') => f a w'
           | (Raise e, w') => (Raise e, w')
           end.

Declare Scope monad_scope.
Delimit Scope monad_scope with monad.
Notation "x <- m ;; f" := (bind m (fun x => f))
  (at level 61, m at next level, right associativity) : monad_scope.
Local Open Scope monad_scope.

(** A pure call that may raise, inside [M]. *)
Definition lift {A} (r : Result A) : M A := fun w => (r, w).

(** [f] on every item, in order. *)
Fixpoint mapM {A B} (f : A -> M B) (l : list A) : M (list B) :=
  match l with
  | [] => ret []
  | x :: l' => y <- f x ;; ys <- mapM f l' ;; ret (y :: ys)
  end.

(** [requests.get(url, headers=HEADERS, timeout=10)] followed by
    [raise_for_status()]: the body, or [None] where the code's [except]
    clause takes over. *)
Definition requests_get (url : string) : M (option string) :=
  fun w => (Return (network w (clock w) url), tick w).

(* ===================================================================== *)
(** ** The libraries the pipeline calls *)
(* ===================================================================== *)

(** An element found in a page: its [get_text(strip=True)] and its markup
    [str(tag)]. *)
Record Tag := mkTag {
  tag_text : string;
  tag_str : string
}.

(** A parsed document, as the views the code takes of it.  A [bs4.Tag] is
    always true, so [x or y] on two lookups is the first that is not
    [None]. *)
Record Soup := mkSoup {
  (** [soup.find("h1")], as its [get_text(strip=True)] *)
  find_h1 : option string;
  (** [soup.find("title")], as its [get_text(strip=True)] *)
  find_title : option string;
  (** [soup.select_one("div.elementor-widget-container")], as its
      [find_all(["p", "h2", "h3", "li"])] *)
  select_one_container : option (list Tag);
  (** [soup.body], as its [find_all(["p", "h2", "h3", "li"])] *)
  body : option (list Tag);
  (** [soup.select("img")], each image as its [get("src")] *)
  select_img : list (option string);
  (** [get_text(separator="\n", strip=True)] once the [script], [style] and
      [noscript] elements are decomposed *)
  text_without_scripts : string
}.

(** [bs4] and [urllib.parse], as far as the pipeline uses them.  The two
    parsers build a tree from any input; what goes wrong while a page is
    fetched and read is the [None] of [network]. *)
Class Collaborators := {
  (** [BeautifulSoup(text, "html.parser")] *)
  html_parser : string -> Soup;
  (** [[loc.text for loc in BeautifulSoup(content, "xml").find_all("loc")]] *)
  xml_locs : string -> list string;
  (** [urlparse(url).path], [None] when [urlparse] raises *)
  urlparse_path : string -> option string;
  (** [urljoin(base, url)] *)
  urljoin : string -> string -> Result string
}.

(** [x or y] on two optional tags. *)
Definition tag_or {A} (x y : option A) : option A :=
  match x with Some _ => x | None => y end.

(* ===================================================================== *)
(** ** WebScrapping.py *)
(* ===================================================================== *)

(** The values a result dictionary holds. *)
Inductive Value : Type :=
| VStr (s : string)
| VList (l : list string).

Definition Dict := dict string Value.

(** [d[k]]. *)
Definition dict_index {V} (d : dict string V) (k : string) : Result V :=
  match dict_get d k with
  | Some v => Return v
  | None => Raise ("KeyError: " ++ k)%string
  end.

(** [urljoin(BASE_URL, "/wp-sitemap.xml")] with [BASE_URL =
    "https://d5meta.com"]. *)
Definition MAIN_SITEMAP : string := "https://d5meta.com/wp-sitemap.xml".

Definition newline : string := String (ascii_of_nat 10) EmptyString.

(** The response model. *)
Record BlogSearchResult := mkBlogSearchResult {
  title : option string;
  url : option string;
  content_preview : option string;
  full_content : option string;
  image_urls : list string;
  message : option string;
  error : option string
}.

(** What the endpoint answers: the body of a 200 response, or the detail of
    an [HTTPException] with status 500. *)
Inductive Response : Type :=
| HTTP200 (body : BlogSearchResult)
| HTTP500 (detail : Value).

Definition optional_str (kwargs : Dict) (field : string) : Result (option string) :=
  match dict_get kwargs field with
  | None => Return None
  | Some (VStr s) => Return (Some s)
  | Some (VList _) => Raise ("validation error for BlogSearchResult: " ++ field)%string
  end.

Definition list_str (kwargs : Dict) (field : string) : Result (list string) :=
  match dict_get kwargs field with
  | None => Return []
  | Some (VList l) => Return l
  | Some (VStr _) => Raise ("validation error for BlogSearchResult: " ++ field)%string
  end.

(** The constructor [BlogSearchResult] on keyword arguments, the base class
    [pydantic.BaseModel] doing the work: a field declared [Optional[str]]
    that is not given is [None] (such fields are taken as not required, the
    reading under which the code's own [BlogSearchResult(message=...)] builds
    a model, and the semantics of pydantic 1), [image_urls] defaults to the
    empty list, a value of the wrong type is a validation error, other keys
    are ignored. *)
Definition BlogSearchResult_init (kwargs : Dict) : Result BlogSearchResult :=
  match optional_str kwargs "title", optional_str kwargs "url",
        optional_str kwargs "content_preview", optional_str kwargs "full_content",
        list_str kwargs "image_urls",
        optional_str kwargs "message", optional_str kwargs "error" with
  | Return t, Return u, Return p, Return f, Return i, Return m, Return e =>
      Return (mkBlogSearchResult t u p f i m e)
  | Raise e, _, _, _, _, _, _ => Raise e
  | _, Raise e, _, _, _, _, _ => Raise e
  | _, _, Raise e, _, _, _, _ => Raise e
  | _, _, _, Raise e, _, _, _ => Raise e
  | _, _, _, _, Raise e, _, _ => Raise e
  | _, _, _, _, _, Raise e, _ => Raise e
  | _, _, _, _, _, _, Raise e => Raise e
  end.

Section Pipeline.
Context `{Collaborators}.

(** [clean_html(html)]. *)
Definition clean_html (html : string) : string :=
  text_without_scripts (html_parser html).

(** [get_sitemap_urls()]. *)
Definition get_sitemap_urls : M (list string) :=
  res <- requests_get MAIN_SITEMAP ;;
  match res with
  | Some content => ret (xml_locs content)
  | None => ret []
  end.

(** [fetch_sitemap_content(sitemap_url)]. *)
Definition fetch_sitemap_content (sitemap_url : string) : M (option string) :=
  requests_get sitemap_url.

Definition keywords : list string :=
  ["blog"; "signature"; "salesforce"; "field"; "service"; "dispatcher"].

(** [any(keyword in loc.text.lower() for keyword in [...])]. *)
Definition has_keyword (loc : string) : bool :=
  existsb (fun keyword => Py.contains keyword (Py.lower loc)) keywords.

(** A future goes into the completed ones after those that finished no
    later. *)
Fixpoint insert_completed {A} (at_ : nat -> nat) (fut : nat * A) (done : list (nat * A))
  : list (nat * A) :=
  match done with
  | [] => [fut]
  | d :: done' =>
      if at_ (fst d) <=? at_ (fst fut) then d :: insert_completed at_ fut done'
      else fut :: done
  end.

(** [concurrent.futures.as_completed(futures)]: the futures in the order in
    which they finish. *)
Definition as_completed {A} (futures : list (nat * A)) : M (list (nat * A)) :=
  fun w => (Return (fold_left (fun done fut => insert_completed (finished w) fut done)
                      futures []), w).

(** The body of [for future in as_completed(future_to_url)]. *)
Definition extend_urls (urls : list string) (future : nat * option string)
  : list string :=
  match snd future with
  | Some sitemap_content =>
      if Py.truthy sitemap_content
      then urls ++ filter has_keyword (xml_locs sitemap_content)
      else urls
  | None => urls
  end.

(** [get_all_blog_page_urls()]. *)
Definition get_all_blog_page_urls : M (list string) :=
  sitemap_urls <- get_sitemap_urls ;;
  contents <- mapM fetch_sitemap_content sitemap_urls ;;
  completed <- as_completed (combine (seq 0 (length contents)) contents) ;;
  ret (fold_left extend_urls completed []).

(** [get_title_from_url(url)]. *)
Definition get_title_from_url (url : string) : M (option (string * string)) :=
  res <- requests_get url ;;
  match res with
  | Some text =>
      let soup := html_parser text in
      match tag_or (find_h1 soup) (find_title soup) with
      | Some title_text => ret (Some (title_text, url))
      | None => ret None
      end
  | None => ret None
  end.

(** [fetch_blog_soup(url)]. *)
Definition fetch_blog_soup (url : string) : M (option Soup) :=
  res <- requests_get url ;;
  match res with
  | Some text => ret (Some (html_parser text))
  | None => ret None
  end.

(** [extract_blog_content(soup)]. *)
Definition extract_blog_content (soup : Soup) : option string :=
  match tag_or (select_one_container soup) (body soup) with
  | None => None
  | Some content_blocks =>
      let content :=
        Py.join newline
          (map (fun b => clean_html (tag_str b))
             (filter (fun b => Py.truthy (tag_text b)) content_blocks)) in
      Some (Py.strip content)
  end.

(** [slugify(text)]. *)
Definition slugify (text : string) : string :=
  Py.replace " " "-" (Py.lower text).

(** Lines 156-160: the loop that fills [title_url_map]. *)
Definition build_title_url_map (results : list (option (string * string)))
  : dict string string :=
  fold_left (fun title_url_map result =>
               match result with
               | Some (title, url) => dict_set title_url_map title url
               | None => title_url_map
               end) results [].

(** Lines 167-169: the slug of one URL; [None] when [urlparse] raises or the
    path has fewer than two parts. *)
Definition slug_of_url (url : string) : option string :=
  match urlparse_path url with
  | None => None
  | Some path =>
      let path_parts := Py.split "/" path in
      if 2 <=? length path_parts then
        let last_part := last path_parts "" in
        Some (if String.eqb last_part ""
              then last (removelast path_parts) ""
              else last_part)
      else None
  end.

(** Lines 164-173: the loop that fills [slug_url_map]. *)
Definition build_slug_url_map (urls : list string) : dict string string :=
  fold_left (fun slug_url_map url =>
               match slug_of_url url with
               | Some slug =>
                   if Py.contains "-" slug then dict_set slug_url_map slug url
                   else slug_url_map
               | None => slug_url_map
               end) urls [].

(** Lines 182-186: the branch taken when a slug is close enough. *)
Definition slug_branch (slug_url_map : dict string string) (best_slug : string)
  : M (string * string) :=
  match_url <- lift (dict_index slug_url_map best_slug) ;;
  title_result <- get_title_from_url match_url ;;
  ret (match title_result with
       | Some (title_text, _) => title_text
       | None => ("Matched via URL: " ++ best_slug)%string
       end, match_url).

(** Lines 188-194: the branch taken otherwise; [None] stands for the
    early return of the no-match message. *)
Definition title_branch (search_query : string) (title_url_map : dict string string)
  : M (option (string * string)) :=
  let titles := dict_keys title_url_map in
  match Difflib.get_close_matches search_query titles (3 # 5) with
  | [] => ret None
  | match_title :: _ =>
      match_url <- lift (dict_index title_url_map match_title) ;;
      ret (Some (match_title, match_url))
  end.

(** Lines 156-194: the matching steps, from the candidate URLs and their
    resolved titles to [(match_title, match_url)]. *)
Definition matcher (search_query : string) (urls : list string)
           (results : list (option (string * string)))
  : M (option (string * string)) :=
  let title_url_map := build_title_url_map results in
  let query_slug := slugify search_query in
  let slug_url_map := build_slug_url_map urls in
  let slugs := dict_keys slug_url_map in
  match Difflib.get_close_matches query_slug slugs (1 # 2) with
  | best_slug :: _ =>
      m <- slug_branch slug_url_map best_slug ;; ret (Some m)
  | [] => title_branch search_query title_url_map
  end.

(** Lines 209-214: the loop over [images[:3]]. *)
Fixpoint image_loop (match_url : string) (images : list (option string))
         (image_urls : list string) : Result (list string) :=
  match images with
  | [] => Return image_urls
  | img :: images' =>
      match img with
      | Some src =>
          if Py.truthy src then
            match urljoin match_url src with
            | Return full_src => image_loop match_url images' (image_urls ++ [full_src])
            | Raise e => Raise e
            end
          else image_loop match_url images' image_urls
      | None => image_loop match_url images' image_urls
      end
  end.

(** Lines 199-225: from the match to the payload. *)
Definition fetch_and_extract (match_title match_url : string) : M Dict :=
  soup <- fetch_blog_soup match_url ;;
  match soup with
  | None =>
      ret [("error", VStr ("Failed to fetch blog HTML for " ++ match_url ++ ".")%string)]
  | Some soup =>
      match extract_blog_content soup with
      | Some (String c content' as content) =>
          image_urls <- lift (image_loop match_url (firstn 3 (select_img soup)) []) ;;
          ret [("title", VStr match_title);
               ("url", VStr match_url);
               ("content_preview", VStr (Py.slice_to 300 content));
               ("full_content", VStr content);
               ("image_urls", VList image_urls)]
      | _ => ret [("error", VStr "Failed to extract blog content.")]
      end
  end.

(** [run_blog_search(search_query)]. *)
Definition run_blog_search (search_query : string) : M Dict :=
  urls <- get_all_blog_page_urls ;;
  match urls with
  | [] => ret [("error", VStr "No blog URLs found from sitemap.")]
  | _ :: _ =>
      results <- mapM get_title_from_url urls ;;
      matched <- matcher search_query urls results ;;
      match matched with
      | None => ret [("message", VStr "No matching blog found.")]
      | Some (match_title, match_url) => fetch_and_extract match_title match_url
      end
  end.

(** The body of [search_blog_endpoint] after the call of
    [run_blog_search]: what the [try] block returns or raises, and what the
    two [except] clauses make of it. *)
Definition respond (outcome : Result Dict) : Response :=
  match outcome with
  | Raise e => HTTP500 (VStr ("An internal server error occurred: " ++ e)%string)
  | Return result =>
      match dict_get result "error" with
      | Some detail => HTTP500 detail
      | None =>
          let kwargs :=
            match dict_get result "message" with
            | Some m => [("message", m)]
            | None => result
            end in
          match BlogSearchResult_init kwargs with
          | Return body => HTTP200 body
          | Raise e => HTTP500 (VStr ("An internal server error occurred: " ++ e)%string)
          end
      end
  end.

(** [search_blog_endpoint(request)], [request.query] being the query. *)
Definition search_blog_endpoint (query : string) : World -> Response * World :=
  fun w => let (outcome, w') := run_blog_search query w in (respond outcome, w').

End Pipeline.


(* ===================================================================== *)
(** ** What the specification says, in its own words *)
(* ===================================================================== *)

(** "The last non-empty path segment" of a path. *)
Definition last_nonempty_segment (path : string) : option string :=
  match rev (filter Py.truthy (Py.split "/" path)) with
  | segment :: _ => Some segment
  | [] => None
  end.

(** The URL of the first, and of the last, candidate that resolved to
    [title_text]. *)
Definition first_url_of (title_text : string) (results : list (option (string * string)))
  : option string :=
  match filter (fun r => String.eqb (fst r) title_text)
               (flat_map (fun r => match r with Some p => [p] | None => [] end) results) with
  | r :: _ => Some (snd r)
  | [] => None
  end.

Definition last_url_of (title_text : string) (results : list (option (string * string)))
  : option string :=
  first_url_of title_text (rev results).

(** The [src] attributes among the image elements: those that are there and
    are not empty. *)
Definition present_srcs (images : list (option string)) : list string :=
  flat_map (fun img => match img with
                       | Some src => if Py.truthy src then [src] else []
                       | None => []
                       end) images.

(** The three shapes of a result of [run_blog_search]. *)
Definition is_error (d : Dict) : Prop := exists e, d = [("error", VStr e)].

Definition is_message (d : Dict) : Prop := exists m, d = [("message", VStr m)].

Definition is_success (d : Dict) : Prop :=
  exists t u c imgs,
    d = [("title", VStr t); ("url", VStr u);
         ("content_preview", VStr (Py.slice_to 300 c));
         ("full_content", VStr c); ("image_urls", VList imgs)].

(** The title resolution of every candidate is frozen: a request to a
    candidate URL is answered the same way whenever it is sent. *)
Definition titles_frozen (urls : list string) (w : World) : Prop :=
  forall u n m, In u urls -> network w n u = network w m u.

(* ===================================================================== *)
(** ** A small site to run the pipeline on *)
(* ===================================================================== *)

Module Demo.

(** [s] cut at the first ["://"]: the scheme and what follows it. *)
Fixpoint split_scheme (s : string) : option (string * string) :=
  match s with
  | EmptyString => None
  | String c s' =>
      if String.prefix "://" s then Some (EmptyString, String.substring 3 (String.length s) s)
      else match split_scheme s' with
           | Some (scheme, rest) => Some (String c scheme, rest)
           | None => None
           end
  end.

(** [s] up to the first character that satisfies [stop], and from it on. *)
Fixpoint break_at (stop : ascii -> bool) (s : string) : string * string :=
  match s with
  | EmptyString => (EmptyString, EmptyString)
  | String c s' =>
      if stop c then (EmptyString, s)
      else let (before, after) := break_at stop s' in (String c before, after)
  end.

Definition is_slash (c : ascii) : bool := Ascii.eqb c "/".

Definition ends_path (c : ascii) : bool := Ascii.eqb c "?" || Ascii.eqb c "#".

(** The path of [scheme://host/path?query#fragment], or of a URL that is a
    bare path: what [urlparse(url).path] is on such URLs. *)
Definition url_path (url : string) : option string :=
  match split_scheme url with
  | Some (_, rest) => Some (fst (break_at ends_path (snd (break_at is_slash rest))))
  | None => Some (fst (break_at ends_path url))
  end.

(** [scheme://host] of an absolute URL. *)
Definition origin (url : string) : string :=
  match split_scheme url with
  | Some (scheme, rest) => (scheme ++ "://" ++ fst (break_at is_slash rest))%string
  | None => EmptyString
  end.

(** What [urljoin(base, src)] is for an absolute [src] and for a [src] that
    starts with a slash; other references are outside this small model and
    raise. *)
Definition url_join (base src : string) : Result string :=
  match split_scheme src with
  | Some _ => Return src
  | None =>
      if String.prefix "/" src then Return (origin base ++ src)%string
      else Raise "ValueError"
  end.

(** Pages are written [h1|paragraph|src|src|...]: an empty first field is a
    page with neither [h1] nor [title], an empty [src] field an image with no
    [src]. *)
Definition parse_page (text : string) : Soup :=
  match Py.split "|" text with
  | heading :: rest =>
      {| find_h1 := if Py.truthy heading then Some heading else None;
         find_title := None;
         select_one_container := None;
         body := match rest with
                 | paragraph :: _ => Some [mkTag paragraph paragraph]
                 | [] => None
                 end;
         select_img := map (fun src => if Py.truthy src then Some src else None) (tl rest);
         text_without_scripts := text |}
  | [] => mkSoup None None None None [] text
  end.

(** Sitemaps are written [loc,loc,...]. *)
Definition parse_locs (content : string) : list string :=
  filter Py.truthy (Py.split "," content).

Definition libs : Collaborators :=
  {| html_parser := parse_page;
     xml_locs := parse_locs;
     urlparse_path := url_path;
     urljoin := url_join |}.

(** The responses of a site, by URL. *)
Fixpoint lookup (site : list (string * string)) (url : string) : option string :=
  match site with
  | [] => None
  | (u, body_text) :: site' => if String.eqb u url then Some body_text else lookup site' url
  end.

Definition world_of (site : list (string * string)) : World :=
  {| clock := 0; network := fun _ url => lookup site url; finished := fun n => n |}.

(** A site whose sitemap cannot be fetched. *)
Definition unreachable : World := world_of [].

Definition guide_url : string := "https://d5meta.com/blog/field-service-guide/".
Definition tips_url : string := "https://d5meta.com/blog/e-signature-tips/".

(** A site with two posts.  The first image of the guide has no [src]. *)
Definition site : list (string * string) :=
  [(MAIN_SITEMAP, "https://d5meta.com/wp-sitemap-posts-post-1.xml");
   ("https://d5meta.com/wp-sitemap-posts-post-1.xml",
    "https://d5meta.com/blog/field-service-guide/,https://d5meta.com/blog/e-signature-tips/,https://d5meta.com/about-us/");
   (guide_url, "Field Service Guide|All about field service.||/img/a.png|/img/b.png|/img/c.png");
   (tips_url, "Signature Tips|Sign here.|/img/pen.png")].

Definition online : World := world_of site.

(** The same site when the guide's heading is changed right after the
    titles of all candidates have been resolved (requests 0 and 1 fetch the
    sitemaps, requests 2 and 3 the titles). *)
Definition retitled : World :=
  {| clock := 0;
     network := fun n url =>
       if (4 <=? n) && String.eqb url guide_url
       then Some "The Field Service Handbook|All about field service."
       else lookup site url;
     finished := fun n => n |}.

(** Two posts under one heading, with slugs that have no hyphen. *)
Definition twins : list (string * string) :=
  [(MAIN_SITEMAP, "https://d5meta.com/wp-sitemap-posts-post-1.xml");
   ("https://d5meta.com/wp-sitemap-posts-post-1.xml",
    "https://d5meta.com/blog/first/,https://d5meta.com/blog/second/");
   ("https://d5meta.com/blog/first/", "Release Notes|The first post.");
   ("https://d5meta.com/blog/second/", "Release Notes|The second post.")].

End Demo.

(* ===================================================================== *)
(** ** The pipeline, step by step *)
(* ===================================================================== *)

Section Vocabulary.
Context `{Collaborators}.

(** The world [k] requests later. *)
Definition advance (k : nat) (w : World) : World :=
  {| clock := k + clock w; network := network w; finished := finished w |}.

(** A computation that never raises and leaves the world as it is, but for
    the requests it sends. *)
Definition steady {A} (m : M A) : Prop :=
  forall w, exists a k, m w = (Return a, advance k w).

(** What [get_title_from_url(url)] returns when its request is the [n]-th. *)
Definition title_at (w : World) (n : nat) (url : string) : option (string * string) :=
  match network w n url with
  | Some text =>
      match tag_or (find_h1 (html_parser text)) (find_title (html_parser text)) with
      | Some title_text => Some (title_text, url)
      | None => None
      end
  | None => None
  end.

(** The titles of [urls], resolved by the requests [n], [n + 1], ... *)
Fixpoint titles_from (w : World) (n : nat) (urls : list string)
  : list (option (string * string)) :=
  match urls with
  | [] => []
  | url :: urls' => title_at w n url :: titles_from w (S n) urls'
  end.

(** The slug under which a URL enters [slug_url_map], if it does. *)
Definition hyphen_slug (url : string) : option string :=
  match slug_of_url url with
  | Some slug => if Py.contains "-" slug then Some slug else None
  | None => None
  end.

(** The last of [urls] that enters [slug_url_map] under [slug]. *)
Definition last_url_with_slug (slug : string) (urls : list string) : option string :=
  find (fun url => match hyphen_slug url with
                   | Some s => String.eqb s slug
                   | None => false
                   end) (rev urls).

(** The candidate URLs of a run, and their resolved titles. *)
Definition candidates (w : World) : list string :=
  match fst (get_all_blog_page_urls w) with
  | Return urls => urls
  | Raise _ => []
  end.

Definition resolved (w : World) : list (option (string * string)) :=
  titles_from w (clock (snd (get_all_blog_page_urls w))) (candidates w).

(** Lines 153-194: the titles of the candidates are resolved, then the
    matching steps run. *)
Definition resolve_and_match (search_query : string) (urls : list string)
  : M (option (string * string)) :=
  results <- mapM get_title_from_url urls ;;
  matcher search_query urls results.

(** [urljoin(match_url, src)] for every [src], until one raises. *)
Fixpoint join_all (match_url : string) (srcs : list string) : Result (list string) :=
  match srcs with
  | [] => Return []
  | src :: srcs' =>
      match urljoin match_url src, join_all match_url srcs' with
      | Return full_src, Return rest => Return (full_src :: rest)
      | Raise e, _ => Raise e
      | _, Raise e => Raise e
      end
  end.

End Vocabulary.

(* ===================================================================== *)
(** ** Four sentences of the specification, as they are written *)
(* ===================================================================== *)

Section AsStated.
Context `{Collaborators}.


(** "The title map maps a title to the URL of the first candidate that
    resolved to it." *)
Definition first_title_wins_as_stated (results : list (option (string * string))) : Prop :=
  forall title_text,
    dict_get (build_title_url_map results) title_text = first_url_of title_text results.

(** "The slug is the last non-empty path segment, and the slug map has an
    entry for the URL if and only if that segment contains a hyphen." *)
Definition slug_entry_as_stated (urls : list string) : Prop :=
  forall u path segment,
    In u urls -> urlparse_path u = Some path ->
    last_nonempty_segment path = Some segment ->
    (dict_get (build_slug_url_map urls) segment = Some u <->
     Py.contains "-" segment = true).

(** "The list is built by resolving up to the first 3 [src] attributes among
    the image elements, skipping image elements that have no [src]." *)
Definition first_three_srcs_as_stated (match_url : string) (images : list (option string))
  : Prop :=
  image_loop match_url (firstn 3 images) [] =
  join_all match_url (firstn 3 (present_srcs images)).

End AsStated.

(* ===================================================================== *)
(** ** difflib: the invariants of its loops *)
(* ===================================================================== *)

Module DifflibSpec.
Import Difflib.

(** The indices at which [c] occurs in [b], counted from [i]. *)
Fixpoint positions (c : ascii) (b : list ascii) (i : nat) : list nat :=
  match b with
  | [] => []
  | x :: b' => if Ascii.eqb x c then i :: positions c b' (S i) else positions c b' (S i)
  end.

(** A run of [k] equal elements ending at [a[i]] and [b[j]], inside the
    window that starts at [alo] and [blo], all of them indexed in [b2j]. *)
Definition run_ok (a b : list ascii) (b2j : dict ascii (list nat))
           (alo blo i j k : nat) : Prop :=
  alo + k <= i + 1 /\ blo + k <= j + 1 /\
  forall t, t < k ->
    item a (i - t) = item b (j - t) /\ In (j - t) (b2j_get b2j (item b (j - t))).

(** Every cell of the row being filled at [i] holds the length of a run. *)
Definition row_ok a b b2j (alo blo bhi i : nat) (row : dict nat nat) : Prop :=
  forall j k, dict_get row j = Some k ->
    1 <= k /\ j < bhi /\ run_ok a b b2j alo blo i j k.

(** So does every cell of [j2len], the row filled at [i - 1]. *)
Definition prev_ok a b b2j (alo blo i : nat) (prev : dict nat nat) : Prop :=
  forall j k, dict_get prev j = Some k ->
    1 <= i /\ 1 <= k /\ run_ok a b b2j alo blo (i - 1) j k.

(** The best block lies in the window and is a match. *)
Definition best_ok (a b : list ascii) (alo ahi blo bhi : nat) (best : Match) : Prop :=
  let '(besti, bestj, bestsize) := best in
  alo <= besti /\ besti + bestsize <= ahi /\
  blo <= bestj /\ bestj + bestsize <= bhi /\
  forall t, t < bestsize -> item a (besti + t) = item b (bestj + t).

(** [s[lo:hi]]. *)
Definition seg (s : list ascii) (lo hi : nat) : list ascii :=
  firstn (hi - lo) (skipn lo s).

(** A window of the queue lies within the two sequences. *)
Definition window_ok (la lb : nat) (r : nat * nat * nat * nat) : Prop :=
  let '(alo, ahi, blo, bhi) := r in
  alo <= ahi /\ ahi <= la /\ blo <= bhi /\ bhi <= lb.

(** The elements of both sequences a window covers. *)
Definition window_weight (r : nat * nat * nat * nat) : nat :=
  let '(alo, ahi, blo, bhi) := r in (ahi - alo) + (bhi - blo).

Definition queue_weight (queue : list (nat * nat * nat * nat)) : nat :=
  fold_right (fun r acc => window_weight r + acc) 0 queue.

(** Bounds the iterations the windows of the queue can still cause. *)
Definition queue_measure (queue : list (nat * nat * nat * nat)) : nat :=
  fold_right (fun r acc => let '(alo, ahi, _, _) := r in 2 * (ahi - alo) + 1 + acc)
    0 queue.

(** A window holds the same elements on both sides. *)
Definition window_equal (a b : list ascii) (r : nat * nat * nat * nat) : Prop :=
  let '(alo, ahi, blo, bhi) := r in seg a alo ahi = seg b blo bhi.

(** [k] indexed elements in a row ending at position [r] of [s]. *)
Definition diag_run (s : list ascii) (b2j : dict ascii (list nat)) (r k : nat) : Prop :=
  k <= r + 1 /\ forall t, t < k -> In (r - t) (b2j_get b2j (item s (r - t))).

(** The cell [(r, r)] of a row holds at least the length of every such run,
    and so does the best size. *)
Definition diag_cell (s : list ascii) (b2j : dict ascii (list nat)) (r : nat)
           (row : dict nat nat) (bestsize : nat) : Prop :=
  forall k, diag_run s b2j r k ->
    k <= bestsize /\ (1 <= k -> exists k', dict_get row r = Some k' /\ k <= k').

(** The same of [j2len], for the row before [i]. *)
Definition diag_prev (s : list ascii) (b2j : dict ascii (list nat)) (i : nat)
           (prev : dict nat nat) : Prop :=
  forall k, 1 <= i -> 1 <= k -> diag_run s b2j (i - 1) k ->
    exists k', dict_get prev (i - 1) = Some k' /\ k <= k'.

(** The best block lies on the diagonal and is no shorter than any run of
    indexed elements in the rows done. *)
Definition diag_best (s : list ascii) (b2j : dict ascii (list nat)) (i : nat)
           (best : Match) : Prop :=
  let '(besti, bestj, bestsize) := best in
  besti = bestj /\ forall r k, r < i -> diag_run s b2j r k -> k <= bestsize.

(** [fullbcount.get(elt, 0)]. *)
Definition count_get (d : dict ascii Z) (c : ascii) : Z :=
  match dict_get d c with Some n => n | None => 0%Z end.

(** [avail.get(elt, fullbcount.get(elt, 0))]. *)
Definition avail_get (fullbcount avail : dict ascii Z) (c : ascii) : Z :=
  match dict_get avail c with Some n => n | None => count_get fullbcount c end.

End DifflibSpec.

(* ===================================================================== *)
(** ** difflib: the elements two sequences have in common *)
(* ===================================================================== *)

Module Common.

(** All the characters. *)
Definition all_ascii : list ascii := map ascii_of_nat (seq 0 256).

(** The sum of [f] over the characters of [l]. *)
Definition sum_over (f : ascii -> nat) (l : list ascii) : nat :=
  fold_right (fun c acc => f c + acc) 0 l.

(** The size of the intersection of [x] and [y] taken as multisets: what
    the comment of [quick_ratio] calls the number of matches without regard
    to order. *)
Definition common (x y : list ascii) : nat :=
  sum_over (fun c => Nat.min (count_occ ascii_dec x c) (count_occ ascii_dec y c))
    all_ascii.

(** The windows of a queue hold at least [n] common elements in all. *)
Definition queue_common (a b : list ascii) (queue : list (nat * nat * nat * nat)) : nat :=
  fold_right (fun r acc =>
                let '(alo, ahi, blo, bhi) := r in
                common (DifflibSpec.seg a alo ahi) (DifflibSpec.seg b blo bhi) + acc)
    0 queue.

(** [x >= y] on the tuples [(score, word)]: [y > x] does not hold. *)
Definition tuple_ge (x y : Q * string) : Prop := Difflib.tuple_gt y x = false.

End Common.

(* ===================================================================== *)
(** ** The crawl and the requests of a run *)
(* ===================================================================== *)

Section CrawlVocabulary.
Context `{Collaborators}.

(** The child sitemaps the root sitemap lists; none when it cannot be
    fetched. *)
Definition child_sitemaps (w : World) : list string :=
  match network w (clock w) MAIN_SITEMAP with
  | Some content => xml_locs content
  | None => []
  end.

(** The answers to the requests [n], [n + 1], ... sent to [urls] in order. *)
Fixpoint responses_from (w : World) (n : nat) (urls : list string)
  : list (option string) :=
  match urls with
  | [] => []
  | u :: urls' => network w n u :: responses_from w (S n) urls'
  end.

(** The URLs one child sitemap contributes: those with a keyword, and none
    when the sitemap could not be fetched or is empty. *)
Definition kept_locs (content : option string) : list string :=
  match content with
  | Some sitemap_content =>
      if Py.truthy sitemap_content then filter has_keyword (xml_locs sitemap_content)
      else []
  | None => []
  end.

(** The world once the sitemaps are fetched, and once the titles of the
    candidates are resolved too. *)
Definition after_crawl (w : World) : World :=
  advance (1 + length (child_sitemaps w)) w.

Definition after_titles (w : World) : World :=
  advance (length (candidates w)) (after_crawl w).

(** The requests a search sends once the titles are resolved: the title of
    a slug match again and then its page, the page of a title match, nothing
    when nothing matches. *)
Definition requests_after_titles (search_query : string) (w : World) : nat :=
  match Difflib.get_close_matches (slugify search_query)
          (dict_keys (build_slug_url_map (candidates w))) (1 # 2) with
  | _ :: _ => 2
  | [] =>
      match Difflib.get_close_matches search_query
              (dict_keys (build_title_url_map (resolved w))) (3 # 5) with
      | _ :: _ => 1
      | [] => 0
      end
  end.

End CrawlVocabulary.

(* ===================================================================== *)
(** ** More sites to run the pipeline on *)
(* ===================================================================== *)

Module Gallery.
Import Demo.

(** [urljoin] as in [Demo], and raising on a reference whose host opens a
    bracket that is never closed, as [urllib.parse.urljoin] does with
    [ValueError: Invalid IPv6 URL]. *)
Definition strict_url_join (base src : string) : Result string :=
  if String.prefix "http://[" src then Raise "Invalid IPv6 URL" else url_join base src.

Definition strict_libs : Collaborators :=
  {| html_parser := parse_page;
     xml_locs := parse_locs;
     urlparse_path := url_path;
     urljoin := strict_url_join |}.

Definition child_sitemap : string := "https://d5meta.com/wp-sitemap-posts-post-1.xml".

Definition gallery_url : string := "https://d5meta.com/blog/field-gallery/".

(** A site with one post, whose second image has a malformed [src]. *)
Definition gallery : World :=
  world_of [(MAIN_SITEMAP, child_sitemap);
            (child_sitemap, gallery_url);
            (gallery_url, "Field Gallery|Pictures from the field.|/img/a.png|http://[broken")].

(** The site of [Demo] when the guide is taken down right after the titles
    of all candidates have been resolved. *)
Definition taken_down : World :=
  {| clock := 0;
     network := fun n url =>
       if (4 <=? n) && String.eqb url guide_url then None else lookup site url;
     finished := fun n => n |}.

(** A site whose only post has a heading and nothing else. *)
Definition blank : World :=
  world_of [(MAIN_SITEMAP, child_sitemap);
            (child_sitemap, gallery_url);
            (gallery_url, "Field Gallery|")].

(** A site with two child sitemaps, the second of which is fetched first. *)
Definition second_sitemap : string := "https://d5meta.com/wp-sitemap-posts-page-1.xml".

Definition out_of_order : World :=
  {| clock := 0;
     network := fun _ url =>
       lookup [(MAIN_SITEMAP, (child_sitemap ++ "," ++ second_sitemap)%string);
               (child_sitemap, guide_url);
               (second_sitemap, tips_url);
               (guide_url, "Field Service Guide|All about field service.");
               (tips_url, "Signature Tips|Sign here.")] url;
     finished := fun n => 1 - n |}.

End Gallery.
(* ===================================================================== *)
(** ** Dictionaries: lookups after updates *)
(* ===================================================================== *)

Section PyDictFacts.
Context {K V : Type} `{EqKey K}.

Lemma keqb_refl (k : K) : keqb k k = true.
Proof. destruct (keqb_spec k k); congruence. Qed.

Lemma keqb_neq (k k' : K) : k <> k' -> keqb k k' = false.
Proof. destruct (keqb_spec k k'); congruence. Qed.

Lemma dict_get_set_same (d : dict K V) k v : dict_get (dict_set d k v) k = Some v.
Proof.
  induction d as [|[k' v'] d IH]; simpl.
  - now rewrite keqb_refl.
  - destruct (keqb_spec k' k) as [->|Hne]; simpl.
    + now rewrite keqb_refl.
    + now rewrite keqb_neq.
Qed.

Lemma dict_get_set_other (d : dict K V) k v k' :
  k <> k' -> dict_get (dict_set d k v) k' = dict_get d k'.
Proof.
  intros Hne. induction d as [|[k0 v0] d IH]; simpl.
  - now rewrite keqb_neq.
  - destruct (keqb_spec k0 k) as [->|Hne0]; simpl.
    + now rewrite keqb_neq.
    + now rewrite IH.
Qed.

Lemma dict_get_In_keys (d : dict K V) k v :
  dict_get d k = Some v -> In k (dict_keys d).
Proof.
  induction d as [|[k' v'] d IH]; simpl; [discriminate|].
  destruct (keqb_spec k' k) as [->|Hne]; auto.
Qed.

Lemma dict_get_None_keys (d : dict K V) k :
  dict_get d k = None -> ~ In k (dict_keys d).
Proof.
  induction d as [|[k' v'] d IH]; simpl; [tauto|].
  destruct (keqb_spec k' k) as [->|Hne]; [discriminate|].
  intros Hd [Heq|Hin]; [congruence | now apply IH].
Qed.

Lemma In_keys_dict_get (d : dict K V) k :
  In k (dict_keys d) -> exists v, dict_get d k = Some v.
Proof.
  intros Hin. destruct (dict_get d k) as [v|] eqn:E; [now exists v|].
  now apply dict_get_None_keys in E.
Qed.

Lemma dict_keys_set (d : dict K V) k v :
  dict_keys (dict_set d k v) =
  if dict_in k d then dict_keys d else dict_keys d ++ [k].
Proof.
  unfold dict_in. induction d as [|[k' v'] d IH]; simpl; [reflexivity|].
  destruct (keqb_spec k' k) as [->|Hne]; simpl; [reflexivity|].
  rewrite IH. now destruct (dict_get d k).
Qed.

Lemma dict_keys_set_In (d : dict K V) k v k' :
  In k' (dict_keys (dict_set d k v)) <-> k' = k \/ In k' (dict_keys d).
Proof.
  rewrite dict_keys_set. unfold dict_in.
  destruct (dict_get d k) as [v0|] eqn:E.
  - apply dict_get_In_keys in E. split; [auto|]. now intros [->|].
  - rewrite in_app_iff. simpl. intuition auto.
Qed.

Lemma dict_set_NoDup (d : dict K V) k v :
  NoDup (dict_keys d) -> NoDup (dict_keys (dict_set d k v)).
Proof.
  intros Hnd. rewrite dict_keys_set. unfold dict_in.
  destruct (dict_get d k) eqn:E; [assumption|].
  apply dict_get_None_keys in E.
  apply NoDup_app; [assumption | constructor; [tauto | constructor] |].
  intros x Hx [<-|[]]. contradiction.
Qed.

Lemma dict_get_purge_None (keep : K -> V -> bool) (d : dict K V) k :
  dict_get d k = None -> dict_get (dict_purge keep d) k = None.
Proof.
  unfold dict_purge. induction d as [|[k' v'] d IH]; simpl; [reflexivity|].
  destruct (keqb_spec k' k) as [->|Hne]; [discriminate|].
  intros Hd. destruct (keep k' v'); simpl; [rewrite keqb_neq by assumption|]; auto.
Qed.

Lemma dict_get_purge (keep : K -> V -> bool) (d : dict K V) k :
  NoDup (dict_keys d) ->
  dict_get (dict_purge keep d) k =
  match dict_get d k with
  | Some v => if keep k v then Some v else None
  | None => None
  end.
Proof.
  unfold dict_purge. induction d as [|[k' v'] d IH]; simpl; [reflexivity|].
  intros Hnd. inversion Hnd as [|? ? Hnotin Hnd']; subst.
  destruct (keqb_spec k' k) as [->|Hne].
  - destruct (keep k v') eqn:Ek; simpl.
    + now rewrite keqb_refl.
    + apply (dict_get_purge_None keep).
      destruct (dict_get d k) eqn:E; [|reflexivity].
      apply dict_get_In_keys in E. contradiction.
  - destruct (keep k' v'); simpl; [rewrite keqb_neq by assumption|]; auto.
Qed.
End PyDictFacts.

(* ===================================================================== *)
(** ** difflib: the index [b2j] *)
(* ===================================================================== *)

Module DifflibFacts.
Import Difflib DifflibSpec.

Lemma positions_spec c b i j :
  In j (positions c b i) <-> i <= j /\ nth_error b (j - i) = Some c.
Proof.
  revert i. induction b as [|x b IH]; intros i; simpl.
  - split; [tauto|]. intros [_ Hn]. now destruct (j - i).
  - assert (Hrec : In j (positions c b (S i)) <->
                   i <= j /\ j <> i /\ nth_error (x :: b) (j - i) = Some c).
    { rewrite IH. split.
      - intros [Hle Hn]. repeat split; try lia.
        replace (j - i) with (S (j - S i)) by lia. exact Hn.
      - intros (Hle & Hne & Hn). split; [lia|].
        replace (j - i) with (S (j - S i)) in Hn by lia. exact Hn. }
    destruct (Ascii.eqb_spec x c) as [->|Hne]; simpl.
    + rewrite Hrec. split.
      * intros [<-|(? & ? & ?)]; [|tauto].
        split; [lia|]. now rewrite Nat.sub_diag.
      * intros [Hle Hn]. destruct (Nat.eq_dec i j); [now left|right].
        repeat split; auto.
    + rewrite Hrec. split; [tauto|].
      intros [Hle Hn]. repeat split; auto.
      intros ->. rewrite Nat.sub_diag in Hn. simpl in Hn. congruence.
Qed.

Lemma positions_sorted c b i : StronglySorted lt (positions c b i).
Proof.
  revert i. induction b as [|x b IH]; intros i; simpl; [constructor|].
  destruct (Ascii.eqb x c); [|apply IH].
  constructor; [apply IH|].
  apply Forall_forall. intros j Hj. apply positions_spec in Hj. lia.
Qed.

Lemma b2j_get_setdefault_append b2j elt i c :
  b2j_get (setdefault_append b2j elt i) c =
  if Ascii.eqb elt c then b2j_get b2j c ++ [i] else b2j_get b2j c.
Proof.
  unfold b2j_get, setdefault_append.
  destruct (Ascii.eqb_spec elt c) as [->|Hne].
  - destruct (dict_get b2j c); now rewrite dict_get_set_same.
  - destruct (dict_get b2j elt); now rewrite dict_get_set_other.
Qed.

Lemma setdefault_append_NoDup b2j elt i :
  NoDup (dict_keys b2j) -> NoDup (dict_keys (setdefault_append b2j elt i)).
Proof.
  intros Hnd. unfold setdefault_append.
  destruct (dict_get b2j elt); now apply dict_set_NoDup.
Qed.

Lemma b2j_get_enumerate_b b i b2j c :
  b2j_get (enumerate_b b i b2j) c = b2j_get b2j c ++ positions c b i.
Proof.
  revert i b2j. induction b as [|x b IH]; intros i b2j; simpl.
  - now rewrite app_nil_r.
  - rewrite IH, b2j_get_setdefault_append.
    destruct (Ascii.eqb x c); [now rewrite <- app_assoc | reflexivity].
Qed.

Lemma enumerate_b_NoDup b i b2j :
  NoDup (dict_keys b2j) -> NoDup (dict_keys (enumerate_b b i b2j)).
Proof.
  revert i b2j. induction b as [|x b IH]; intros i b2j Hnd; simpl; [assumption|].
  apply IH. now apply setdefault_append_NoDup.
Qed.

(** What [__chain_b] leaves in [b2j]: all the positions of an element, or
    nothing when the element is absent or popular. *)
Lemma chain_b_get b c :
  b2j_get (__chain_b b) c = positions c b 0 \/ b2j_get (__chain_b b) c = [].
Proof.
  unfold __chain_b.
  destruct (200 <=? length b).
  - pose proof (b2j_get_enumerate_b b 0 [] c) as Hget.
  unfold b2j_get in *.
  rewrite dict_get_purge by (apply enumerate_b_NoDup; constructor).
  simpl in Hget.
  destruct (dict_get (enumerate_b b 0 []) c) as [idxs|]; [|now right].
  destruct (negb _); [left; assumption | now right].
- left. now rewrite b2j_get_enumerate_b.
Qed.

Lemma chain_b_sound b c j :
  In j (b2j_get (__chain_b b) c) -> j < length b /\ item b j = c.
Proof.
  destruct (chain_b_get b c) as [-> | ->]; [|intros []].
  rewrite positions_spec, Nat.sub_0_r. intros [_ Hn]. split.
  - apply nth_error_Some. congruence.
  - unfold item. now apply nth_error_nth.
Qed.

Lemma chain_b_complete b c j j' :
  In j (b2j_get (__chain_b b) c) -> j' < length b -> item b j' = c ->
  In j' (b2j_get (__chain_b b) c).
Proof.
  destruct (chain_b_get b c) as [-> | ->]; [|intros []].
  intros _ Hlt Hitem. rewrite positions_spec, Nat.sub_0_r. split; [lia|].
  rewrite <- Hitem. unfold item. now apply nth_error_nth'.
Qed.

Lemma chain_b_sorted b c : StronglySorted lt (b2j_get (__chain_b b) c).
Proof.
  destruct (chain_b_get b c) as [-> | ->]; [apply positions_sorted | constructor].
Qed.


(** *** [find_longest_match]: the block lies in the window and matches *)

Section FindLongestMatchSound.
Variables a b : list ascii.
Variable b2j : dict ascii (list nat).
Hypothesis b2j_sound :
  forall c j, In j (b2j_get b2j c) -> j < length b /\ item b j = c.
Variables alo ahi blo bhi : nat.

Lemma run_ok_cell prev i j :
  alo <= i -> blo <= j ->
  prev_ok a b b2j alo blo i prev ->
  In j (b2j_get b2j (item a i)) ->
  run_ok a b b2j alo blo i j (j2lenget_pred prev j + 1).
Proof.
  intros Hi Hj Hprev Hin.
  destruct (b2j_sound _ _ Hin) as [_ Hitem].
  assert (Hone : run_ok a b b2j alo blo i j 1).
  { repeat split; try lia; assert (t = 0) as -> by lia; rewrite !Nat.sub_0_r.
    - now rewrite Hitem.
    - now rewrite Hitem. }
  unfold j2lenget_pred. destruct j as [|j']; [exact Hone|].
  destruct (dict_get prev j') as [k0|] eqn:E; [|exact Hone].
  destruct (Hprev _ _ E) as (Hi1 & Hk0 & Ha & Hb & Hrun).
  repeat split; try lia.
  - destruct t as [|t'].
    + rewrite !Nat.sub_0_r. now rewrite Hitem.
    + replace (i - S t') with (i - 1 - t') by lia.
      replace (S j' - S t') with (j' - t') by lia.
      apply Hrun. lia.
  - destruct t as [|t'].
    + rewrite !Nat.sub_0_r. now rewrite Hitem.
    + replace (S j' - S t') with (j' - t') by lia.
      apply Hrun. lia.
Qed.

Lemma best_ok_of_run i j k :
  i < ahi -> j < bhi -> run_ok a b b2j alo blo i j k ->
  best_ok a b alo ahi blo bhi (i + 1 - k, j + 1 - k, k).
Proof.
  intros Hi Hj (Ha & Hb & Hrun). unfold best_ok.
  repeat split; try lia.
  intros t Ht.
  replace (i + 1 - k + t) with (i - (k - 1 - t)) by lia.
  replace (j + 1 - k + t) with (j - (k - 1 - t)) by lia.
  apply Hrun. lia.
Qed.

Lemma inner_loop_sound prev i js :
  alo <= i -> i < ahi ->
  prev_ok a b b2j alo blo i prev ->
  forall newrow best,
  (forall j, In j js -> In j (b2j_get b2j (item a i))) ->
  row_ok a b b2j alo blo bhi i newrow ->
  best_ok a b alo ahi blo bhi best ->
  row_ok a b b2j alo blo bhi i (fst (inner_loop prev i blo bhi js newrow best)) /\
  best_ok a b alo ahi blo bhi (snd (inner_loop prev i blo bhi js newrow best)).
Proof.
  intros Hi Hi' Hprev. induction js as [|j js IH]; intros newrow best Hjs Hrow Hbest;
    simpl; [now split|].
  destruct (Nat.ltb_spec j blo) as [Hlo|Hlo].
  { apply IH; auto. intros j' Hj'. apply Hjs. now right. }
  destruct (Nat.leb_spec bhi j) as [Hhi|Hhi]; [now split|].
  destruct best as [[besti bestj] bestsize].
  assert (Hrun : run_ok a b b2j alo blo i j (j2lenget_pred prev j + 1)).
  { apply run_ok_cell; auto. apply Hjs. now left. }
  apply IH.
  - intros j' Hj'. apply Hjs. now right.
  - intros j' k' Hget. destruct (Nat.eq_dec j j') as [<-|Hne].
    + rewrite dict_get_set_same in Hget. inversion Hget; subst k'.
      split; [lia | split; [lia | exact Hrun]].
    + rewrite dict_get_set_other in Hget by assumption. now apply Hrow.
  - destruct (bestsize <? j2lenget_pred prev j + 1); [|assumption].
    now apply best_ok_of_run.
Qed.

Lemma outer_loop_sound n : forall i j2len best,
  alo <= i -> i + n <= ahi ->
  prev_ok a b b2j alo blo i j2len ->
  best_ok a b alo ahi blo bhi best ->
  best_ok a b alo ahi blo bhi (outer_loop a b2j blo bhi (seq i n) j2len best).
Proof.
  induction n as [|n IH]; intros i j2len best Hi Hn Hprev Hbest; simpl; [assumption|].
  destruct (inner_loop j2len i blo bhi (b2j_get b2j (item a i)) [] best)
    as [newj2len best'] eqn:E.
  destruct (@inner_loop_sound j2len i (b2j_get b2j (item a i)) Hi ltac:(lia) Hprev
              [] best) as [Hrow' Hbest'].
  - auto.
  - intros j k Hget. discriminate.
  - assumption.
  - rewrite E in Hrow', Hbest'. simpl in Hrow', Hbest'.
    apply IH; try lia; [|assumption].
    intros j k Hget. destruct (Hrow' _ _ Hget) as (Hk & _ & Hrun).
    replace (S i - 1) with i by lia. split; [lia | split; [lia | exact Hrun]].
Qed.

Lemma extend_back_sound junk : forall besti bestj bestsize,
  best_ok a b alo ahi blo bhi (besti, bestj, bestsize) ->
  best_ok a b alo ahi blo bhi (extend_back a b junk alo blo besti bestj bestsize).
Proof.
  induction besti as [|i' IH]; intros bestj bestsize Hbest; simpl; [assumption|].
  destruct bestj as [|j']; [assumption|].
  destruct (_ && _) eqn:Hcond; [|assumption].
  rewrite !andb_true_iff in Hcond. destruct Hcond as [[[Hi Hj] _] Heq].
  apply Nat.ltb_lt in Hi, Hj. apply Ascii.eqb_eq in Heq.
  destruct Hbest as (Ha & Ha' & Hb & Hb' & Hrun).
  apply IH. repeat split; try lia.
  intros t Ht. destruct t as [|t'].
  - now rewrite !Nat.add_0_r.
  - replace (i' + S t') with (S i' + t') by lia.
    replace (j' + S t') with (S j' + t') by lia.
    apply Hrun. lia.
Qed.

Lemma extend_fwd_sound junk room : forall besti bestj bestsize,
  best_ok a b alo ahi blo bhi (besti, bestj, bestsize) ->
  best_ok a b alo ahi blo bhi
    (besti, bestj, extend_fwd a b junk room ahi bhi besti bestj bestsize).
Proof.
  induction room as [|room IH]; intros besti bestj bestsize Hbest; simpl; [assumption|].
  destruct (_ && _) eqn:Hcond; [|assumption].
  rewrite !andb_true_iff in Hcond. destruct Hcond as [[[Hi Hj] _] Heq].
  apply Nat.ltb_lt in Hi, Hj. apply Ascii.eqb_eq in Heq.
  destruct Hbest as (Ha & Ha' & Hb & Hb' & Hrun).
  apply IH. repeat split; try lia.
  intros t Ht. destruct (Nat.eq_dec t bestsize) as [->|Hne]; [assumption|].
  apply Hrun. lia.
Qed.

(** The block [find_longest_match] returns lies inside the window and is a
    match. *)
Lemma find_longest_match_sound :
  alo <= ahi -> blo <= bhi ->
  best_ok a b alo ahi blo bhi (find_longest_match a b b2j alo ahi blo bhi).
Proof.
  intros Ha Hb. unfold find_longest_match.
  assert (H0 : best_ok a b alo ahi blo bhi
                 (outer_loop a b2j blo bhi (seq alo (ahi - alo)) [] (alo, blo, 0))).
  { apply outer_loop_sound; try lia.
    - intros j k Hget. discriminate.
    - unfold best_ok. repeat split; try lia. }
  destruct (outer_loop _ _ _ _ _ _ _) as [[besti1 bestj1] bestsize1].
  pose proof (extend_back_sound false H0) as H1.
  destruct (extend_back a b false alo blo besti1 bestj1 bestsize1)
    as [[besti2 bestj2] bestsize2].
  pose proof (extend_fwd_sound false (ahi - (besti2 + bestsize2)) H1) as H2.
  pose proof (extend_back_sound true H2) as H3.
  destruct (extend_back a b true alo blo besti2 bestj2 _)
    as [[besti4 bestj4] bestsize4].
  exact (extend_fwd_sound true (ahi - (besti4 + bestsize4)) H3).
Qed.

End FindLongestMatchSound.

(** *** [get_matching_blocks]: the blocks never count an element twice *)

Lemma seg_nil s lo : seg s lo lo = [].
Proof. unfold seg. now rewrite Nat.sub_diag. Qed.

Lemma firstn_plus (n m : nat) (l : list ascii) :
  firstn (n + m) l = firstn n l ++ firstn m (skipn n l).
Proof.
  revert l. induction n as [|n IH]; intros l; simpl; [reflexivity|].
  destruct l as [|x l]; simpl.
  - now rewrite firstn_nil.
  - now rewrite IH.
Qed.

Lemma seg_split s lo mid hi :
  lo <= mid -> mid <= hi -> seg s lo hi = seg s lo mid ++ seg s mid hi.
Proof.
  intros H1 H2. unfold seg.
  replace (hi - lo) with ((mid - lo) + (hi - mid)) by lia.
  rewrite firstn_plus, skipn_skipn.
  now replace (mid - lo + lo) with mid by lia.
Qed.

Lemma seg_length s lo hi : hi <= length s -> length (seg s lo hi) = hi - lo.
Proof.
  intros Hhi. unfold seg. rewrite length_firstn, length_skipn. lia.
Qed.

Lemma seg_item s lo hi t :
  hi <= length s -> t < hi - lo -> nth t (seg s lo hi) zero_char = item s (lo + t).
Proof.
  intros Hhi Ht. unfold seg, item.
  rewrite nth_firstn.
  destruct (Nat.ltb_spec t (hi - lo)); [|lia].
  now rewrite nth_skipn.
Qed.

Lemma seg_ext a b i j k :
  i + k <= length a -> j + k <= length b ->
  (forall t, t < k -> item a (i + t) = item b (j + t)) ->
  seg a i (i + k) = seg b j (j + k).
Proof.
  intros Ha Hb Heq.
  apply (nth_ext _ _ zero_char zero_char).
  - rewrite !seg_length by assumption. lia.
  - intros t Ht. rewrite seg_length in Ht by assumption.
    rewrite !seg_item by (assumption || lia). apply Heq. lia.
Qed.

Lemma seg_all s : seg s 0 (length s) = s.
Proof. unfold seg. simpl. rewrite Nat.sub_0_r. apply firstn_all. Qed.

Lemma sum_sizes_app l1 l2 : sum_sizes (l1 ++ l2) = sum_sizes l1 + sum_sizes l2.
Proof.
  unfold sum_sizes. induction l1 as [|x l1 IH]; simpl; [reflexivity|].
  rewrite IH. lia.
Qed.

Section QueueLoop.
Variables a b : list ascii.
Variable b2j : dict ascii (list nat).
Hypothesis b2j_sound :
  forall c j, In j (b2j_get b2j c) -> j < length b /\ item b j = c.

(** The loop ends before the fuel does. *)
Lemma queue_loop_total fuel : forall queue matching_blocks,
  Forall (window_ok (length a) (length b)) queue ->
  queue_measure queue <= fuel ->
  exists blocks, queue_loop a b b2j fuel queue matching_blocks = Some blocks.
Proof.
  induction fuel as [|fuel IH]; intros queue acc Hok Hm.
  - destruct queue as [|[[[alo ahi] blo] bhi] queue]; simpl in *; [eauto | lia].
  - destruct queue as [|[[[alo ahi] blo] bhi] queue]; simpl in *; [eauto|].
    inversion Hok as [|? ? Hw Hok']; subst.
    simpl in Hw. destruct Hw as (Ha & Ha' & Hb & Hb').
    pose proof (@find_longest_match_sound a b b2j b2j_sound alo ahi blo bhi Ha Hb)
      as Hbest.
    destruct (find_longest_match a b b2j alo ahi blo bhi) as [[i j] k].
    destruct Hbest as (Hi & Hik & Hj & Hjk & _).
    destruct (Nat.eqb_spec k 0) as [->|Hk]; [apply IH; [assumption | lia]|].
    apply IH.
    + destruct (_ && _), (_ && _); repeat constructor; auto; lia.
    + destruct (_ && _), (_ && _); simpl; lia.
Qed.

(** Twice the elements matched is at most the weight of the windows, and
    reaches it only when every window holds the same elements on both
    sides. *)
Lemma queue_loop_weight fuel : forall queue matching_blocks blocks,
  Forall (window_ok (length a) (length b)) queue ->
  queue_loop a b b2j fuel queue matching_blocks = Some blocks ->
  exists found,
    blocks = matching_blocks ++ found /\
    2 * sum_sizes found <= queue_weight queue /\
    (queue_weight queue <= 2 * sum_sizes found -> Forall (window_equal a b) queue).
Proof.
  induction fuel as [|fuel IH]; intros queue acc blocks Hok Hloop.
  - destruct queue as [|[[[alo ahi] blo] bhi] queue]; simpl in *; [|discriminate].
    inversion Hloop; subst. exists []. rewrite app_nil_r. simpl. auto.
  - destruct queue as [|[[[alo ahi] blo] bhi] queue]; simpl in Hloop.
    { inversion Hloop; subst. exists []. rewrite app_nil_r. simpl. auto. }
    inversion Hok as [|? ? Hw Hok']; subst.
    simpl in Hw. destruct Hw as (Ha & Ha' & Hb & Hb').
    pose proof (@find_longest_match_sound a b b2j b2j_sound alo ahi blo bhi Ha Hb)
      as Hbest.
    destruct (find_longest_match a b b2j alo ahi blo bhi) as [[i j] k].
    destruct Hbest as (Hi & Hik & Hj & Hjk & Hrun).
    destruct (Nat.eqb_spec k 0) as [Hk|Hk].
    + subst k. destruct (IH _ _ _ Hok' Hloop) as (found & -> & Hle & Heq).
      exists found. simpl. repeat split; [lia|].
      intros Hfull. constructor; [|apply Heq; lia].
      simpl. assert (ahi = alo) as -> by lia. assert (bhi = blo) as -> by lia.
      now rewrite !seg_nil.
    + set (q1 := if (alo <? i) && (blo <? j) then (alo, i, blo, j) :: queue else queue)
        in Hloop.
      set (q2 := if (i + k <? ahi) && (j + k <? bhi)
                 then (i + k, ahi, j + k, bhi) :: q1 else q1) in Hloop.
      assert (Hok2 : Forall (window_ok (length a) (length b)) q2).
      { subst q2 q1. destruct (_ && _), (_ && _); repeat constructor; auto; lia. }
      destruct (IH _ _ _ Hok2 Hloop) as (found & -> & Hle & Heq).
      exists ((i, j, k) :: found). rewrite <- app_assoc. simpl.
      split; [reflexivity|].
      assert (Hleft : (alo <? i) && (blo <? j) = false -> alo = i \/ blo = j).
      { rewrite andb_false_iff, !Nat.ltb_ge. lia. }
      assert (Hright : (i + k <? ahi) && (j + k <? bhi) = false ->
                       i + k = ahi \/ j + k = bhi).
      { rewrite andb_false_iff, !Nat.ltb_ge. lia. }
      assert (Hmid : seg a i (i + k) = seg b j (j + k)).
      { apply seg_ext; try lia. exact Hrun. }
      assert (Hw2 : queue_weight q2 =
                    (if (alo <? i) && (blo <? j) then (i - alo) + (j - blo) else 0) +
                    (if (i + k <? ahi) && (j + k <? bhi)
                     then (ahi - (i + k)) + (bhi - (j + k)) else 0) +
                    queue_weight queue).
      { subst q2 q1. destruct (_ && _), (_ && _); simpl; lia. }
      split.
      * rewrite Hw2 in Hle.
        destruct ((alo <? i) && (blo <? j)), ((i + k <? ahi) && (j + k <? bhi)); lia.
      * intros Hfull.
        assert (Hfull2 : queue_weight q2 <= 2 * sum_sizes found).
        { rewrite Hw2 in *.
          destruct ((alo <? i) && (blo <? j)) eqn:E1,
                   ((i + k <? ahi) && (j + k <? bhi)) eqn:E2;
            try specialize (Hleft eq_refl); try specialize (Hright eq_refl); lia. }
        specialize (Heq Hfull2).
        assert (Hparts :
                  ((alo <? i) && (blo <? j) = true -> seg a alo i = seg b blo j) /\
                  ((i + k <? ahi) && (j + k <? bhi) = true ->
                   seg a (i + k) ahi = seg b (j + k) bhi) /\
                  Forall (window_equal a b) queue).
        { subst q2 q1.
          destruct ((alo <? i) && (blo <? j)), ((i + k <? ahi) && (j + k <? bhi));
            repeat match goal with
                   | H : Forall _ (_ :: _) |- _ =>
                       let Hx := fresh "Hx" in
                       let Hy := fresh "Hy" in
                       inversion H as [|? ? Hx Hy]; subst; clear H; simpl in Hx
                   end; repeat split; auto; discriminate. }
        destruct Hparts as (Hq1 & Hq2 & Hq).
        assert (Hl : seg a alo i = seg b blo j).
        { destruct ((alo <? i) && (blo <? j)) eqn:E1; [now apply Hq1|].
          specialize (Hleft eq_refl). rewrite Hw2 in Hfull2, Hle.
          assert (alo = i /\ blo = j) as [-> ->].
          { destruct ((i + k <? ahi) && (j + k <? bhi)) eqn:E2;
              try specialize (Hright eq_refl); lia. }
          now rewrite !seg_nil. }
        assert (Hr : seg a (i + k) ahi = seg b (j + k) bhi).
        { destruct ((i + k <? ahi) && (j + k <? bhi)) eqn:E2; [now apply Hq2|].
          specialize (Hright eq_refl). rewrite Hw2 in Hfull2, Hle.
          assert (i + k = ahi /\ j + k = bhi) as [<- <-].
          { destruct ((alo <? i) && (blo <? j)) eqn:E1;
              try specialize (Hleft eq_refl); lia. }
          now rewrite !seg_nil. }
        constructor; [|exact Hq].
        simpl.
        rewrite (@seg_split a alo i ahi) by lia.
        rewrite (@seg_split a i (i + k) ahi) by lia.
        rewrite (@seg_split b blo j bhi) by lia.
        rewrite (@seg_split b j (j + k) bhi) by lia.
        now rewrite Hl, Hmid, Hr.
Qed.

End QueueLoop.

(** *** [find_longest_match] on two equal sequences *)

Section EqualSequences.
Variable s : list ascii.
Variable b2j : dict ascii (list nat).
Hypothesis b2j_sound :
  forall c j, In j (b2j_get b2j c) -> j < length s /\ item s j = c.
Hypothesis b2j_complete :
  forall c j j', In j (b2j_get b2j c) -> j' < length s -> item s j' = c ->
                 In j' (b2j_get b2j c).
Hypothesis b2j_sorted : forall c, StronglySorted lt (b2j_get b2j c).

Local Abbreviation n := (length s).

Lemma diag_run_of_cell i j k :
  i < n -> j < n -> run_ok s s b2j 0 0 i j k -> diag_run s b2j i k /\ diag_run s b2j j k.
Proof.
  intros Hi Hj (Ha & Hb & Hrun). split; (split; [lia|]); intros t Ht;
    destruct (Hrun t Ht) as [Heq Hin].
  - apply b2j_complete with (j := j - t); [now rewrite Heq | unfold n in *; lia | reflexivity].
  - exact Hin.
Qed.

Lemma diag_run_pred i k :
  1 <= i -> 2 <= k -> diag_run s b2j i k -> diag_run s b2j (i - 1) (k - 1).
Proof.
  intros Hi Hk [Hle Hrun]. split; [lia|].
  intros t Ht. replace (i - 1 - t) with (i - S t) by lia. apply Hrun. lia.
Qed.

Lemma inner_loop_diag prev i :
  i < n ->
  prev_ok s s b2j 0 0 i prev ->
  diag_prev s b2j i prev ->
  forall js newrow best,
  StronglySorted lt js ->
  (forall j, In j js -> In j (b2j_get b2j (item s i))) ->
  diag_best s b2j i best ->
  (In i (b2j_get b2j (item s i)) -> ~ In i js ->
   diag_cell s b2j i newrow (snd best)) ->
  diag_best s b2j i (snd (inner_loop prev i 0 n js newrow best)) /\
  (In i (b2j_get b2j (item s i)) ->
   diag_cell s b2j i (fst (inner_loop prev i 0 n js newrow best))
     (snd (snd (inner_loop prev i 0 n js newrow best)))).
Proof.
  intros Hi Hprev Hdprev. induction js as [|j js IH];
    intros newrow best Hsorted Hjs Hbest Hcell; simpl.
  { split; [assumption|]. intros Hin. apply Hcell; auto. }
  assert (Hj : In j (b2j_get b2j (item s i))) by (apply Hjs; now left).
  destruct (b2j_sound _ _ Hj) as [Hjn _]. fold n in Hjn.
  destruct (Nat.leb_spec n j) as [Hge|_]; [lia|].
  inversion Hsorted as [|? ? Hsorted' Hall]; subst.
  rewrite Forall_forall in Hall.
  destruct best as [[besti bestj] bestsize].
  set (k := j2lenget_pred prev j + 1).
  assert (Hrun : run_ok s s b2j 0 0 i j k).
  { apply run_ok_cell; auto; lia. }
  destruct (diag_run_of_cell Hi Hjn Hrun) as [Hdi Hdj].
  assert (Hii : In i (b2j_get b2j (item s i))).
  { apply b2j_complete with (j := j); auto. }
  destruct Hbest as [Hdiag Hrows].
  destruct (Nat.eq_dec j i) as [->|Hne].
  - (* the diagonal cell *)
    assert (Hk : forall k0, diag_run s b2j i k0 -> k0 <= k).
    { intros k0 Hk0. destruct (Nat.le_gt_cases k0 1) as [|Hk2]; [subst k; lia|].
      destruct i as [|i']; [destruct Hk0; lia|].
      destruct (Hdprev (k0 - 1)) as (k' & Hget & Hle); try lia.
      { apply diag_run_pred; auto; lia. }
      subst k. simpl in Hget |- *. rewrite Nat.sub_0_r in Hget. rewrite Hget. lia. }
    apply IH; auto.
    + intros j Hj'. apply Hjs. now right.
    + unfold diag_best. destruct (Nat.ltb_spec bestsize k); simpl; split; auto; try lia.
      intros r k0 Hr Hk0. specialize (Hrows r k0 Hr Hk0). lia.
    + intros _ _ k0 Hk0. specialize (Hk k0 Hk0). split.
      * destruct (Nat.ltb_spec bestsize k); simpl; lia.
      * intros _. exists k. now rewrite dict_get_set_same.
  - (* a cell off the diagonal never beats the best *)
    assert (Hle : k <= bestsize).
    { destruct (Nat.lt_ge_cases j i) as [Hlt|Hgt].
      - now apply (Hrows j).
      - refine (proj1 (Hcell Hii _ k Hdi)).
        intros [Heq|Hin]; [lia|]. specialize (Hall _ Hin). lia. }
    destruct (Nat.ltb_spec bestsize k) as [|_]; [lia|].
    apply IH; auto.
    + intros j' Hj'. apply Hjs. now right.
    + now split.
    + intros _ Hnotin k0 Hk0.
      destruct (Hcell Hii) with (k := k0) as [Hb Hex]; auto.
      { intros [Heq|Hin]; [congruence | contradiction]. }
      split; [exact Hb|]. intros H1. destruct (Hex H1) as (k' & Hget & Hk').
      exists k'. rewrite dict_get_set_other by assumption. auto.
Qed.

Lemma outer_loop_diag m : forall i j2len best,
  i + m = n ->
  prev_ok s s b2j 0 0 i j2len ->
  diag_prev s b2j i j2len ->
  diag_best s b2j i best ->
  let '(besti, bestj, _) := outer_loop s b2j 0 n (seq i m) j2len best in
  besti = bestj.
Proof.
  induction m as [|m IH]; intros i j2len best Hm Hprev Hdprev Hbest; simpl.
  { destruct best as [[besti bestj] bestsize]. apply Hbest. }
  assert (Hi : i < n) by lia.
  destruct (@inner_loop_sound s s b2j b2j_sound 0 n 0 n j2len i
              (b2j_get b2j (item s i)) ltac:(lia) Hi Hprev [] (0, 0, 0))
    as [Hrow _]; auto.
  { intros j k Hget. discriminate. }
  { unfold best_ok. repeat split; lia. }
  destruct (@inner_loop_diag j2len i Hi Hprev Hdprev (b2j_get b2j (item s i)) [] best)
    as [Hbest' Hcell']; auto.
  { intros Hin Hnotin. contradiction. }
  assert (Hfst : forall best1 best2 js newrow,
             fst (inner_loop j2len i 0 n js newrow best1) =
             fst (inner_loop j2len i 0 n js newrow best2)).
  { intros best1 best2 js. revert best1 best2.
    induction js as [|j js IHjs]; intros best1 best2 newrow; simpl; [reflexivity|].
    destruct (n <=? j); [reflexivity|].
    destruct best1 as [[? ?] ?], best2 as [[? ?] ?]. apply IHjs. }
  rewrite (Hfst (0, 0, 0) best) in Hrow.
  destruct (inner_loop j2len i 0 n (b2j_get b2j (item s i)) [] best)
    as [newj2len best'] eqn:E.
  simpl in Hrow, Hbest', Hcell'.
  assert (Hcell : forall k, 1 <= k -> diag_run s b2j i k ->
                    k <= snd best' /\ exists k', dict_get newj2len i = Some k' /\ k <= k').
  { intros k Hk Hrun. destruct Hrun as [Hle Hin].
    assert (Hii : In i (b2j_get b2j (item s i))).
    { specialize (Hin 0 ltac:(lia)). now rewrite Nat.sub_0_r in Hin. }
    destruct (Hcell' Hii k) as [Hb Hex]; [now split|]. split; auto. }
  apply IH; try lia.
  - intros j k Hget. destruct (Hrow _ _ Hget) as (Hk & _ & Hrun).
    replace (S i - 1) with i by lia. split; [lia | split; [lia | exact Hrun]].
  - intros k _ Hk Hrun. replace (S i - 1) with i in * by lia.
    now apply Hcell.
  - destruct best' as [[besti' bestj'] bestsize']. destruct Hbest' as [Hd Hrows].
    split; [assumption|]. intros r k Hr Hrun.
    destruct (Nat.eq_dec r i) as [->|Hne]; [|apply (Hrows r); [lia | assumption]].
    destruct (Nat.eq_dec k 0) as [->|Hk0]; [lia|].
    apply (Hcell k); [lia | assumption].
Qed.

Lemma extend_back_diag junk : forall d size,
  extend_back s s junk 0 0 d d size =
  if junk then (d, d, size) else (0, 0, size + d).
Proof.
  induction d as [|d IH]; intros size; simpl.
  - destruct junk; [reflexivity | now rewrite Nat.add_0_r].
  - unfold isbjunk. destruct junk; simpl; [reflexivity|].
    rewrite Ascii.eqb_refl. simpl. rewrite IH. f_equal. lia.
Qed.

Lemma extend_fwd_diag junk room : forall size,
  size + room = n ->
  extend_fwd s s junk room n n 0 0 size = if junk then size else n.
Proof.
  induction room as [|room IH]; intros size Hsz; simpl.
  - destruct junk; [reflexivity | lia].
  - unfold isbjunk. destruct (Nat.ltb_spec size n) as [_|]; [|lia].
    destruct junk; simpl; [reflexivity|].
    rewrite Ascii.eqb_refl. simpl. rewrite IH by lia. reflexivity.
Qed.

(** On two equal sequences the longest match is the whole of them. *)
Lemma find_longest_match_same : find_longest_match s s b2j 0 n 0 n = (0, 0, n).
Proof.
  unfold find_longest_match.
  pose proof (@outer_loop_diag (n - 0) 0 [] (0, 0, 0)) as Hdiag.
  pose proof (@outer_loop_sound s s b2j b2j_sound 0 n 0 n (n - 0) 0 [] (0, 0, 0)) as Hok.
  destruct (outer_loop s b2j 0 n (seq 0 (n - 0)) [] (0, 0, 0))
    as [[besti1 bestj1] bestsize1].
  assert (besti1 = bestj1) as <-.
  { apply Hdiag; try lia.
    - intros j k Hget. discriminate.
    - intros k Hi. lia.
    - split; [reflexivity|]. intros r k Hr. lia. }
  destruct Hok as (_ & Hle & _); try lia.
  { intros j k Hget. discriminate. }
  { unfold best_ok. repeat split; lia. }
  rewrite (extend_back_diag false). 
  rewrite (@extend_fwd_diag false) by lia.
  rewrite (extend_back_diag true).
  replace (n - (0 + n)) with 0 by lia. reflexivity.
Qed.

End EqualSequences.

(** *** The number of matches and the three ratios *)

Lemma sum_sizes_insert_sorted x l :
  sum_sizes (insert_sorted x l) = snd x + sum_sizes l.
Proof.
  induction l as [|y l IH]; simpl; [reflexivity|].
  destruct (match_leb x y); simpl; [reflexivity|].
  fold (sum_sizes (insert_sorted x l)). rewrite IH. fold (sum_sizes l). lia.
Qed.

Lemma sum_sizes_sort_blocks l : sum_sizes (sort_blocks l) = sum_sizes l.
Proof.
  induction l as [|x l IH]; simpl; [reflexivity|].
  rewrite sum_sizes_insert_sorted, IH. reflexivity.
Qed.

Lemma sum_sizes_collapse blocks : forall i1 j1 k1 non_adjacent,
  sum_sizes (collapse blocks i1 j1 k1 non_adjacent) =
  sum_sizes non_adjacent + k1 + sum_sizes blocks.
Proof.
  induction blocks as [|[[i2 j2] k2] blocks IH]; intros i1 j1 k1 acc; simpl.
  - destruct (Nat.eqb_spec k1 0) as [->|_]; [lia|].
    rewrite sum_sizes_app. simpl. lia.
  - fold (sum_sizes blocks).
    destruct (_ && _); rewrite IH; [lia|].
    destruct (Nat.eqb_spec k1 0) as [->|_]; [lia|].
    rewrite sum_sizes_app. simpl. lia.
Qed.

(** Sorting the blocks, merging the adjacent ones and closing the list with
    the dummy block leave the number of matches as the queue loop found it. *)
Lemma sum_sizes_get_matching_blocks a b :
  sum_sizes (get_matching_blocks a b) = sum_sizes (raw_blocks a b).
Proof.
  unfold get_matching_blocks.
  rewrite sum_sizes_app, sum_sizes_collapse, sum_sizes_sort_blocks. simpl. lia.
Qed.

(** The queue loop of [get_matching_blocks] ends within its fuel. *)
Lemma raw_blocks_total a b :
  exists blocks,
    queue_loop a b (__chain_b b) (2 * length a + 1) [(0, length a, 0, length b)] []
    = Some blocks.
Proof.
  apply queue_loop_total.
  - apply chain_b_sound.
  - repeat constructor; lia.
  - simpl. lia.
Qed.

(** Twice the matches never exceed the two lengths together, and reach them
    only on equal sequences. *)
Lemma raw_blocks_bound a b :
  2 * sum_sizes (raw_blocks a b) <= length a + length b /\
  (length a + length b <= 2 * sum_sizes (raw_blocks a b) -> a = b).
Proof.
  unfold raw_blocks. destruct (raw_blocks_total a b) as [blocks Hloop].
  rewrite Hloop.
  assert (Hok : Forall (window_ok (length a) (length b))
                  [(0, length a, 0, length b)]) by (repeat constructor; lia).
  destruct (@queue_loop_weight a b (__chain_b b) (@chain_b_sound b) _ _ _ _
              Hok Hloop) as (found & -> & Hle & Heq).
  simpl in Hle, Heq |- *. rewrite !Nat.sub_0_r, Nat.add_0_r in *.
  split; [lia|]. intros Hfull.
  specialize (Heq ltac:(lia)). inversion Heq as [|? ? Hseg _]. simpl in Hseg.
  now rewrite !seg_all in Hseg.
Qed.

Lemma queue_loop_nil a b b2j fuel matching_blocks :
  queue_loop a b b2j fuel [] matching_blocks = Some matching_blocks.
Proof. now destruct fuel. Qed.

(** On equal sequences every element is matched. *)
Lemma raw_blocks_same s : sum_sizes (raw_blocks s s) = length s.
Proof.
  unfold raw_blocks. replace (2 * length s + 1) with (S (2 * length s)) by lia.
  simpl queue_loop.
  rewrite (@find_longest_match_same s (__chain_b s) (@chain_b_sound s)
             (@chain_b_complete s) (@chain_b_sorted s)).
  destruct (Nat.eqb_spec (length s) 0) as [E|E].
  - rewrite queue_loop_nil. simpl. lia.
  - rewrite !Nat.add_0_l, !Nat.ltb_irrefl. simpl.
    rewrite queue_loop_nil. simpl. lia.
Qed.

Lemma Zpos_of_nat n : n <> 0 -> Z.pos (Pos.of_nat n) = Z.of_nat n.
Proof.
  intros Hn. destruct n as [|n]; [contradiction|].
  rewrite <- Pos.of_nat_succ, Zpos_P_of_succ_nat. lia.
Qed.

Lemma calculate_ratio_le_1 m len : 2 * m <= len -> (_calculate_ratio m len <= 1)%Q.
Proof.
  intros Hle. unfold _calculate_ratio.
  destruct (Nat.eqb_spec len 0) as [_|Hlen]; [apply Qle_refl|].
  unfold Qle. cbn [Qnum Qden]. rewrite Zpos_of_nat by assumption. lia.
Qed.

Lemma calculate_ratio_ge_1 m len : (1 <= _calculate_ratio m len)%Q -> len <= 2 * m.
Proof.
  unfold _calculate_ratio.
  destruct (Nat.eqb_spec len 0) as [->|Hlen]; [lia|].
  unfold Qle. cbn [Qnum Qden]. rewrite Zpos_of_nat by assumption. lia.
Qed.

Lemma calculate_ratio_full m : (_calculate_ratio m (m + m) == 1)%Q.
Proof.
  unfold _calculate_ratio.
  destruct (Nat.eqb_spec (m + m) 0) as [_|Hlen]; [reflexivity|].
  unfold Qeq. cbn [Qnum Qden]. rewrite Zpos_of_nat by assumption. lia.
Qed.

Lemma calculate_ratio_lt m len (cutoff : Q) :
  len <> 0 ->
  (cutoff <= _calculate_ratio m len)%Q <->
  (Qnum cutoff * Z.of_nat len <= 2 * Z.of_nat m * Z.pos (Qden cutoff))%Z.
Proof.
  intros Hlen. unfold _calculate_ratio.
  destruct (Nat.eqb_spec len 0) as [|_]; [contradiction|].
  unfold Qle. cbn [Qnum Qden]. now rewrite Zpos_of_nat by assumption.
Qed.

Lemma length_list_ascii_of_string s :
  length (list_ascii_of_string s) = String.length s.
Proof. induction s as [|c s IH]; simpl; congruence. Qed.

Lemma list_ascii_of_string_inj s1 s2 :
  list_ascii_of_string s1 = list_ascii_of_string s2 -> s1 = s2.
Proof.
  intros Heq. rewrite <- (string_of_list_ascii_of_string s1),
                      <- (string_of_list_ascii_of_string s2). now rewrite Heq.
Qed.

(** [ratio()] is at most 1. *)
Lemma ratio_le_1 a b : (ratio a b <= 1)%Q.
Proof.
  unfold ratio. apply calculate_ratio_le_1.
  rewrite sum_sizes_get_matching_blocks. apply raw_blocks_bound.
Qed.

(** [ratio()] is 1 only on equal strings. *)
Lemma ratio_ge_1_eq a b : (1 <= ratio a b)%Q -> a = b.
Proof.
  unfold ratio. intros H1. apply calculate_ratio_ge_1 in H1.
  rewrite sum_sizes_get_matching_blocks in H1.
  apply list_ascii_of_string_inj. now apply raw_blocks_bound.
Qed.

(** Identical strings have similarity 1. *)
Lemma ratio_same s : (ratio s s == 1)%Q.
Proof.
  unfold ratio. rewrite sum_sizes_get_matching_blocks, raw_blocks_same.
  apply calculate_ratio_full.
Qed.

Lemma real_quick_ratio_same s : (real_quick_ratio s s == 1)%Q.
Proof.
  unfold real_quick_ratio. rewrite Nat.min_id. apply calculate_ratio_full.
Qed.

Lemma fullbcount_of_get b : forall d c,
  count_get (fullbcount_of b d) c =
  (count_get d c + Z.of_nat (count_occ ascii_dec b c))%Z.
Proof.
  induction b as [|x b IH]; intros d c; simpl; [lia|].
  rewrite IH. unfold count_get at 1.
  destruct (ascii_dec x c) as [->|Hne].
  - rewrite dict_get_set_same. fold (count_get d c). lia.
  - rewrite dict_get_set_other by assumption. fold (count_get d c). lia.
Qed.

Lemma quick_loop_all fullbcount a : forall avail matches,
  (forall c, (Z.of_nat (count_occ ascii_dec a c) <= avail_get fullbcount avail c)%Z) ->
  quick_loop fullbcount a avail matches = matches + length a.
Proof.
  induction a as [|x a IH]; intros avail matches Hav; simpl; [lia|].
  fold (count_get fullbcount x). fold (avail_get fullbcount avail x).
  pose proof (Hav x) as Hx. simpl in Hx.
  destruct (ascii_dec x x) as [_|]; [|contradiction].
  destruct (Z.ltb_spec 0 (avail_get fullbcount avail x)) as [_|]; [|lia].
  rewrite IH; [lia|].
  intros c. specialize (Hav c). simpl in Hav. unfold avail_get at 1.
  destruct (ascii_dec x c) as [->|Hne].
  - rewrite dict_get_set_same. lia.
  - rewrite dict_get_set_other by assumption. exact Hav.
Qed.

Lemma quick_ratio_same s : (quick_ratio s s == 1)%Q.
Proof.
  unfold quick_ratio. rewrite quick_loop_all.
  - apply calculate_ratio_full.
  - intros c. unfold avail_get. simpl. rewrite fullbcount_of_get.
    unfold count_get. simpl. lia.
Qed.

(** *** [get_close_matches] *)

Lemma scored_In word possibilities cutoff r x :
  In (r, x) (scored word possibilities cutoff) ->
  In x possibilities /\ r = ratio x word /\ (cutoff <= r)%Q.
Proof.
  induction possibilities as [|y rest IH]; simpl; [tauto|].
  destruct (_ && _) eqn:Hcond.
  - intros [Heq|Hin].
    + inversion Heq; subst. rewrite !andb_true_iff in Hcond.
      destruct Hcond as [_ Hr]. apply Qle_bool_iff in Hr. auto.
    + destruct (IH Hin) as (? & ? & ?). auto.
  - intros Hin. destruct (IH Hin) as (? & ? & ?). auto.
Qed.

Lemma py_max_In first rest : In (py_max first rest) (first :: rest).
Proof.
  unfold py_max. revert first. induction rest as [|item rest IH]; intros first; simpl.
  - now left.
  - destruct (IH (if tuple_gt item first then item else first)) as [Heq|Hin].
    + rewrite <- Heq. destruct (tuple_gt item first); auto.
    + auto.
Qed.

(** What [get_close_matches] with [n=1] returns: nothing, or one of the
    possibilities whose ratio reaches the cut-off. *)
Lemma get_close_matches_cases word possibilities cutoff :
  get_close_matches word possibilities cutoff = [] \/
  exists x, get_close_matches word possibilities cutoff = [x] /\
            In x possibilities /\ (cutoff <= ratio x word)%Q.
Proof.
  unfold get_close_matches, nlargest1.
  destruct (scored word possibilities cutoff) as [|first rest] eqn:E; [now left|].
  right. pose proof (py_max_In first rest) as Hin. rewrite <- E in Hin.
  destruct (py_max first rest) as [r x]. exists x. simpl.
  apply scored_In in Hin. destruct Hin as (Hx & -> & Hr). auto.
Qed.

(** No possibility reaches the cut-off: no match. *)
Lemma get_close_matches_none word possibilities cutoff :
  (forall x, In x possibilities -> (ratio x word < cutoff)%Q) ->
  get_close_matches word possibilities cutoff = [].
Proof.
  intros Hall.
  destruct (get_close_matches_cases word possibilities cutoff)
    as [Hnil | (x & _ & Hin & Hr)]; [assumption|].
  exfalso. exact (Qlt_not_le _ _ (Hall x Hin) Hr).
Qed.

Lemma str_gt_irrefl s : Py.str_gt s s = false.
Proof.
  unfold Py.str_gt. pose proof (String.compare_antisym s s) as H.
  destruct (String.compare s s); simpl in H; congruence.
Qed.

(** The best of the scored candidates is the word itself whenever it is one
    of them: no other string reaches its score. *)
Lemma py_max_word word : forall rest first,
  Forall (fun t => t = (ratio (snd t) word, snd t)) (first :: rest) ->
  snd first = word \/ In word (map snd rest) ->
  snd (py_max first rest) = word.
Proof.
  unfold py_max. induction rest as [|item rest IH]; intros first Hall Hword; simpl.
  - destruct Hword as [|[]]; assumption.
  - inversion Hall as [|? ? Hfirst Hall']; subst.
    inversion Hall' as [|? ? Hitem Hrest]; subst.
    apply IH.
    + constructor; [|assumption]. now destruct (tuple_gt item first).
    + destruct first as [r1 x1], item as [r2 x2]. simpl in *.
      inversion Hfirst as [Hr1]. inversion Hitem as [Hr2].
      rewrite <- Hr1, <- Hr2. clear Hfirst Hitem.
      unfold tuple_gt. simpl.
      destruct Hword as [Hx1 | [Hx2 | Hin]]; [| |now right]; left.
      * (* the best so far is the word: nothing replaces it *)
        subst x1.
        assert (H1 : (r1 == 1)%Q) by (rewrite Hr1; apply ratio_same).
        assert (H2 : (r2 <= 1)%Q) by (rewrite Hr2; apply ratio_le_1).
        destruct (Qeq_bool r2 r1) eqn:Eq.
        -- apply Qeq_bool_iff in Eq.
           assert (x2 = word) as ->.
           { apply ratio_ge_1_eq. rewrite <- Hr2, Eq, H1. apply Qle_refl. }
           now rewrite str_gt_irrefl.
        -- assert (Hle : Qle_bool r2 r1 = true).
           { apply Qle_bool_iff. now rewrite H1. }
           now rewrite Hle.
      * (* the word comes now: it stays or takes the place *)
        subst x2.
        assert (H2 : (r2 == 1)%Q) by (rewrite Hr2; apply ratio_same).
        destruct (Qeq_bool r2 r1) eqn:Eq.
        -- apply Qeq_bool_iff in Eq.
           assert (x1 = word) as ->.
           { apply ratio_ge_1_eq. rewrite <- Hr1, <- Eq, H2. apply Qle_refl. }
           now destruct (Py.str_gt word word).
        -- destruct (Qle_bool r2 r1) eqn:Hle; simpl; [|reflexivity].
           apply Qle_bool_iff in Hle.
           apply ratio_ge_1_eq. rewrite <- Hr1, <- H2. exact Hle.
Qed.

Lemma scored_shape word possibilities cutoff :
  Forall (fun t => t = (ratio (snd t) word, snd t)) (scored word possibilities cutoff).
Proof.
  induction possibilities as [|x rest IH]; simpl; [constructor|].
  destruct (_ && _); [constructor; [reflexivity | assumption] | assumption].
Qed.

Lemma scored_word word possibilities cutoff :
  (cutoff <= 1)%Q -> In word possibilities ->
  In word (map snd (scored word possibilities cutoff)).
Proof.
  intros Hc. induction possibilities as [|x rest IH]; simpl; [tauto|].
  intros [->|Hin].
  - assert (Hcond : Qle_bool cutoff (real_quick_ratio word word)
                    && Qle_bool cutoff (quick_ratio word word)
                    && Qle_bool cutoff (ratio word word) = true).
    { rewrite !andb_true_iff. repeat split; apply Qle_bool_iff.
      - now rewrite real_quick_ratio_same.
      - now rewrite quick_ratio_same.
      - now rewrite ratio_same. }
    rewrite Hcond. now left.
  - destruct (_ && _); [right|]; auto.
Qed.

(** A word that is among the possibilities is the match, whatever else is
    there: identical strings have ratio 1, no other pair has. *)
Lemma get_close_matches_exact word possibilities cutoff :
  (cutoff <= 1)%Q -> In word possibilities ->
  get_close_matches word possibilities cutoff = [word].
Proof.
  intros Hc Hin. unfold get_close_matches, nlargest1.
  pose proof (scored_shape word possibilities cutoff) as Hshape.
  pose proof (@scored_word word possibilities cutoff Hc Hin) as Hword.
  destruct (scored word possibilities cutoff) as [|first rest]; [contradiction|].
  simpl. f_equal. apply py_max_word; [assumption|].
  simpl in Hword. destruct Hword; auto.
Qed.

End DifflibFacts.

(* ===================================================================== *)
(** ** difflib: the quick ratios bound the ratio *)
(* ===================================================================== *)

Module DifflibBounds.
Import Difflib DifflibSpec DifflibFacts Common.

Lemma sum_over_zero l : sum_over (fun _ => 0) l = 0.
Proof. induction l as [|c l IH]; simpl; [reflexivity | exact IH]. Qed.

Lemma sum_over_le f g l : (forall c, f c <= g c) -> sum_over f l <= sum_over g l.
Proof.
  intros Hle. induction l as [|c l IH]; simpl; [lia|]. specialize (Hle c). lia.
Qed.

Lemma sum_over_ext f g l : (forall c, f c = g c) -> sum_over f l = sum_over g l.
Proof.
  intros Heq. induction l as [|c l IH]; simpl; [reflexivity|]. now rewrite Heq, IH.
Qed.

Lemma sum_over_add f g l :
  sum_over (fun c => f c + g c) l = sum_over f l + sum_over g l.
Proof. induction l as [|c l IH]; simpl; [reflexivity|]. rewrite IH. lia. Qed.

(** Every character is in [all_ascii] once. *)
Lemma sum_over_indicator x :
  sum_over (fun c => if ascii_dec x c then 1 else 0) all_ascii = 1.
Proof. destruct x as [[] [] [] [] [] [] [] []]; vm_compute; reflexivity. Qed.

Lemma sum_over_point f g x d l :
  (forall c, f c = g c + (if ascii_dec x c then d else 0)) ->
  sum_over f l = sum_over g l + d * sum_over (fun c => if ascii_dec x c then 1 else 0) l.
Proof.
  intros Hfg. induction l as [|c l IH]; simpl; [lia|].
  rewrite IH, Hfg. destruct (ascii_dec x c); lia.
Qed.

Lemma sum_over_count m : sum_over (count_occ ascii_dec m) all_ascii = length m.
Proof.
  induction m as [|x m IH]; simpl length.
  - apply sum_over_zero.
  - rewrite (@sum_over_point _ (count_occ ascii_dec m) x 1).
    + rewrite IH, sum_over_indicator. lia.
    + intros c. simpl. destruct (ascii_dec x c); lia.
Qed.

Lemma common_le_l x y : common x y <= length x.
Proof.
  unfold common. rewrite <- (sum_over_count x). apply sum_over_le. intros c. lia.
Qed.

Lemma common_le_r x y : common x y <= length y.
Proof.
  unfold common. rewrite <- (sum_over_count y). apply sum_over_le. intros c. lia.
Qed.

(** Two sequences that share a middle part have in common at least that
    part and what their two sides have in common. *)
Lemma common_around x1 x2 y1 y2 m :
  common x1 y1 + length m + common x2 y2 <= common (x1 ++ m ++ x2) (y1 ++ m ++ y2).
Proof.
  unfold common. rewrite <- (sum_over_count m), <- !sum_over_add.
  apply sum_over_le. intros c. rewrite !count_occ_app. lia.
Qed.

(** [quick_ratio] counts the elements in common. *)
Lemma quick_loop_common fullbcount a : forall avail matches,
  quick_loop fullbcount a avail matches =
  matches + sum_over (fun c => Nat.min (count_occ ascii_dec a c)
                                 (Z.to_nat (avail_get fullbcount avail c))) all_ascii.
Proof.
  induction a as [|x a IH]; intros avail matches; simpl quick_loop.
  - rewrite (@sum_over_ext _ (fun _ => 0)); [rewrite sum_over_zero; lia|].
    intros c. reflexivity.
  - fold (count_get fullbcount x). fold (avail_get fullbcount avail x).
    rewrite IH.
    assert (Hother : forall c, x <> c ->
              avail_get fullbcount
                (dict_set avail x (avail_get fullbcount avail x - 1)%Z) c =
              avail_get fullbcount avail c).
    { intros c Hne. unfold avail_get at 1. rewrite dict_get_set_other by assumption.
      reflexivity. }
    assert (Hsame : avail_get fullbcount
                      (dict_set avail x (avail_get fullbcount avail x - 1)%Z) x =
                    (avail_get fullbcount avail x - 1)%Z).
    { unfold avail_get at 1. now rewrite dict_get_set_same. }
    destruct (Z.ltb_spec 0 (avail_get fullbcount avail x)) as [Hpos|Hneg].
    + rewrite (@sum_over_point
                 (fun c => Nat.min (count_occ ascii_dec (x :: a) c)
                             (Z.to_nat (avail_get fullbcount avail c)))
                 (fun c => Nat.min (count_occ ascii_dec a c)
                             (Z.to_nat (avail_get fullbcount
                                (dict_set avail x (avail_get fullbcount avail x - 1)%Z) c)))
                 x 1).
      * rewrite sum_over_indicator. lia.
      * intros c. simpl. destruct (ascii_dec x c) as [<-|Hne].
        -- rewrite Hsame. lia.
        -- rewrite Hother by assumption. lia.
    + f_equal. apply sum_over_ext. intros c. simpl.
      destruct (ascii_dec x c) as [<-|Hne].
      * rewrite Hsame. lia.
      * now rewrite Hother.
Qed.

Lemma quick_matches_common a b :
  quick_loop (fullbcount_of b []) a [] 0 = common a b.
Proof.
  rewrite quick_loop_common, Nat.add_0_l. unfold common. apply sum_over_ext. intros c.
  unfold avail_get. simpl. rewrite fullbcount_of_get. unfold count_get. simpl.
  now rewrite Nat2Z.id.
Qed.

Section QueueCommon.
Variables a b : list ascii.
Variable b2j : dict ascii (list nat).
Hypothesis b2j_sound :
  forall c j, In j (b2j_get b2j c) -> j < length b /\ item b j = c.

(** The blocks found match no more elements than the windows have in
    common. *)
Lemma queue_loop_common fuel : forall queue matching_blocks blocks,
  Forall (window_ok (length a) (length b)) queue ->
  queue_loop a b b2j fuel queue matching_blocks = Some blocks ->
  exists found,
    blocks = matching_blocks ++ found /\ sum_sizes found <= queue_common a b queue.
Proof.
  induction fuel as [|fuel IH]; intros queue acc blocks Hok Hloop.
  - destruct queue as [|[[[alo ahi] blo] bhi] queue]; simpl in *; [|discriminate].
    inversion Hloop; subst. exists []. rewrite app_nil_r. simpl. auto.
  - destruct queue as [|[[[alo ahi] blo] bhi] queue]; simpl in Hloop.
    { inversion Hloop; subst. exists []. rewrite app_nil_r. simpl. auto. }
    inversion Hok as [|? ? Hw Hok']; subst.
    simpl in Hw. destruct Hw as (Ha & Ha' & Hb & Hb').
    pose proof (@find_longest_match_sound a b b2j b2j_sound alo ahi blo bhi Ha Hb)
      as Hbest.
    destruct (find_longest_match a b b2j alo ahi blo bhi) as [[i j] k].
    destruct Hbest as (Hi & Hik & Hj & Hjk & Hrun).
    destruct (Nat.eqb_spec k 0) as [Hk|Hk].
    + destruct (IH _ _ _ Hok' Hloop) as (found & -> & Hle).
      exists found. split; [reflexivity|]. simpl. lia.
    + assert (Hmid : seg a i (i + k) = seg b j (j + k)) by (apply seg_ext; try lia; exact Hrun).
      assert (Hwhole :
                common (seg a alo i) (seg b blo j) + k
                + common (seg a (i + k) ahi) (seg b (j + k) bhi)
                <= common (seg a alo ahi) (seg b blo bhi)).
      { rewrite (@seg_split a alo i ahi) by lia.
        rewrite (@seg_split a i (i + k) ahi) by lia.
        rewrite (@seg_split b blo j bhi) by lia.
        rewrite (@seg_split b j (j + k) bhi) by lia.
        rewrite Hmid.
        replace k with (length (seg b j (j + k))) at 1
          by (rewrite seg_length; lia).
        apply common_around. }
      match type of Hloop with
      | queue_loop _ _ _ _ ?q2 _ = _ =>
          assert (Hok2 : Forall (window_ok (length a) (length b)) q2);
          [|assert (Hc2 : queue_common a b q2 <=
                          common (seg a alo i) (seg b blo j)
                          + common (seg a (i + k) ahi) (seg b (j + k) bhi)
                          + queue_common a b queue)]
      end.
      { destruct (_ && _), (_ && _); repeat constructor; auto; lia. }
      { destruct (_ && _), (_ && _); simpl; lia. }
      destruct (IH _ _ _ Hok2 Hloop) as (found & -> & Hle).
      exists ((i, j, k) :: found). rewrite <- app_assoc. split; [reflexivity|].
      simpl. fold (sum_sizes found). lia.
Qed.

End QueueCommon.

(** The matches of [ratio()] are among the elements in common. *)
Lemma raw_blocks_common a b : sum_sizes (raw_blocks a b) <= common a b.
Proof.
  unfold raw_blocks. destruct (raw_blocks_total a b) as [blocks Hloop].
  rewrite Hloop.
  assert (Hok : Forall (window_ok (length a) (length b))
                  [(0, length a, 0, length b)]) by (repeat constructor; lia).
  destruct (@queue_loop_common a b (__chain_b b) (@chain_b_sound b) _ _ _ _
              Hok Hloop) as (found & -> & Hle).
  simpl in Hle |- *. now rewrite !seg_all, Nat.add_0_r in Hle.
Qed.

Lemma calculate_ratio_mono m1 m2 len :
  m1 <= m2 -> (_calculate_ratio m1 len <= _calculate_ratio m2 len)%Q.
Proof.
  intros Hle. unfold _calculate_ratio.
  destruct (Nat.eqb_spec len 0) as [_|Hlen]; [apply Qle_refl|].
  unfold Qle. cbn [Qnum Qden]. nia.
Qed.

Lemma calculate_ratio_nonneg m len : (0 <= _calculate_ratio m len)%Q.
Proof.
  unfold _calculate_ratio.
  destruct (Nat.eqb_spec len 0) as [_|Hlen]; [unfold Qle; simpl; lia|].
  unfold Qle. cbn [Qnum Qden]. lia.
Qed.

(** [quick_ratio()] is an upper bound of [ratio()]. *)
Lemma ratio_le_quick a b : (ratio a b <= quick_ratio a b)%Q.
Proof.
  unfold ratio, quick_ratio. apply calculate_ratio_mono.
  rewrite sum_sizes_get_matching_blocks, quick_matches_common.
  apply raw_blocks_common.
Qed.

(** [real_quick_ratio()] is an upper bound of [quick_ratio()]. *)
Lemma quick_le_real_quick a b : (quick_ratio a b <= real_quick_ratio a b)%Q.
Proof.
  unfold quick_ratio, real_quick_ratio.
  rewrite <- !length_list_ascii_of_string. apply calculate_ratio_mono.
  rewrite quick_matches_common.
  pose proof (common_le_l (list_ascii_of_string a) (list_ascii_of_string b)).
  pose proof (common_le_r (list_ascii_of_string a) (list_ascii_of_string b)). lia.
Qed.

(** The three tests of [get_close_matches] come to the last one. *)
Lemma three_tests cutoff x word :
  Qle_bool cutoff (real_quick_ratio x word)
  && Qle_bool cutoff (quick_ratio x word)
  && Qle_bool cutoff (ratio x word)
  = Qle_bool cutoff (ratio x word).
Proof.
  destruct (Qle_bool cutoff (ratio x word)) eqn:Hr; [|apply andb_false_r].
  apply Qle_bool_iff in Hr.
  assert (Hq : Qle_bool cutoff (quick_ratio x word) = true).
  { apply Qle_bool_iff. eapply Qle_trans; [exact Hr | apply ratio_le_quick]. }
  assert (Hrq : Qle_bool cutoff (real_quick_ratio x word) = true).
  { apply Qle_bool_iff. eapply Qle_trans; [exact Hr|].
    eapply Qle_trans; [apply ratio_le_quick | apply quick_le_real_quick]. }
  now rewrite Hq, Hrq.
Qed.

Lemma scored_complete word possibilities cutoff x :
  In x possibilities -> (cutoff <= ratio x word)%Q ->
  In (ratio x word, x) (scored word possibilities cutoff).
Proof.
  intros Hin Hr. induction possibilities as [|y rest IH]; simpl; [contradiction|].
  rewrite three_tests. destruct Hin as [->|Hin].
  - apply Qle_bool_iff in Hr. rewrite Hr. now left.
  - destruct (Qle_bool cutoff (ratio y word)); [right|]; auto.
Qed.

(** [get_close_matches] finds nothing exactly when no possibility reaches
    the cut-off. *)
Lemma get_close_matches_nil_iff word possibilities cutoff :
  get_close_matches word possibilities cutoff = [] <->
  forall x, In x possibilities -> (ratio x word < cutoff)%Q.
Proof.
  split; [|apply get_close_matches_none].
  intros Hnil x Hin. apply Qnot_le_lt. intros Hr.
  pose proof (@scored_complete word possibilities cutoff x Hin Hr) as Hs.
  unfold get_close_matches, nlargest1 in Hnil.
  destruct (scored word possibilities cutoff); [contradiction | discriminate].
Qed.

(** *** The order of the scored candidates *)

Lemma str_gt_lt x y : Py.str_gt x y = true <-> OrderedTypeEx.String_as_OT.lt y x.
Proof.
  unfold Py.str_gt. rewrite <- OrderedTypeEx.String_as_OT.cmp_lt.
  unfold OrderedTypeEx.String_as_OT.cmp.
  rewrite (String.compare_antisym y x).
  destruct (String.compare x y); simpl; split; congruence.
Qed.

Lemma str_gt_trans x y z :
  Py.str_gt x y = true -> Py.str_gt y z = true -> Py.str_gt x z = true.
Proof.
  rewrite !str_gt_lt. intros Hxy Hyz.
  eapply OrderedTypeEx.String_as_OT.lt_trans; eassumption.
Qed.

Lemma str_gt_total x y : Py.str_gt x y = false -> Py.str_gt y x = false -> x = y.
Proof.
  unfold Py.str_gt. rewrite (String.compare_antisym y x).
  destruct (String.compare x y) eqn:E; simpl; try discriminate.
  intros _ _. now apply String.compare_eq_iff.
Qed.

Lemma tuple_gt_spec x y :
  tuple_gt x y = true <->
  (fst y < fst x)%Q \/ ((fst x == fst y)%Q /\ Py.str_gt (snd x) (snd y) = true).
Proof.
  unfold tuple_gt. destruct (Qeq_bool (fst x) (fst y)) eqn:E.
  - apply Qeq_bool_iff in E. split.
    + intros Hs. right. now split.
    + intros [Hlt|[_ Hs]]; [|exact Hs].
      exfalso. rewrite E in Hlt. exact (Qlt_irrefl _ Hlt).
  - assert (Hne : ~ (fst x == fst y)%Q).
    { intros Heq. apply Qeq_bool_iff in Heq. congruence. }
    rewrite negb_true_iff. split.
    + intros Hle. left. apply Qnot_le_lt. intros H. apply Qle_bool_iff in H. congruence.
    + intros [Hlt|[Heq _]]; [|contradiction].
      destruct (Qle_bool (fst x) (fst y)) eqn:Hle; [|reflexivity].
      apply Qle_bool_iff in Hle. exfalso. exact (Qlt_not_le _ _ Hlt Hle).
Qed.

Lemma tuple_ge_spec x y :
  tuple_ge x y <->
  (fst y < fst x)%Q \/ ((fst x == fst y)%Q /\ Py.str_gt (snd y) (snd x) = false).
Proof.
  unfold tuple_ge. split.
  - intros Hng.
    destruct (Qlt_le_dec (fst y) (fst x)) as [Hlt|Hle]; [now left|right].
    assert (Hnlt : ~ (fst x < fst y)%Q).
    { intros Hlt. assert (tuple_gt y x = true) by (apply tuple_gt_spec; now left).
      congruence. }
    assert (Heq : (fst x == fst y)%Q).
    { apply Qle_antisym; [exact Hle | now apply Qnot_lt_le]. }
    split; [exact Heq|].
    destruct (Py.str_gt (snd y) (snd x)) eqn:Hs; [|reflexivity].
    assert (tuple_gt y x = true)
      by (apply tuple_gt_spec; right; split; [now symmetry | exact Hs]).
    congruence.
  - intros Hge. destruct (tuple_gt y x) eqn:Hgt; [|reflexivity].
    apply tuple_gt_spec in Hgt. exfalso.
    destruct Hge as [Hlt|[Heq Hs]], Hgt as [Hlt'|[Heq' Hs']].
    + exact (Qlt_irrefl _ (Qlt_trans _ _ _ Hlt Hlt')).
    + rewrite Heq' in Hlt. exact (Qlt_irrefl _ Hlt).
    + rewrite Heq in Hlt'. exact (Qlt_irrefl _ Hlt').
    + congruence.
Qed.

Lemma tuple_ge_refl x : tuple_ge x x.
Proof.
  apply tuple_ge_spec. right. split; [reflexivity | apply str_gt_irrefl].
Qed.

Lemma tuple_ge_trans x y z : tuple_ge x y -> tuple_ge y z -> tuple_ge x z.
Proof.
  rewrite !tuple_ge_spec. intros [Hxy|[Exy Sxy]] [Hyz|[Eyz Syz]].
  - left. eapply Qlt_trans; eassumption.
  - left. now rewrite <- Eyz.
  - left. now rewrite Exy.
  - right. split; [now rewrite Exy|].
    destruct (Py.str_gt (snd z) (snd x)) eqn:Hzx; [|reflexivity].
    destruct (Py.str_gt (snd z) (snd y)) eqn:Hzy; [discriminate|].
    destruct (Py.str_gt (snd y) (snd z)) eqn:Hyz.
    + (* x >= y > z > x *)
      pose proof (@str_gt_trans _ _ _ Hyz Hzx). congruence.
    + assert (snd y = snd z) by now apply str_gt_total.
      congruence.
Qed.

Lemma tuple_gt_ge x y : tuple_gt x y = true -> tuple_ge x y.
Proof.
  rewrite tuple_gt_spec, tuple_ge_spec. intros [Hlt|[Heq Hs]]; [now left|right].
  split; [exact Heq|].
  destruct (Py.str_gt (snd y) (snd x)) eqn:Hyx; [|reflexivity].
  pose proof (@str_gt_trans _ _ _ Hs Hyx) as Hxx. rewrite str_gt_irrefl in Hxx.
  discriminate.
Qed.

(** [max] returns an item no other item is greater than. *)
Lemma py_max_greatest rest : forall first item,
  In item (first :: rest) -> tuple_ge (py_max first rest) item.
Proof.
  unfold py_max. induction rest as [|y rest IH]; intros first item Hin; simpl.
  - destruct Hin as [<-|[]]. apply tuple_ge_refl.
  - destruct Hin as [<-|[<-|Hin]].
    + eapply tuple_ge_trans; [apply IH; now left|].
      destruct (tuple_gt y first) eqn:Hgt; [now apply tuple_gt_ge | apply tuple_ge_refl].
    + eapply tuple_ge_trans; [apply IH; now left|].
      destruct (tuple_gt y first) eqn:Hgt; [apply tuple_ge_refl | exact Hgt].
    + apply IH. now right.
Qed.

(** The match of [get_close_matches] has the greatest ratio, and among the
    possibilities of that ratio it is the greatest string. *)
Lemma get_close_matches_best word possibilities cutoff best rest :
  get_close_matches word possibilities cutoff = best :: rest ->
  rest = [] /\ In best possibilities /\ (cutoff <= ratio best word)%Q /\
  forall x, In x possibilities ->
    (ratio x word <= ratio best word)%Q /\
    ((ratio x word == ratio best word)%Q -> Py.str_gt x best = false).
Proof.
  unfold get_close_matches, nlargest1. intros Hget.
  destruct (scored word possibilities cutoff) as [|first others] eqn:E; [discriminate|].
  simpl in Hget. inversion Hget as [[Hbest Hrest]]. split; [reflexivity|].
  pose proof (py_max_In first others) as Hin. rewrite <- E in Hin.
  destruct (py_max first others) as [r b0] eqn:Hmax. simpl in Hbest. subst b0.
  apply scored_In in Hin. destruct Hin as (Hbin & -> & Hcut).
  split; [exact Hbin|]. split; [exact Hcut|].
  intros x Hx.
  destruct (Qlt_le_dec (ratio x word) cutoff) as [Hlow|Hhigh].
  - split.
    + apply Qlt_le_weak. eapply Qlt_le_trans; eassumption.
    + intros Heq. exfalso. rewrite Heq in Hlow. exact (Qlt_not_le _ _ Hlow Hcut).
  - pose proof (@scored_complete word possibilities cutoff x Hx Hhigh) as Hs.
    rewrite E in Hs. pose proof (@py_max_greatest others first _ Hs) as Hge.
    rewrite Hmax in Hge. apply tuple_ge_spec in Hge. simpl in Hge.
    destruct Hge as [Hlt|[Heq Hs']].
    + split; [now apply Qlt_le_weak|].
      intros Heq. exfalso. rewrite Heq in Hlt. exact (Qlt_irrefl _ Hlt).
    + split; [apply Qle_lteq; right; now symmetry|]. intros _. exact Hs'.
Qed.

End DifflibBounds.

(* ===================================================================== *)
(** ** The two maps of the matcher *)
(* ===================================================================== *)

Section MapFacts.
Context `{Collaborators}.

Lemma build_title_url_map_snoc results result :
  build_title_url_map (results ++ [result]) =
  match result with
  | Some (title_text, u) => dict_set (build_title_url_map results) title_text u
  | None => build_title_url_map results
  end.
Proof. unfold build_title_url_map. now rewrite fold_left_app. Qed.

Lemma build_slug_url_map_snoc urls u :
  build_slug_url_map (urls ++ [u]) =
  match hyphen_slug u with
  | Some slug => dict_set (build_slug_url_map urls) slug u
  | None => build_slug_url_map urls
  end.
Proof.
  unfold build_slug_url_map, hyphen_slug. rewrite fold_left_app. simpl.
  destruct (slug_of_url u) as [slug|]; [|reflexivity].
  now destruct (Py.contains "-" slug).
Qed.

Lemma first_url_of_cons title_text result results :
  first_url_of title_text (result :: results) =
  match result with
  | Some (t, u) => if String.eqb t title_text then Some u
                   else first_url_of title_text results
  | None => first_url_of title_text results
  end.
Proof.
  unfold first_url_of. simpl. destruct result as [[t u]|]; simpl; [|reflexivity].
  now destruct (String.eqb t title_text).
Qed.

(** The title map holds, for every title, the URL of the last candidate that
    resolved to it. *)
Lemma build_title_url_map_get results title_text :
  dict_get (build_title_url_map results) title_text = last_url_of title_text results.
Proof.
  unfold last_url_of. induction results as [|result results IH] using rev_ind.
  - reflexivity.
  - rewrite build_title_url_map_snoc, rev_app_distr. simpl rev. simpl app.
    rewrite first_url_of_cons. destruct result as [[t u]|]; [|exact IH].
    destruct (String.eqb_spec t title_text) as [->|Hne].
    + apply dict_get_set_same.
    + now rewrite dict_get_set_other.
Qed.

(** The slug map holds, for every slug with a hyphen, the last candidate URL
    that has it. *)
Lemma build_slug_url_map_get urls slug :
  dict_get (build_slug_url_map urls) slug = last_url_with_slug slug urls.
Proof.
  unfold last_url_with_slug. induction urls as [|u urls IH] using rev_ind.
  - reflexivity.
  - rewrite build_slug_url_map_snoc, rev_app_distr. simpl.
    destruct (hyphen_slug u) as [s|]; [|exact IH].
    destruct (String.eqb_spec s slug) as [->|Hne].
    + apply dict_get_set_same.
    + now rewrite dict_get_set_other.
Qed.

Lemma build_slug_url_map_value urls slug u :
  dict_get (build_slug_url_map urls) slug = Some u ->
  In u urls /\ hyphen_slug u = Some slug.
Proof.
  rewrite build_slug_url_map_get. unfold last_url_with_slug. intros Hfind.
  apply find_some in Hfind. destruct Hfind as [Hin Hs].
  split; [now apply in_rev|].
  destruct (hyphen_slug u) as [s|]; [|discriminate].
  now apply String.eqb_eq in Hs; subst.
Qed.

(** The slug of a URL, read off the parts of its path. *)
Lemma slug_of_url_parts u path :
  urlparse_path u = Some path ->
  slug_of_url u =
  match rev (Py.split "/" path) with
  | last_part :: before :: _ =>
      Some (if String.eqb last_part "" then before else last_part)
  | _ => None
  end.
Proof.
  intros Hpath. unfold slug_of_url. rewrite Hpath.
  assert (Hparts : Py.split "/" path = rev (rev (Py.split "/" path)))
    by now rewrite rev_involutive.
  destruct (rev (Py.split "/" path)) as [|last_part [|before parts]];
    rewrite Hparts; try reflexivity.
  cbn [rev]. rewrite !length_app. cbn [length].
  destruct (Nat.leb_spec 2 (length (rev parts) + 1 + 1)) as [_|]; [|lia].
  now rewrite !last_last, removelast_last, last_last.
Qed.

End MapFacts.

(* ===================================================================== *)
(** ** Running the pipeline *)
(* ===================================================================== *)

Section RunFacts.
Context `{Collaborators}.

Lemma advance_0 w : advance 0 w = w.
Proof. now destruct w. Qed.

Lemma advance_advance k j w : advance k (advance j w) = advance (k + j) w.
Proof. unfold advance. simpl. f_equal. lia. Qed.

Lemma tick_advance w : tick w = advance 1 w.
Proof. reflexivity. Qed.

Lemma steady_ret {A} (a : A) : steady (ret a).
Proof. intros w. exists a, 0. now rewrite advance_0. Qed.

Lemma steady_bind {A B} (m : M A) (f : A -> M B) :
  steady m -> (forall a, steady (f a)) -> steady (bind m f).
Proof.
  intros Hm Hf w. unfold bind. destruct (Hm w) as (a & k & ->).
  destruct (Hf a (advance k w)) as (b & j & ->).
  exists b, (j + k). now rewrite advance_advance.
Qed.

Lemma steady_requests_get u : steady (requests_get u).
Proof. intros w. exists (network w (clock w) u), 1. reflexivity. Qed.

Lemma steady_mapM {A B} (f : A -> M B) (l : list A) :
  (forall x, steady (f x)) -> steady (mapM f l).
Proof.
  intros Hf. induction l as [|x l IH]; simpl.
  - apply steady_ret.
  - apply steady_bind; [apply Hf|]. intros y.
    apply steady_bind; [apply IH|]. intros ys. apply steady_ret.
Qed.

Lemma steady_get_sitemap_urls : steady get_sitemap_urls.
Proof.
  apply steady_bind; [apply steady_requests_get|].
  intros [content|]; apply steady_ret.
Qed.

(** The crawl never raises. *)
Lemma steady_get_all_blog_page_urls : steady get_all_blog_page_urls.
Proof.
  apply steady_bind; [apply steady_get_sitemap_urls|]. intros sitemap_urls.
  apply steady_bind; [apply steady_mapM; intros u; apply steady_requests_get|].
  intros contents. apply steady_bind; [|intros completed; apply steady_ret].
  intros w. eexists _, 0. unfold as_completed. now rewrite advance_0.
Qed.

Lemma crawl_run w :
  exists k, get_all_blog_page_urls w = (Return (candidates w), advance k w).
Proof.
  unfold candidates. destruct (steady_get_all_blog_page_urls w) as (urls & k & E).
  exists k. now rewrite E.
Qed.

Lemma get_title_from_url_run u w :
  get_title_from_url u w = (Return (title_at w (clock w) u), tick w).
Proof.
  unfold get_title_from_url, title_at, bind, requests_get.
  destruct (network w (clock w) u) as [text|]; [|reflexivity].
  now destruct (tag_or _ _).
Qed.

Lemma titles_from_network w w' n urls :
  (forall m u, network w' m u = network w m u) ->
  titles_from w' n urls = titles_from w n urls.
Proof.
  intros Hnet. revert n. induction urls as [|u urls IH]; intros n; simpl; [reflexivity|].
  rewrite IH. unfold title_at. now rewrite Hnet.
Qed.

Lemma mapM_get_title_run urls : forall w,
  mapM get_title_from_url urls w =
  (Return (titles_from w (clock w) urls), advance (length urls) w).
Proof.
  induction urls as [|u urls IH]; intros w; simpl.
  - unfold ret. now rewrite advance_0.
  - unfold bind at 1. rewrite get_title_from_url_run.
    unfold bind at 1. rewrite IH. unfold ret. f_equal.
    + do 2 f_equal. now apply titles_from_network.
    + rewrite tick_advance, advance_advance. f_equal. lia.
Qed.

(** The matching steps, as one case analysis. *)
Lemma matcher_run q urls results w :
  matcher q urls results w =
  match Difflib.get_close_matches (slugify q) (dict_keys (build_slug_url_map urls))
          (1 # 2) with
  | best_slug :: _ =>
      match dict_get (build_slug_url_map urls) best_slug with
      | Some match_url =>
          (Return (Some (match title_at w (clock w) match_url with
                         | Some (title_text, _) => title_text
                         | None => ("Matched via URL: " ++ best_slug)%string
                         end, match_url)), tick w)
      | None => (Raise ("KeyError: " ++ best_slug)%string, w)
      end
  | [] =>
      match Difflib.get_close_matches q (dict_keys (build_title_url_map results))
              (3 # 5) with
      | [] => (Return None, w)
      | match_title :: _ =>
          match dict_get (build_title_url_map results) match_title with
          | Some match_url => (Return (Some (match_title, match_url)), w)
          | None => (Raise ("KeyError: " ++ match_title)%string, w)
          end
      end
  end.
Proof.
  unfold matcher.
  destruct (Difflib.get_close_matches (slugify q) _ _) as [|best_slug rest].
  - unfold title_branch.
    destruct (Difflib.get_close_matches q _ _) as [|match_title rest]; [reflexivity|].
    unfold bind, lift, dict_index.
    now destruct (dict_get (build_title_url_map results) match_title).
  - unfold slug_branch, bind, lift, dict_index.
    destruct (dict_get (build_slug_url_map urls) best_slug) as [match_url|];
      [|reflexivity].
    now rewrite get_title_from_url_run.
Qed.

(** The keys [get_close_matches] picks are keys of the map: the lookups of
    the matcher never raise. *)
Lemma matcher_no_raise q urls results w : exists m, fst (matcher q urls results w) = Return m.
Proof.
  rewrite matcher_run.
  destruct (DifflibFacts.get_close_matches_cases (slugify q)
              (dict_keys (build_slug_url_map urls)) (1 # 2))
    as [Hs | (slug & Hs & Hin & _)]; rewrite Hs.
  - destruct (DifflibFacts.get_close_matches_cases q
                (dict_keys (build_title_url_map results)) (3 # 5))
      as [Ht | (t & Ht & Hin & _)]; rewrite Ht; [now eexists|].
    destruct (In_keys_dict_get _ _ Hin) as [u Hu]. rewrite Hu. now eexists.
  - destruct (In_keys_dict_get _ _ Hin) as [u Hu]. rewrite Hu. now eexists.
Qed.

(** [run_blog_search], as one case analysis on the candidates. *)
Lemma run_blog_search_run q w :
  exists k,
    run_blog_search q w =
    match candidates w with
    | [] => (Return [("error", VStr "No blog URLs found from sitemap.")], advance k w)
    | _ :: _ =>
        bind (matcher q (candidates w) (resolved w))
          (fun matched =>
             match matched with
             | None => ret [("message", VStr "No matching blog found.")]
             | Some (match_title, match_url) => fetch_and_extract match_title match_url
             end)
          (advance (length (candidates w)) (advance k w))
    end.
Proof.
  destruct (crawl_run w) as [k Hcrawl]. exists k.
  unfold run_blog_search. unfold bind at 1. rewrite Hcrawl.
  unfold resolved. rewrite Hcrawl. simpl snd.
  destruct (candidates w) as [|u urls]; [reflexivity|].
  unfold bind at 1. rewrite mapM_get_title_run.
  now rewrite (titles_from_network (advance k w) w).
Qed.

End RunFacts.

Section ExtractFacts.
Context `{Collaborators}.

(** The loop over the images: the sources that are present, joined in
    order. *)
Lemma image_loop_join_all match_url images : forall image_urls,
  image_loop match_url images image_urls =
  match join_all match_url (present_srcs images) with
  | Return joined => Return (image_urls ++ joined)
  | Raise e => Raise e
  end.
Proof.
  induction images as [|img images IH]; intros image_urls; simpl.
  - now rewrite app_nil_r.
  - destruct img as [src|]; [|apply IH].
    destruct (Py.truthy src); [|apply IH]. simpl.
    destruct (urljoin match_url src) as [full_src|e]; [|reflexivity].
    rewrite IH. destruct (join_all match_url (present_srcs images)); [|reflexivity].
    now rewrite <- app_assoc.
Qed.

Lemma join_all_length match_url srcs joined :
  join_all match_url srcs = Return joined -> length joined = length srcs.
Proof.
  revert joined. induction srcs as [|src srcs IH]; intros joined; simpl.
  - now intros [= <-].
  - destruct (urljoin match_url src); [|discriminate].
    destruct (join_all match_url srcs); [|discriminate].
    intros [= <-]. simpl. f_equal. now apply IH.
Qed.

Lemma present_srcs_length images : length (present_srcs images) <= length images.
Proof.
  induction images as [|[src|] images IH]; simpl; try lia.
  destruct (Py.truthy src); simpl; lia.
Qed.

(** Lines 199-225, as one case analysis. *)
Lemma fetch_and_extract_run match_title match_url w :
  fetch_and_extract match_title match_url w =
  (match network w (clock w) match_url with
   | None =>
       Return [("error", VStr ("Failed to fetch blog HTML for " ++ match_url ++ ".")%string)]
   | Some text =>
       match extract_blog_content (html_parser text) with
       | Some (String c content' as content) =>
           match image_loop match_url (firstn 3 (select_img (html_parser text))) [] with
           | Return image_urls =>
               Return [("title", VStr match_title);
                       ("url", VStr match_url);
                       ("content_preview", VStr (Py.slice_to 300 content));
                       ("full_content", VStr content);
                       ("image_urls", VList image_urls)]
           | Raise e => Raise e
           end
       | _ => Return [("error", VStr "Failed to extract blog content.")]
       end
   end, tick w).
Proof.
  unfold fetch_and_extract, fetch_blog_soup, bind, requests_get, ret, lift.
  destruct (network w (clock w) match_url) as [text|]; [|reflexivity].
  destruct (extract_blog_content (html_parser text)) as [[|c content']|]; try reflexivity.
  now destruct (image_loop _ _ _).
Qed.

(** Whatever [run_blog_search] returns has one of the three shapes. *)
Lemma run_blog_search_shape q w d :
  fst (run_blog_search q w) = Return d -> is_error d \/ is_message d \/ is_success d.
Proof.
  destruct (run_blog_search_run q w) as [k ->].
  destruct (candidates w) as [|u urls].
  { simpl. intros [= <-]. left. now eexists. }
  unfold bind. destruct (matcher q (u :: urls) (resolved w) _) as [[[[t mu]|]|e] w'].
  - rewrite fetch_and_extract_run. cbn [fst].
    destruct (network w' (clock w') mu) as [text|].
    + destruct (extract_blog_content (html_parser text)) as [[|c content']|].
      * intros [= <-]. left. now eexists.
      * destruct (image_loop _ _ _) as [imgs|e]; [|discriminate].
        intros [= <-]. right. right. now exists t, mu, (String c content'), imgs.
      * intros [= <-]. left. now eexists.
    + intros [= <-]. left. now eexists.
  - simpl. intros [= <-]. right. left. now eexists.
  - discriminate.
Qed.

(** [run_blog_search] raises only where [urljoin] does. *)
Lemma run_blog_search_returns q w :
  (forall base src, exists joined, urljoin base src = Return joined) ->
  exists d, fst (run_blog_search q w) = Return d.
Proof.
  intros Hjoin.
  assert (Hall : forall base srcs, exists joined, join_all base srcs = Return joined).
  { intros base srcs. induction srcs as [|src srcs [joined IH]]; simpl; [now eexists|].
    destruct (Hjoin base src) as [full_src ->]. rewrite IH. now eexists. }
  destruct (run_blog_search_run q w) as [k ->].
  destruct (candidates w) as [|u urls]; [now eexists|].
  unfold bind.
  destruct (matcher_no_raise q (u :: urls) (resolved w)
              (advance (length (u :: urls)) (advance k w))) as [m Hm].
  destruct (matcher q (u :: urls) (resolved w) _) as [r w']. simpl in Hm. subst r.
  destruct m as [[t mu]|]; [|now eexists].
  rewrite fetch_and_extract_run. cbn [fst].
  destruct (network w' (clock w') mu) as [text|]; [|now eexists].
  destruct (extract_blog_content (html_parser text)) as [[|c content']|];
    try now eexists.
  rewrite image_loop_join_all.
  destruct (Hall mu (present_srcs (firstn 3 (select_img (html_parser text)))))
    as [joined ->].
  now eexists.
Qed.

End ExtractFacts.

(* ===================================================================== *)
(** ** The properties of the service *)
(* ===================================================================== *)

Section Claims.
Context `{Collaborators}.

Lemma endpoint_respond q w :
  fst (search_blog_endpoint q w) = respond (fst (run_blog_search q w)).
Proof. unfold search_blog_endpoint. now destruct (run_blog_search q w). Qed.

Lemma titles_from_frozen urls w : forall n m,
  (forall u k j, In u urls -> network w k u = network w j u) ->
  titles_from w n urls = titles_from w m urls.
Proof.
  induction urls as [|u urls IH]; intros n m Hfrozen; simpl; [reflexivity|].
  rewrite (IH (S n) (S m)) by (intros; apply Hfrozen; now right).
  unfold title_at. now rewrite (Hfrozen u n m) by now left.
Qed.

Lemma resolve_and_match_network q urls w n u :
  network (snd (resolve_and_match q urls w)) n u = network w n u.
Proof.
  unfold resolve_and_match, bind. rewrite mapM_get_title_run, matcher_run.
  destruct (Difflib.get_close_matches (slugify q) _ _) as [|best_slug rest].
  - destruct (Difflib.get_close_matches q _ _) as [|match_title rest]; [reflexivity|].
    now destruct (dict_get _ match_title).
  - now destruct (dict_get _ best_slug).
Qed.

(** The outcome of the matching steps depends on the world only through the
    titles of the candidates. *)
Lemma resolve_and_match_frozen q urls w w' :
  titles_frozen urls w ->
  (forall n u, network w' n u = network w n u) ->
  fst (resolve_and_match q urls w') = fst (resolve_and_match q urls w).
Proof.
  intros Hfrozen Hnet. unfold resolve_and_match, bind.
  rewrite !mapM_get_title_run.
  rewrite (@titles_from_network _ w w' (clock w') urls Hnet).
  rewrite (@titles_from_frozen urls w (clock w') (clock w)) by exact Hfrozen.
  rewrite !matcher_run.
  destruct (Difflib.get_close_matches (slugify q) _ _) as [|best_slug rest].
  - destruct (Difflib.get_close_matches q _ _) as [|match_title rest]; [reflexivity|].
    now destruct (dict_get _ match_title).
  - destruct (dict_get _ best_slug) as [match_url|] eqn:Hget; [|reflexivity].
    apply build_slug_url_map_value in Hget. destruct Hget as [Hin _].
    cbn [fst]. do 3 f_equal. unfold title_at. cbn [network advance].
    now rewrite Hnet, (Hfrozen match_url _ (length urls + clock w) Hin).
Qed.


(** C2: a query whose slugified form is a slug of the slug map is matched by
    the slug branch, and the matched URL is the URL the map holds for that
    slug: the ratio of identical strings is 1, which meets the cut-off 0.5,
    and no other slug scores as high. *)
Theorem exact_slug_is_matched q urls results u w :
  dict_get (build_slug_url_map urls) (slugify q) = Some u ->
  (Difflib.ratio (slugify q) (slugify q) == 1)%Q /\
  Difflib.get_close_matches (slugify q) (dict_keys (build_slug_url_map urls)) (1 # 2)
  = [slugify q] /\
  matcher q urls results w =
  bind (slug_branch (build_slug_url_map urls) (slugify q)) (fun m => ret (Some m)) w /\
  exists display_title, fst (matcher q urls results w) = Return (Some (display_title, u)).
Proof.
  intros Hget.
  assert (Hs : Difflib.get_close_matches (slugify q)
                 (dict_keys (build_slug_url_map urls)) (1 # 2) = [slugify q]).
  { apply DifflibFacts.get_close_matches_exact.
    - unfold Qle. simpl. lia.
    - eapply dict_get_In_keys. exact Hget. }
  split; [apply DifflibFacts.ratio_same|]. split; [exact Hs|]. split.
  - unfold matcher. now rewrite Hs.
  - rewrite matcher_run, Hs, Hget. now eexists.
Qed.

(** C3 (as amended): the title map maps every title to the URL of the LAST
    candidate, in the order of the results, that resolved to it: a later
    candidate with the same title replaces the URL of the earlier one. *)
Theorem title_map_last_wins results title_text :
  dict_get (build_title_url_map results) title_text = last_url_of title_text results.
Proof. apply build_title_url_map_get. Qed.

(** C4 (as amended): the slug of a URL is the last part of its path split at
    the slashes, or the part before it when the last part is empty; a URL
    whose path has no slash, or that does not parse, has none.  The slug map
    maps a slug to the last candidate URL that has this slug with a hyphen in
    it, and has no other key. *)
Theorem slug_map_entries urls :
  (forall u,
     slug_of_url u =
     match urlparse_path u with
     | Some path =>
         match rev (Py.split "/" path) with
         | last_part :: before :: _ =>
             Some (if String.eqb last_part "" then before else last_part)
         | _ => None
         end
     | None => None
     end) /\
  (forall slug,
     dict_get (build_slug_url_map urls) slug = last_url_with_slug slug urls) /\
  (forall slug,
     In slug (dict_keys (build_slug_url_map urls)) <->
     exists u, In u urls /\ slug_of_url u = Some slug /\ Py.contains "-" slug = true).
Proof.
  split; [|split].
  - intros u. destruct (urlparse_path u) as [path|] eqn:E.
    + now apply slug_of_url_parts.
    + unfold slug_of_url. now rewrite E.
  - apply build_slug_url_map_get.
  - intros slug. split.
    + intros Hin. apply In_keys_dict_get in Hin. destruct Hin as [u Hget].
      apply build_slug_url_map_value in Hget. destruct Hget as [Hin Hs].
      exists u. unfold hyphen_slug in Hs.
      destruct (slug_of_url u) as [s|]; [|discriminate].
      destruct (Py.contains "-" s) eqn:Hh; [|discriminate].
      inversion Hs; subst. auto.
    + intros (u & Hin & Hs & Hh).
      destruct (dict_get (build_slug_url_map urls) slug) as [u'|] eqn:Hget.
      * eapply dict_get_In_keys. exact Hget.
      * exfalso. rewrite build_slug_url_map_get in Hget.
        unfold last_url_with_slug in Hget.
        pose proof (find_none _ _ Hget u (proj1 (in_rev urls u) Hin)) as Hnone.
        unfold hyphen_slug in Hnone. rewrite Hs, Hh, String.eqb_refl in Hnone.
        discriminate.
Qed.

(** C5: when the slug branch finds a match, the display title comes from a
    new call of [get_title_from_url] on the matched URL, sent after the
    titles of the candidates were resolved, and not from the title map: the
    resolved titles have no part in it.  When that call returns no title,
    the display title is "Matched via URL: " followed by the matched slug. *)
Theorem slug_match_title_is_refetched q urls results w best_slug rest :
  Difflib.get_close_matches (slugify q) (dict_keys (build_slug_url_map urls)) (1 # 2)
  = best_slug :: rest ->
  exists match_url,
    dict_get (build_slug_url_map urls) best_slug = Some match_url /\
    (forall title_result,
       fst (get_title_from_url match_url w) = Return title_result ->
       matcher q urls results w =
       (Return (Some (match title_result with
                      | Some (title_text, _) => title_text
                      | None => ("Matched via URL: " ++ best_slug)%string
                      end, match_url)), tick w)) /\
    (fst (get_title_from_url match_url w) = Return None ->
     fst (matcher q urls results w) =
     Return (Some (("Matched via URL: " ++ best_slug)%string, match_url))) /\
    (forall results', matcher q urls results' w = matcher q urls results w).
Proof.
  intros Hs.
  destruct (DifflibFacts.get_close_matches_cases (slugify q)
              (dict_keys (build_slug_url_map urls)) (1 # 2))
    as [Hnil | (x & Hx & Hin & _)]; [congruence|].
  rewrite Hs in Hx. inversion Hx; subst x rest.
  destruct (In_keys_dict_get _ _ Hin) as [match_url Hget].
  exists match_url. split; [exact Hget|].
  rewrite get_title_from_url_run. cbn [fst]. split; [|split].
  - intros title_result [= <-]. now rewrite matcher_run, Hs, Hget.
  - intros [= Hnone]. now rewrite matcher_run, Hs, Hget, Hnone.
  - intros results'. now rewrite !matcher_run, Hs, Hget.
Qed.

(** C6 (as amended): for every fetched page whose payload is returned, the
    image URLs are built from the first 3 image elements of the document:
    the [src] attributes that are present and not empty among these three
    are resolved against the matched URL, in order; the list never has more
    than 3 URLs. *)
Theorem image_urls_of_first_three_elements match_title match_url w text d :
  network w (clock w) match_url = Some text ->
  fst (fetch_and_extract match_title match_url w) = Return d ->
  is_success d ->
  exists image_urls,
    dict_get d "image_urls" = Some (VList image_urls) /\
    image_loop match_url (firstn 3 (select_img (html_parser text))) [] =
    Return image_urls /\
    join_all match_url (present_srcs (firstn 3 (select_img (html_parser text)))) =
    Return image_urls /\
    length image_urls <= 3.
Proof.
  intros Hpage Hrun (t & u & c & imgs & ->).
  rewrite fetch_and_extract_run, Hpage in Hrun. cbn [fst] in Hrun.
  destruct (extract_blog_content (html_parser text)) as [[|c0 content']|];
    try discriminate.
  destruct (image_loop _ _ _) as [image_urls|e] eqn:Hloop; [|discriminate].
  inversion Hrun; subst. exists imgs. split; [reflexivity|]. split; [reflexivity|].
  rewrite image_loop_join_all in Hloop.
  destruct (join_all _ _) as [joined|] eqn:Hjoin; [|discriminate].
  inversion Hloop; subst. split; [reflexivity|].
  apply join_all_length in Hjoin. simpl. rewrite Hjoin.
  pose proof (present_srcs_length (firstn 3 (select_img (html_parser text)))).
  pose proof (firstn_le_length 3 (select_img (html_parser text))). lia.
Qed.

(** C7: when the crawl yields no URL, as it does when the root sitemap cannot
    be fetched, [run_blog_search] returns the error "No blog URLs found from
    sitemap." and the endpoint answers 500 with that message as detail. *)
Theorem no_urls_is_an_error q w :
  (network w (clock w) MAIN_SITEMAP = None -> candidates w = []) /\
  (candidates w = [] ->
   fst (run_blog_search q w) = Return [("error", VStr "No blog URLs found from sitemap.")] /\
   fst (search_blog_endpoint q w) = HTTP500 (VStr "No blog URLs found from sitemap.")).
Proof.
  split.
  - intros Hroot. unfold candidates, get_all_blog_page_urls, get_sitemap_urls,
      bind, requests_get. now rewrite Hroot.
  - intros Hnone.
    assert (Hrun : fst (run_blog_search q w) =
                   Return [("error", VStr "No blog URLs found from sitemap.")]).
    { destruct (run_blog_search_run q w) as [k ->]. now rewrite Hnone. }
    split; [exact Hrun|]. now rewrite endpoint_respond, Hrun.
Qed.


(** C9: with the candidate URLs fixed and their title resolution frozen,
    running the matching steps twice in a row gives the same outcome both
    times: the same title and URL, or no match. *)
Theorem matching_is_idempotent q urls w :
  titles_frozen urls w ->
  fst (resolve_and_match q urls (snd (resolve_and_match q urls w))) =
  fst (resolve_and_match q urls w).
Proof.
  intros Hfrozen. apply resolve_and_match_frozen; [exact Hfrozen|].
  intros n u. apply resolve_and_match_network.
Qed.

(** C10: every result [run_blog_search] returns has exactly one of three
    shapes: only an "error" key, only a "message" key, or the payload with
    title, url, content_preview, full_content and image_urls and neither an
    "error" nor a "message" key, in which content_preview is the first 300
    characters of full_content. *)
Theorem result_has_one_shape q w d :
  fst (run_blog_search q w) = Return d ->
  (is_error d /\ ~ is_message d /\ ~ is_success d /\ dict_keys d = ["error"]) \/
  (is_message d /\ ~ is_error d /\ ~ is_success d /\ dict_keys d = ["message"]) \/
  (is_success d /\ ~ is_error d /\ ~ is_message d /\
   dict_keys d = ["title"; "url"; "content_preview"; "full_content"; "image_urls"] /\
   dict_in "error" d = false /\ dict_in "message" d = false /\
   exists c, dict_get d "full_content" = Some (VStr c) /\
             dict_get d "content_preview" = Some (VStr (Py.slice_to 300 c))).
Proof.
  intros Hrun.
  destruct (run_blog_search_shape q w Hrun)
    as [[e ->] | [[m ->] | (t & u & c & imgs & ->)]].
  - left. repeat split; [now exists e | intros [m Hm]; discriminate |
                         intros (t & u & c & imgs & Hd); discriminate].
  - right. left. repeat split; [now exists m | intros [e He]; discriminate |
                                intros (t & u & c & imgs & Hd); discriminate].
  - right. right. repeat split;
      [now exists t, u, c, imgs | intros [e He]; discriminate |
       intros [m Hm]; discriminate | now exists c].
Qed.

End Claims.

(* ===================================================================== *)
(** ** The properties on the small site *)
(* ===================================================================== *)

Module DemoFacts.
Import Demo.

(** The crawl of the site finds the two posts. *)
Example crawl_online :
  @candidates libs online = [guide_url; tips_url].
Proof. vm_compute. reflexivity. Qed.

(** "field service" is matched through the slug of the guide; of the first
    three images the first has no [src], so two URLs are returned although
    the page has three images with a [src]. *)
Example search_field_service :
  fst (@run_blog_search libs "field service" online) =
  Return [("title", VStr "Field Service Guide");
          ("url", VStr guide_url);
          ("content_preview", VStr "All about field service.");
          ("full_content", VStr "All about field service.");
          ("image_urls",
           VList ["https://d5meta.com/img/a.png"; "https://d5meta.com/img/b.png"])].
Proof. vm_compute. reflexivity. Qed.

(** The display title of a slug match is the one the page has when it is
    fetched again, not the one in the title map. *)
Example search_retitled :
  dict_keys (@build_title_url_map (@resolved libs retitled))
  = ["Field Service Guide"; "Signature Tips"] /\
  exists rest,
    fst (@run_blog_search libs "field service" retitled) =
    Return (("title", VStr "The Field Service Handbook") :: rest).
Proof. split; [|eexists]; vm_compute; reflexivity. Qed.

(** Two candidates under one title: the query is answered with the second. *)
Example search_twins :
  @resolved libs (world_of twins) =
  [Some ("Release Notes", "https://d5meta.com/blog/first/");
   Some ("Release Notes", "https://d5meta.com/blog/second/")] /\
  exists rest,
    fst (@run_blog_search libs "Release Notes" (world_of twins)) =
    Return (("title", VStr "Release Notes")
            :: ("url", VStr "https://d5meta.com/blog/second/") :: rest).
Proof. split; [|eexists]; vm_compute; reflexivity. Qed.

(** Two candidates with one slug: the map keeps the second only. *)
Example slug_map_of_namesakes :
  @build_slug_url_map libs
    ["https://d5meta.com/blog/field-service/";
     "https://d5meta.com/category/field-service/"]
  = [("field-service", "https://d5meta.com/category/field-service/")].
Proof. vm_compute. reflexivity. Qed.



Lemma exact_slug_is_matched_witness :
  dict_get (@build_slug_url_map libs [guide_url; tips_url])
    (@slugify "Field Service Guide") = Some guide_url /\
  exists display_title,
    fst (@matcher libs "Field Service Guide" [guide_url; tips_url] [] online) =
    Return (Some (display_title, guide_url)).
Proof.
  assert (Hget : dict_get (@build_slug_url_map libs [guide_url; tips_url])
                   (@slugify "Field Service Guide") = Some guide_url)
    by (vm_compute; reflexivity).
  split; [exact Hget|].
  exact (proj2 (proj2 (proj2 (@exact_slug_is_matched libs "Field Service Guide"
                                [guide_url; tips_url] [] guide_url online Hget)))).
Defined.

(** C3, as it is written, fails on two candidates with one title: the map
    holds the URL of the second. *)
Lemma first_title_wins_as_stated_fails :
  ~ first_title_wins_as_stated
      [Some ("Release Notes", "https://d5meta.com/blog/first/");
       Some ("Release Notes", "https://d5meta.com/blog/second/")].
Proof.
  intros Hclaim. specialize (Hclaim "Release Notes").
  vm_compute in Hclaim. discriminate.
Qed.

(** C4, as it is written, fails on a URL that ends with two slashes: its
    last non-empty segment has a hyphen, the code's slug is the empty string
    and the URL gets no entry. *)
Lemma slug_entry_as_stated_fails :
  ~ @slug_entry_as_stated libs ["https://d5meta.com/blog/my-post//"].
Proof.
  intros Hclaim.
  assert (Hin : In "https://d5meta.com/blog/my-post//"
                  ["https://d5meta.com/blog/my-post//"]) by now left.
  assert (Hpath : @urlparse_path libs "https://d5meta.com/blog/my-post//"
                  = Some "/blog/my-post//") by (vm_compute; reflexivity).
  assert (Hsegment : last_nonempty_segment "/blog/my-post//" = Some "my-post")
    by (vm_compute; reflexivity).
  assert (Hhyphen : Py.contains "-" "my-post" = true) by (vm_compute; reflexivity).
  pose proof (proj2 (Hclaim _ _ _ Hin Hpath Hsegment) Hhyphen) as Hentry.
  vm_compute in Hentry. discriminate.
Qed.

Lemma slug_match_title_is_refetched_witness :
  exists match_url,
    dict_get (@build_slug_url_map libs [guide_url; tips_url]) "field-service-guide"
    = Some match_url /\
    (fst (@get_title_from_url libs match_url unreachable) = Return None ->
     fst (@matcher libs "field service" [guide_url; tips_url] [] unreachable) =
     Return (Some ("Matched via URL: field-service-guide", match_url))).
Proof.
  destruct (@slug_match_title_is_refetched libs "field service" [guide_url; tips_url]
              [] unreachable "field-service-guide" [])
    as (match_url & Hget & _ & Hnone & _).
  - vm_compute. reflexivity.
  - exists match_url. split; [exact Hget | exact Hnone].
Defined.

(** C6, as it is written, fails on a page whose first image has no [src]:
    the first three [src] attributes of the page are three, the code returns
    two. *)
Lemma first_three_srcs_as_stated_fails :
  ~ @first_three_srcs_as_stated libs guide_url
      [None; Some "/img/a.png"; Some "/img/b.png"; Some "/img/c.png"].
Proof. intros Hclaim. vm_compute in Hclaim. discriminate. Qed.

Lemma image_urls_of_first_three_elements_witness :
  exists image_urls,
    @image_loop libs guide_url
      (firstn 3 [None; Some "/img/a.png"; Some "/img/b.png"; Some "/img/c.png"]) []
    = Return image_urls /\
    image_urls = ["https://d5meta.com/img/a.png"; "https://d5meta.com/img/b.png"].
Proof.
  destruct (@image_urls_of_first_three_elements libs "Field Service Guide" guide_url
              (advance 4 online)
              "Field Service Guide|All about field service.||/img/a.png|/img/b.png|/img/c.png"
              [("title", VStr "Field Service Guide");
               ("url", VStr guide_url);
               ("content_preview", VStr "All about field service.");
               ("full_content", VStr "All about field service.");
               ("image_urls",
                VList ["https://d5meta.com/img/a.png"; "https://d5meta.com/img/b.png"])])
    as (image_urls & Hget & Hloop & _ & _).
  - vm_compute. reflexivity.
  - vm_compute. reflexivity.
  - exists "Field Service Guide", guide_url, "All about field service.",
      ["https://d5meta.com/img/a.png"; "https://d5meta.com/img/b.png"].
    reflexivity.
  - exists image_urls. split; [exact Hloop|].
    vm_compute in Hget. now inversion Hget.
Defined.

Lemma no_urls_is_an_error_witness :
  network unreachable (clock unreachable) MAIN_SITEMAP = None /\
  fst (@run_blog_search libs "field service" unreachable) =
  Return [("error", VStr "No blog URLs found from sitemap.")] /\
  fst (@search_blog_endpoint libs "field service" unreachable) =
  HTTP500 (VStr "No blog URLs found from sitemap.").
Proof.
  split; [reflexivity|].
  apply (proj2 (@no_urls_is_an_error libs "field service" unreachable)).
  apply (proj1 (@no_urls_is_an_error libs "field service" unreachable)).
  reflexivity.
Defined.


Lemma matching_is_idempotent_witness :
  titles_frozen [guide_url; tips_url] online /\
  fst (@resolve_and_match libs "field service" [guide_url; tips_url]
         (snd (@resolve_and_match libs "field service" [guide_url; tips_url] online))) =
  fst (@resolve_and_match libs "field service" [guide_url; tips_url] online).
Proof.
  assert (Hfrozen : titles_frozen [guide_url; tips_url] online)
    by (intros u n m _; reflexivity).
  split; [exact Hfrozen|].
  exact (@matching_is_idempotent libs "field service" [guide_url; tips_url] online
           Hfrozen).
Defined.

Lemma result_has_one_shape_witness :
  exists d,
    fst (@run_blog_search libs "field service" online) = Return d /\
    is_success d /\ ~ is_error d /\ ~ is_message d.
Proof.
  eexists. split; [apply search_field_service|].
  destruct (@result_has_one_shape libs "field service" online _ search_field_service)
    as [(He & _) | [(Hm & _) | (Hs & Hne & Hnm & _)]].
  - destruct He as [e He]. discriminate.
  - destruct Hm as [m Hm]. discriminate.
  - auto.
Defined.

End DemoFacts.

(* ===================================================================== *)
(** ** More on the crawl *)
(* ===================================================================== *)

Section CrawlFacts.
Context `{Collaborators}.

Lemma insert_completed_perm {A} (at_ : nat -> nat) (fut : nat * A) done :
  Permutation (insert_completed at_ fut done) (fut :: done).
Proof.
  induction done as [|d done IH]; simpl; [reflexivity|].
  destruct (at_ (fst d) <=? at_ (fst fut)); [|reflexivity].
  rewrite IH. apply perm_swap.
Qed.

Lemma as_completed_perm {A} (at_ : nat -> nat) (futures : list (nat * A)) : forall done,
  Permutation (fold_left (fun done fut => insert_completed at_ fut done) futures done)
    (done ++ futures).
Proof.
  induction futures as [|fut futures IH]; intros done; simpl.
  - now rewrite app_nil_r.
  - rewrite IH, insert_completed_perm. simpl. apply Permutation_middle.
Qed.

Lemma fold_extend_urls completed : forall urls,
  fold_left extend_urls completed urls = urls ++ flat_map kept_locs (map snd completed).
Proof.
  induction completed as [|fut completed IH]; intros urls; simpl.
  - now rewrite app_nil_r.
  - rewrite IH. unfold extend_urls, kept_locs at 2.
    destruct (snd fut) as [content|]; [|reflexivity].
    destruct (Py.truthy content); [now rewrite <- app_assoc | reflexivity].
Qed.

Lemma responses_from_network w w' n urls :
  (forall m u, network w' m u = network w m u) ->
  responses_from w' n urls = responses_from w n urls.
Proof.
  intros Hnet. revert n. induction urls as [|u urls IH]; intros n; simpl; [reflexivity|].
  now rewrite IH, Hnet.
Qed.

Lemma mapM_fetch_run urls : forall w,
  mapM fetch_sitemap_content urls w =
  (Return (responses_from w (clock w) urls), advance (length urls) w).
Proof.
  induction urls as [|u urls IH]; intros w; simpl.
  - unfold ret. now rewrite advance_0.
  - unfold bind at 1.
    change (fetch_sitemap_content u w) with (Return (network w (clock w) u), tick w).
    unfold bind at 1. rewrite IH. unfold ret. f_equal.
    + do 2 f_equal. now apply responses_from_network.
    + rewrite tick_advance, advance_advance. f_equal. lia.
Qed.

Lemma responses_from_length w n urls : length (responses_from w n urls) = length urls.
Proof. revert n. induction urls as [|u urls IH]; intros n; simpl; congruence. Qed.

Lemma map_snd_combine_seq {A} (l : list A) n : map snd (combine (seq n (length l)) l) = l.
Proof. revert n. induction l as [|x l IH]; intros n; simpl; [reflexivity|]. now rewrite IH. Qed.

(** The crawl, request by request. *)
Lemma crawl_exact w :
  get_all_blog_page_urls w =
  (Return (fold_left extend_urls
             (fold_left (fun done fut => insert_completed (finished w) fut done)
                (combine (seq 0 (length (child_sitemaps w)))
                   (responses_from w (S (clock w)) (child_sitemaps w))) [])
             []),
   after_crawl w).
Proof.
  unfold get_all_blog_page_urls, get_sitemap_urls, after_crawl, child_sitemaps.
  unfold bind at 1. unfold bind at 1. unfold requests_get at 1.
  assert (Hrest : forall sitemap_urls,
            bind (mapM fetch_sitemap_content sitemap_urls)
              (fun contents =>
                 bind (as_completed (combine (seq 0 (length contents)) contents))
                   (fun completed => ret (fold_left extend_urls completed [])))
              (tick w) =
            (Return (fold_left extend_urls
                       (fold_left (fun done fut => insert_completed (finished w) fut done)
                          (combine (seq 0 (length sitemap_urls))
                             (responses_from w (S (clock w)) sitemap_urls)) [])
                       []),
             advance (1 + length sitemap_urls) w)).
  { intros sitemap_urls. unfold bind at 1. rewrite mapM_fetch_run.
    unfold bind, as_completed, ret. rewrite responses_from_length.
    rewrite (@responses_from_network w (tick w)) by reflexivity.
    f_equal. rewrite tick_advance, advance_advance. f_equal. lia. }
  destruct (network w (clock w) MAIN_SITEMAP) as [content|]; unfold ret; apply Hrest.
Qed.

Lemma candidates_exact w :
  candidates w =
  fold_left extend_urls
    (fold_left (fun done fut => insert_completed (finished w) fut done)
       (combine (seq 0 (length (child_sitemaps w)))
          (responses_from w (S (clock w)) (child_sitemaps w))) [])
    [].
Proof. unfold candidates. now rewrite crawl_exact. Qed.

(** The candidates are what the child sitemaps contribute, in the order in
    which their fetches complete. *)
Lemma candidates_perm w :
  Permutation (candidates w)
    (flat_map kept_locs (responses_from w (S (clock w)) (child_sitemaps w))).
Proof.
  rewrite candidates_exact, fold_extend_urls. simpl.
  apply Permutation_flat_map.
  etransitivity; [apply Permutation_map, as_completed_perm|]. simpl.
  rewrite <- (responses_from_length w (S (clock w)) (child_sitemaps w)).
  now rewrite map_snd_combine_seq.
Qed.

Lemma kept_locs_keyword content u : In u (kept_locs content) -> has_keyword u = true.
Proof.
  unfold kept_locs. destruct content as [c|]; [|intros []].
  destruct (Py.truthy c); [|intros []].
  intros Hin. apply filter_In in Hin. tauto.
Qed.

Lemma candidates_keyword w u : In u (candidates w) -> has_keyword u = true.
Proof.
  intros Hin. apply (Permutation_in _ (candidates_perm w)) in Hin.
  apply in_flat_map in Hin. destruct Hin as (content & _ & Hin).
  eapply kept_locs_keyword. exact Hin.
Qed.

(** [run_blog_search], with the state of the world at each stage. *)
Lemma run_blog_search_exact q w :
  run_blog_search q w =
  match candidates w with
  | [] => (Return [("error", VStr "No blog URLs found from sitemap.")], after_crawl w)
  | _ :: _ =>
      bind (matcher q (candidates w) (resolved w))
        (fun matched =>
           match matched with
           | None => ret [("message", VStr "No matching blog found.")]
           | Some (match_title, match_url) => fetch_and_extract match_title match_url
           end)
        (after_titles w)
  end.
Proof.
  unfold run_blog_search, after_titles, resolved, candidates.
  unfold bind at 1. rewrite crawl_exact. cbn [fst snd].
  rewrite <- candidates_exact.
  destruct (candidates w) as [|u urls]; [reflexivity|].
  unfold bind at 1. rewrite mapM_get_title_run.
  now rewrite (@titles_from_network _ w (after_crawl w)).
Qed.

End CrawlFacts.

(* ===================================================================== *)
(** ** More on Python strings *)
(* ===================================================================== *)

Module PyFacts.

Lemma slug_char_idem c :
  (if Ascii.eqb (Py.lower_char (if Ascii.eqb (Py.lower_char c) " " then "-"%char
                                else Py.lower_char c)) " "
   then "-"%char
   else Py.lower_char (if Ascii.eqb (Py.lower_char c) " " then "-"%char
                       else Py.lower_char c))
  = (if Ascii.eqb (Py.lower_char c) " " then "-"%char else Py.lower_char c).
Proof. destruct c as [[] [] [] [] [] [] [] []]; vm_compute; reflexivity. Qed.

Lemma slug_char_no_space c :
  Ascii.eqb (if Ascii.eqb (Py.lower_char c) " " then "-"%char else Py.lower_char c) " "
  = false.
Proof. destruct c as [[] [] [] [] [] [] [] []]; vm_compute; reflexivity. Qed.

Lemma contains_char_cons c x s :
  Py.contains (String c EmptyString) (String x s) =
  Ascii.eqb c x || Py.contains (String c EmptyString) s.
Proof.
  simpl. destruct (ascii_dec c x) as [->|Hne].
  - rewrite Ascii.eqb_refl. now destruct s.
  - now rewrite (proj2 (Ascii.eqb_neq c x) Hne).
Qed.

Lemma contains_char_nil c : Py.contains (String c EmptyString) EmptyString = false.
Proof. reflexivity. Qed.

Lemma rstrip_idem s : Py.rstrip (Py.rstrip s) = Py.rstrip s.
Proof.
  induction s as [|c s IH]; [reflexivity|]. simpl.
  destruct (Py.rstrip s) as [|c' r] eqn:E.
  - destruct (Py.isspace c) eqn:Hc; [reflexivity|]. simpl. now rewrite Hc.
  - simpl. simpl in IH. destruct (Py.rstrip r) as [|c'' r'] eqn:E'.
    + destruct (Py.isspace c'); [discriminate|]. now inversion IH.
    + now rewrite IH.
Qed.

Lemma lstrip_head s :
  Py.lstrip s = EmptyString \/
  exists c r, Py.lstrip s = String c r /\ Py.isspace c = false.
Proof.
  induction s as [|c s IH]; simpl; [now left|].
  destruct (Py.isspace c) eqn:Hc; [exact IH|]. right. now exists c, s.
Qed.

Lemma rstrip_head c s :
  Py.isspace c = false -> exists r, Py.rstrip (String c s) = String c r.
Proof.
  intros Hc. simpl. destruct (Py.rstrip s) as [|c' r]; [|now eexists].
  rewrite Hc. now eexists.
Qed.

(** [strip()] leaves nothing to strip. *)
Lemma strip_idem s : Py.strip (Py.strip s) = Py.strip s.
Proof.
  unfold Py.strip. destruct (lstrip_head s) as [-> | (c & r & -> & Hc)]; [reflexivity|].
  destruct (rstrip_head c r Hc) as [r' E]. rewrite E at 1.
  simpl Py.lstrip. rewrite Hc, <- E. apply rstrip_idem.
Qed.

Lemma slice_to_length n s :
  String.length (Py.slice_to n s) = Nat.min n (String.length s).
Proof.
  revert s. induction n as [|n IH]; intros [|c s]; simpl; try reflexivity.
  now rewrite IH.
Qed.

Lemma slice_to_prefix n s : String.prefix (Py.slice_to n s) s = true.
Proof.
  revert s. induction n as [|n IH]; intros [|c s]; simpl; try reflexivity.
  destruct (ascii_dec c c); [apply IH | contradiction].
Qed.

Lemma split_not_nil sep s : Py.split sep s <> [].
Proof.
  destruct s as [|c s]; simpl; [discriminate|].
  destruct (Ascii.eqb c sep); [discriminate|].
  destruct (Py.split sep s); discriminate.
Qed.

(** Splitting at a separator that is there: the parts before it, then the
    parts after it. *)
Lemma split_app sep p s :
  Py.split sep (p ++ String sep s) = Py.split sep p ++ Py.split sep s.
Proof.
  induction p as [|c p IH]; simpl.
  - now rewrite Ascii.eqb_refl.
  - destruct (Ascii.eqb c sep); [now rewrite IH|].
    rewrite IH. pose proof (split_not_nil sep p).
    destruct (Py.split sep p); [contradiction | reflexivity].
Qed.

Lemma split_no_sep sep s :
  Py.contains (String sep EmptyString) s = false -> Py.split sep s = [s].
Proof.
  induction s as [|c s IH]; [reflexivity|].
  rewrite contains_char_cons, orb_false_iff. intros [Hc Hs]. simpl.
  rewrite Ascii.eqb_sym, Hc, (IH Hs). reflexivity.
Qed.

End PyFacts.

(* ===================================================================== *)
(** ** More of the pipeline *)
(* ===================================================================== *)

Section SearchFacts.
Context `{Collaborators}.

Lemma slugify_cons c t :
  slugify (String c t) =
  String (if Ascii.eqb (Py.lower_char c) " " then "-"%char else Py.lower_char c)
    (slugify t).
Proof. reflexivity. Qed.

Lemma slugify_length text : String.length (slugify text) = String.length text.
Proof. induction text as [|c t IH]; [reflexivity|]. rewrite slugify_cons. simpl. now rewrite IH. Qed.

(** A title in the title map was resolved for the URL it maps to. *)
Lemma build_title_url_map_value results : forall t u,
  dict_get (build_title_url_map results) t = Some u -> In (Some (t, u)) results.
Proof.
  induction results as [|result results IH] using rev_ind; intros t u; [discriminate|].
  rewrite build_title_url_map_snoc, in_app_iff.
  destruct result as [[t' u']|]; [|intros Hget; left; now apply IH].
  destruct (string_dec t' t) as [->|Hne].
  - rewrite dict_get_set_same. intros [= ->]. right. now left.
  - rewrite (dict_get_set_other _ _ Hne). intros Hget. left. now apply IH.
Qed.

Lemma titles_from_In w urls : forall n t u,
  In (Some (t, u)) (titles_from w n urls) -> In u urls.
Proof.
  induction urls as [|url urls IH]; intros n t u; simpl; [tauto|].
  intros [Hhere | Hthere]; [|right; eapply IH; exact Hthere].
  left. unfold title_at in Hhere.
  destruct (network w n url) as [text|]; [|discriminate].
  destruct (tag_or _ _); [|discriminate]. now inversion Hhere.
Qed.

Lemma titles_from_length w urls : forall n, length (titles_from w n urls) = length urls.
Proof. induction urls as [|u urls IH]; intros n; simpl; congruence. Qed.

Lemma titles_from_nth w urls : forall n i u,
  nth_error urls i = Some u ->
  nth_error (titles_from w n urls) i = Some (title_at w (n + i) u).
Proof.
  induction urls as [|url urls IH]; intros n [|i] u; simpl; try discriminate.
  - intros [= ->]. now rewrite Nat.add_0_r.
  - intros Hnth. rewrite (IH (S n) i u Hnth). do 2 f_equal. lia.
Qed.

(** The lookups of the matcher succeed: the matching steps as a case
    analysis without [KeyError]. *)
Lemma matcher_cases q urls results w :
  (exists best match_url,
     Difflib.get_close_matches (slugify q) (dict_keys (build_slug_url_map urls)) (1 # 2)
     = [best] /\
     dict_get (build_slug_url_map urls) best = Some match_url /\
     matcher q urls results w =
     (Return (Some (match title_at w (clock w) match_url with
                    | Some (title_text, _) => title_text
                    | None => ("Matched via URL: " ++ best)%string
                    end, match_url)), tick w)) \/
  (Difflib.get_close_matches (slugify q) (dict_keys (build_slug_url_map urls)) (1 # 2)
   = [] /\
   exists t u,
     Difflib.get_close_matches q (dict_keys (build_title_url_map results)) (3 # 5) = [t] /\
     dict_get (build_title_url_map results) t = Some u /\
     matcher q urls results w = (Return (Some (t, u)), w)) \/
  (Difflib.get_close_matches (slugify q) (dict_keys (build_slug_url_map urls)) (1 # 2)
   = [] /\
   Difflib.get_close_matches q (dict_keys (build_title_url_map results)) (3 # 5) = [] /\
   matcher q urls results w = (Return None, w)).
Proof.
  rewrite matcher_run.
  destruct (DifflibFacts.get_close_matches_cases (slugify q)
              (dict_keys (build_slug_url_map urls)) (1 # 2))
    as [Hs | (slug & Hs & Hin & _)]; rewrite Hs.
  - right.
    destruct (DifflibFacts.get_close_matches_cases q
                (dict_keys (build_title_url_map results)) (3 # 5))
      as [Ht | (t & Ht & Hin & _)]; rewrite Ht.
    + right. now repeat split.
    + left. split; [reflexivity|].
      destruct (In_keys_dict_get _ _ Hin) as [u Hu]. rewrite Hu.
      now exists t, u.
  - left. destruct (In_keys_dict_get _ _ Hin) as [u Hu]. rewrite Hu.
    now exists slug, u.
Qed.

(** The URL of a match is one of the candidates the titles were resolved
    for. *)
Lemma matcher_url_In q urls w0 n w t u :
  fst (matcher q urls (titles_from w0 n urls) w) = Return (Some (t, u)) -> In u urls.
Proof.
  destruct (matcher_cases q urls (titles_from w0 n urls) w)
    as [(best & mu & _ & Hget & ->) | [(_ & t' & u' & _ & Hget & ->) | (_ & _ & ->)]];
    simpl; intros Hm; inversion Hm; subst.
  - now apply build_slug_url_map_value in Hget.
  - apply build_title_url_map_value in Hget. eapply titles_from_In. exact Hget.
Qed.

(** What the matcher does to the world: one more request on a slug match. *)
Lemma matcher_clock q urls results w :
  clock (snd (matcher q urls results w)) =
  clock w +
  match Difflib.get_close_matches (slugify q) (dict_keys (build_slug_url_map urls))
          (1 # 2) with
  | _ :: _ => 1
  | [] => 0
  end.
Proof.
  destruct (matcher_cases q urls results w)
    as [(best & mu & -> & _ & ->) | [(-> & t' & u' & _ & _ & ->) | (-> & _ & ->)]];
    simpl; lia.
Qed.

Lemma matcher_network q urls results w :
  network (snd (matcher q urls results w)) = network w.
Proof.
  destruct (matcher_cases q urls results w)
    as [(best & mu & _ & _ & ->) | [(_ & t' & u' & _ & _ & ->) | (_ & _ & ->)]];
    reflexivity.
Qed.

(** [run_blog_search] once there are candidates: the match, then the page
    of the match. *)
Lemma run_blog_search_outcome q w :
  candidates w <> [] ->
  run_blog_search q w =
  match fst (matcher q (candidates w) (resolved w) (after_titles w)) with
  | Return (Some (t, u)) =>
      fetch_and_extract t u (snd (matcher q (candidates w) (resolved w) (after_titles w)))
  | Return None =>
      (Return [("message", VStr "No matching blog found.")],
       snd (matcher q (candidates w) (resolved w) (after_titles w)))
  | Raise e => (Raise e, snd (matcher q (candidates w) (resolved w) (after_titles w)))
  end.
Proof.
  intros Hne. rewrite run_blog_search_exact.
  destruct (candidates w) as [|u0 urls] eqn:E; [contradiction|].
  unfold bind.
  destruct (matcher q (u0 :: urls) (resolved w) (after_titles w)) as [[[[t u]|]|e] w'];
    reflexivity.
Qed.

Lemma resolved_titles w :
  resolved w = titles_from w (clock (after_crawl w)) (candidates w).
Proof. unfold resolved. now rewrite crawl_exact. Qed.

Lemma join_all_raise match_url srcs e :
  join_all match_url srcs = Raise e ->
  exists src, In src srcs /\ urljoin match_url src = Raise e.
Proof.
  induction srcs as [|src srcs IH]; simpl; [discriminate|].
  destruct (urljoin match_url src) as [full_src|e'] eqn:E.
  - destruct (join_all match_url srcs) as [rest|e'']; [discriminate|].
    intros [= ->]. destruct (IH eq_refl) as (s & Hin & Hs). exists s. auto.
  - intros [= ->]. exists src. auto.
Qed.

Lemma present_srcs_In images src :
  In src (present_srcs images) <-> In (Some src) images /\ src <> EmptyString.
Proof.
  unfold present_srcs. rewrite in_flat_map. split.
  - intros ([img|] & Hin & Hsrc); [|contradiction].
    destruct img as [|c img]; simpl in Hsrc; [contradiction|].
    destruct Hsrc as [<-|[]]. split; [assumption|discriminate].
  - intros [Hin Hne]. exists (Some src). split; [assumption|].
    destruct src as [|c src]; [contradiction|]. now left.
Qed.

(** A string with nothing in common with the empty string. *)
Lemma ratio_empty x : x <> EmptyString -> (Difflib.ratio x EmptyString == 0)%Q.
Proof.
  intros Hne. unfold Difflib.ratio.
  rewrite DifflibFacts.sum_sizes_get_matching_blocks.
  pose proof (DifflibBounds.raw_blocks_common (list_ascii_of_string x)
                (list_ascii_of_string EmptyString)) as Hc.
  pose proof (DifflibBounds.common_le_r (list_ascii_of_string x)
                (list_ascii_of_string EmptyString)) as Hr.
  change (length (list_ascii_of_string EmptyString)) with 0 in Hr.
  assert (E : Difflib.sum_sizes
                (Difflib.raw_blocks (list_ascii_of_string x)
                   (list_ascii_of_string EmptyString)) = 0) by lia.
  rewrite E. unfold Difflib._calculate_ratio.
  rewrite DifflibFacts.length_list_ascii_of_string.
  destruct x as [|c x]; [contradiction|]. simpl. reflexivity.
Qed.

Lemma hyphen_slug_nonempty u slug : hyphen_slug u = Some slug -> slug <> EmptyString.
Proof.
  unfold hyphen_slug. destruct (slug_of_url u) as [s|]; [|discriminate].
  destruct (Py.contains "-" s) eqn:E; [|discriminate].
  intros [= <-] ->. discriminate.
Qed.

(** Completed futures: in submission order when every future finishes no
    earlier than those submitted before it. *)
Lemma insert_completed_last {A} (at_ : nat -> nat) (fut : nat * A) done :
  Forall (fun d => at_ (fst d) <= at_ (fst fut)) done ->
  insert_completed at_ fut done = done ++ [fut].
Proof.
  induction 1 as [|d done Hd _ IH]; simpl; [reflexivity|].
  apply Nat.leb_le in Hd. now rewrite Hd, IH.
Qed.

Lemma as_completed_in_order {A} (at_ : nat -> nat) (futures : list (nat * A)) :
  forall done,
  (forall d fut, In d (done ++ futures) -> In fut futures ->
                 fst d <= fst fut -> at_ (fst d) <= at_ (fst fut)) ->
  StronglySorted (fun d fut => fst d <= fst fut) (done ++ futures) ->
  fold_left (fun done fut => insert_completed at_ fut done) futures done
  = done ++ futures.
Proof.
  induction futures as [|fut futures IH]; intros done Hmono Hsorted; simpl.
  - now rewrite app_nil_r.
  - rewrite insert_completed_last.
    + rewrite IH; rewrite <- app_assoc; simpl; [reflexivity| |assumption].
      intros d f Hd Hf. apply Hmono; [assumption|now right].
    + apply Forall_forall. intros d Hd.
      apply Hmono; [apply in_or_app; now left | now left |].
      clear - Hsorted Hd. induction done as [|d0 done IH]; [contradiction|].
      simpl in Hsorted. inversion Hsorted as [|? ? Hrest Hall]; subst.
      destruct Hd as [->|Hd]; [|now apply IH].
      rewrite Forall_forall in Hall. apply Hall. apply in_or_app. right. now left.
Qed.

Lemma combine_seq_sorted {A} (l : list A) : forall n,
  StronglySorted (fun d fut : nat * A => fst d <= fst fut) (combine (seq n (length l)) l).
Proof.
  induction l as [|x l IH]; intros n; simpl; constructor; [apply IH|].
  apply Forall_forall. intros [i y] Hin. apply in_combine_l in Hin.
  apply in_seq in Hin. simpl. lia.
Qed.

(** [extract_blog_content] on a page with no block of text. *)
Lemma extract_blog_content_nothing soup :
  match tag_or (select_one_container soup) (body soup) with
  | Some content_blocks => Forall (fun b => tag_text b = EmptyString) content_blocks
  | None => True
  end ->
  extract_blog_content soup = None \/ extract_blog_content soup = Some EmptyString.
Proof.
  unfold extract_blog_content.
  destruct (tag_or (select_one_container soup) (body soup)) as [blocks|]; [|now left].
  intros Hall. right.
  assert (E : filter (fun b => Py.truthy (tag_text b)) blocks = []).
  { induction Hall as [|b blocks Hb _ IH]; simpl; [reflexivity|]. now rewrite Hb. }
  now rewrite E.
Qed.

Lemma extract_blog_content_stripped soup c :
  extract_blog_content soup = Some c -> Py.strip c = c.
Proof.
  unfold extract_blog_content.
  destruct (tag_or (select_one_container soup) (body soup)); [|discriminate].
  intros [= <-]. apply PyFacts.strip_idem.
Qed.

(** The keys of the two maps. *)
Lemma build_title_url_map_keys results t :
  In t (dict_keys (build_title_url_map results)) <-> exists u, In (Some (t, u)) results.
Proof.
  induction results as [|result results IH] using rev_ind.
  - simpl. split; [tauto | intros [u []]].
  - rewrite build_title_url_map_snoc. destruct result as [[t' u']|].
    + rewrite dict_keys_set_In, IH. split.
      * intros [-> | [u Hu]].
        -- exists u'. apply in_or_app. right. now left.
        -- exists u. apply in_or_app. now left.
      * intros [u Hu]. apply in_app_or in Hu. destruct Hu as [Hu | [Hu | []]].
        -- right. now exists u.
        -- left. now inversion Hu.
    + rewrite IH. split; intros [u Hu]; exists u.
      * apply in_or_app. now left.
      * apply in_app_or in Hu. destruct Hu as [Hu | [Hu | []]];
          [assumption | discriminate].
Qed.

Lemma build_slug_url_map_keys urls slug :
  In slug (dict_keys (build_slug_url_map urls)) <->
  exists u, In u urls /\ hyphen_slug u = Some slug.
Proof.
  induction urls as [|url urls IH] using rev_ind.
  - simpl. split; [tauto | intros (u & [] & _)].
  - rewrite build_slug_url_map_snoc. destruct (hyphen_slug url) as [s|] eqn:E.
    + rewrite dict_keys_set_In, IH. split.
      * intros [-> | (u & Hu & Hs)].
        -- exists url. split; [apply in_or_app; right; now left | exact E].
        -- exists u. split; [apply in_or_app; now left | exact Hs].
      * intros (u & Hu & Hs). apply in_app_or in Hu. destruct Hu as [Hu | [<- | []]].
        -- right. now exists u.
        -- left. congruence.
    + rewrite IH. split; intros (u & Hu & Hs); exists u; (split; [|exact Hs]).
      * apply in_or_app. now left.
      * apply in_app_or in Hu. destruct Hu as [Hu | [<- | []]];
          [assumption | congruence].
Qed.

(** [run_blog_search], outcome by outcome. *)
Lemma run_blog_search_cases q w :
  (candidates w = [] /\
   fst (run_blog_search q w) = Return [("error", VStr "No blog URLs found from sitemap.")]) \/
  (candidates w <> [] /\
   fst (matcher q (candidates w) (resolved w) (after_titles w)) = Return None /\
   fst (run_blog_search q w) = Return [("message", VStr "No matching blog found.")]) \/
  (exists t u,
     candidates w <> [] /\
     fst (matcher q (candidates w) (resolved w) (after_titles w)) = Return (Some (t, u)) /\
     match network w (clock (snd (matcher q (candidates w) (resolved w) (after_titles w))))
             u with
     | None =>
         fst (run_blog_search q w) =
         Return [("error", VStr ("Failed to fetch blog HTML for " ++ u ++ ".")%string)]
     | Some text =>
         match extract_blog_content (html_parser text) with
         | Some (String c content' as content) =>
             match join_all u (present_srcs (firstn 3 (select_img (html_parser text)))) with
             | Return image_urls =>
                 fst (run_blog_search q w) =
                 Return [("title", VStr t);
                         ("url", VStr u);
                         ("content_preview", VStr (Py.slice_to 300 content));
                         ("full_content", VStr content);
                         ("image_urls", VList image_urls)]
             | Raise e => fst (run_blog_search q w) = Raise e
             end
         | _ =>
             fst (run_blog_search q w) =
             Return [("error", VStr "Failed to extract blog content.")]
         end
     end).
Proof.
  destruct (candidates w) as [|u0 urls] eqn:E.
  - left. split; [reflexivity|]. now rewrite run_blog_search_exact, E.
  - right. assert (Hne : candidates w <> []) by (rewrite E; discriminate).
    rewrite <- E. rewrite (run_blog_search_outcome q w Hne).
    pose proof (matcher_network q (candidates w) (resolved w) (after_titles w)) as Hnet.
    destruct (matcher_no_raise q (candidates w) (resolved w) (after_titles w)) as [m Hm].
    rewrite Hm. destruct m as [[t u]|].
    + right. exists t, u. split; [exact Hne|]. split; [reflexivity|].
      rewrite fetch_and_extract_run, Hnet. cbn [fst].
      change (network (after_titles w)) with (network w).
      destruct (network w _ u) as [text|]; [|reflexivity].
      destruct (extract_blog_content (html_parser text)) as [[|c content']|];
        try reflexivity.
      rewrite image_loop_join_all.
      now destruct (join_all u _).
    + left. now repeat split.
Qed.

End SearchFacts.

(* ===================================================================== *)
(** ** Further properties of the pipeline *)
(* ===================================================================== *)

Section Further.
Context `{Collaborators}.

(** X1: [slugify] yields a normal form: a slug is its own slug, it is as
    long as the text it is made from, and it has no space in it. *)
Theorem slugify_is_a_normal_form text :
  slugify (slugify text) = slugify text /\
  String.length (slugify text) = String.length text /\
  Py.contains " " (slugify text) = false.
Proof.
  induction text as [|c t (IH1 & IH2 & IH3)]; [now repeat split|].
  rewrite slugify_cons. split; [|split].
  - rewrite slugify_cons, IH1. f_equal. apply PyFacts.slug_char_idem.
  - simpl. now rewrite IH2.
  - rewrite PyFacts.contains_char_cons, IH3, Ascii.eqb_sym, PyFacts.slug_char_no_space.
    reflexivity.
Qed.

(** X2: the crawl never raises and sends one request for the root sitemap
    and one for every child sitemap the root lists; the URLs it returns are,
    up to the order in which the fetches complete, the URLs with a keyword
    of the child sitemaps that were fetched and are not empty. *)
Theorem crawl_collects_the_child_sitemaps w :
  get_all_blog_page_urls w =
  (Return (candidates w), advance (1 + length (child_sitemaps w)) w) /\
  Permutation (candidates w)
    (flat_map kept_locs (responses_from w (S (clock w)) (child_sitemaps w))).
Proof.
  split; [|apply candidates_perm].
  rewrite candidates_exact. apply crawl_exact.
Qed.

(** X3: every URL the crawl returns has one of the six keywords in its
    lowercased text. *)
Theorem candidates_have_a_keyword w :
  Forall (fun u => exists keyword,
                     In keyword keywords /\ Py.contains keyword (Py.lower u) = true)
    (candidates w).
Proof.
  apply Forall_forall. intros u Hin. apply candidates_keyword in Hin.
  unfold has_keyword in Hin. apply existsb_exists in Hin. exact Hin.
Qed.

(** X4: when the fetch of every child sitemap completes no earlier than
    the fetches submitted before it, [as_completed], taken to yield the
    futures by completion instant, yields them in the order of submission,
    and the crawl returns the kept URLs in the order of the root sitemap. *)
Theorem crawl_keeps_the_sitemap_order w :
  (forall i j, i <= j -> j < length (child_sitemaps w) ->
               finished w i <= finished w j) ->
  candidates w =
  flat_map kept_locs (responses_from w (S (clock w)) (child_sitemaps w)).
Proof.
  intros Hmono. rewrite candidates_exact.
  rewrite <- (responses_from_length w (S (clock w)) (child_sitemaps w)) at 1.
  rewrite as_completed_in_order.
  - simpl. rewrite fold_extend_urls. simpl. now rewrite map_snd_combine_seq.
  - simpl. intros d [j y] _ Hfut Hle. apply Hmono; [assumption|].
    apply in_combine_l in Hfut. apply in_seq in Hfut.
    rewrite responses_from_length in Hfut. simpl. lia.
  - simpl. apply combine_seq_sorted.
Qed.

(** X5: the number of requests of a search: one for the root sitemap, one
    for each child sitemap, one for the title of each candidate, and then
    two on a slug match (the title again and the page), one on a title
    match (the page) and none when nothing matches. *)
Theorem requests_of_a_search q w :
  clock (snd (run_blog_search q w)) =
  clock w + 1 + length (child_sitemaps w) + length (candidates w)
  + requests_after_titles q w.
Proof.
  unfold requests_after_titles.
  destruct (candidates w) as [|u0 urls] eqn:E.
  - rewrite run_blog_search_exact, E, resolved_titles, E. simpl. lia.
  - assert (Hne : candidates w <> []) by (rewrite E; discriminate).
    rewrite <- E. rewrite (run_blog_search_outcome q w Hne).
    assert (Hw : clock (after_titles w) =
                 clock w + 1 + length (child_sitemaps w) + length (candidates w))
      by (simpl; lia).
    destruct (matcher_cases q (candidates w) (resolved w) (after_titles w))
      as [(best & mu & -> & _ & ->) | [(-> & t' & u' & -> & _ & ->) | (-> & -> & ->)]];
      cbn [fst snd]; try rewrite fetch_and_extract_run; cbn [fst snd clock tick];
      rewrite ?Hw; lia.
Qed.

(** X6: the URL of a returned result is one of the URLs the crawl returned,
    so it has a keyword; no other URL is ever reported. *)
Theorem returned_url_is_a_candidate q w d v :
  fst (run_blog_search q w) = Return d ->
  dict_get d "url" = Some v ->
  exists u, v = VStr u /\ In u (candidates w) /\ has_keyword u = true.
Proof.
  intros Hrun Hget.
  destruct (run_blog_search_cases q w)
    as [(_ & Hd) | [(_ & _ & Hd) | (t & u & Hne & Hm & Hd)]].
  - rewrite Hd in Hrun. inversion Hrun; subst. discriminate.
  - rewrite Hd in Hrun. inversion Hrun; subst. discriminate.
  - rewrite resolved_titles in Hm. pose proof (matcher_url_In _ _ _ _ _ Hm) as Hin.
    destruct (network w _ u) as [text|];
      [destruct (extract_blog_content (html_parser text)) as [[|c content']|];
       [| destruct (join_all u _) |] |];
      rewrite Hd in Hrun; inversion Hrun; subst; try discriminate.
    cbn in Hget. inversion Hget; subst.
    exists u. split; [reflexivity|]. split; [exact Hin|].
    now apply candidates_keyword with (w := w).
Qed.

(** X7: the content of a returned result is not empty and has no white
    space at either end, and the preview is its first 300 characters, or
    all of it when it is shorter. *)
Theorem returned_content_is_stripped q w d c :
  fst (run_blog_search q w) = Return d ->
  dict_get d "full_content" = Some (VStr c) ->
  c <> EmptyString /\ Py.strip c = c /\
  dict_get d "content_preview" = Some (VStr (Py.slice_to 300 c)) /\
  String.length (Py.slice_to 300 c) = Nat.min 300 (String.length c) /\
  String.prefix (Py.slice_to 300 c) c = true.
Proof.
  intros Hrun Hget.
  destruct (run_blog_search_cases q w)
    as [(_ & Hd) | [(_ & _ & Hd) | (t & u & Hne & Hm & Hd)]].
  - rewrite Hd in Hrun. inversion Hrun; subst. discriminate.
  - rewrite Hd in Hrun. inversion Hrun; subst. discriminate.
  - destruct (network w _ u) as [text|];
      [destruct (extract_blog_content (html_parser text)) as [[|c0 content']|] eqn:Hex;
       [| destruct (join_all u _) |] |];
      rewrite Hd in Hrun; inversion Hrun; subst; try discriminate.
    cbn in Hget. inversion Hget; subst.
    split; [discriminate|]. split; [exact (extract_blog_content_stripped _ Hex)|].
    split; [reflexivity|].
    split; [apply PyFacts.slice_to_length | apply PyFacts.slice_to_prefix].
Qed.

(** X8: [run_blog_search] raises in one way only: [urljoin] raises on a
    [src] that is there and not empty in one of the first three images of
    the page of a candidate.  The endpoint then answers 500 with "An
    internal server error occurred: " and the message of the exception. *)
Theorem search_raises_only_in_urljoin q w e :
  fst (run_blog_search q w) = Raise e ->
  (exists u n text src,
     In u (candidates w) /\ network w n u = Some text /\
     In (Some src) (firstn 3 (select_img (html_parser text))) /\
     src <> EmptyString /\ urljoin u src = Raise e) /\
  fst (search_blog_endpoint q w) =
  HTTP500 (VStr ("An internal server error occurred: " ++ e)%string).
Proof.
  intros Hrun. split; [|now rewrite endpoint_respond, Hrun].
  destruct (run_blog_search_cases q w)
    as [(_ & Hd) | [(_ & _ & Hd) | (t & u & Hne & Hm & Hd)]];
    try (rewrite Hd in Hrun; discriminate).
  rewrite resolved_titles in Hm. pose proof (matcher_url_In _ _ _ _ _ Hm) as Hin.
  destruct (network w _ u) as [text|] eqn:Hnet;
    [destruct (extract_blog_content (html_parser text)) as [[|c0 content']|];
     [| destruct (join_all u _) as [imgs|e'] eqn:Hjoin |] |];
    rewrite Hd in Hrun; inversion Hrun; subst.
  destruct (join_all_raise _ _ Hjoin) as (src & Hsrc & Hraise).
  apply present_srcs_In in Hsrc. destruct Hsrc as [Himg Hsrc].
  eexists u, _, text, src. repeat split; eassumption.
Qed.

(** X9: whenever a candidate has a slug with a hyphen whose ratio to the
    slugified query is at least 0.5, the match is made by slug, with one
    more request for the title: the slug chosen is one with the greatest
    ratio among the slugs of the candidates and, among those with that
    ratio, the greatest as a string. *)
Theorem slug_match_is_the_closest_slug q urls results w u0 slug0 :
  In u0 urls -> hyphen_slug u0 = Some slug0 ->
  (1 # 2 <= Difflib.ratio slug0 (slugify q))%Q ->
  exists best match_url,
    In match_url urls /\ hyphen_slug match_url = Some best /\
    (1 # 2 <= Difflib.ratio best (slugify q))%Q /\
    (forall u slug, In u urls -> hyphen_slug u = Some slug ->
       (Difflib.ratio slug (slugify q) <= Difflib.ratio best (slugify q))%Q /\
       ((Difflib.ratio slug (slugify q) == Difflib.ratio best (slugify q))%Q ->
        Py.str_gt slug best = false)) /\
    matcher q urls results w =
    (Return (Some (match title_at w (clock w) match_url with
                   | Some (title_text, _) => title_text
                   | None => ("Matched via URL: " ++ best)%string
                   end, match_url)), tick w).
Proof.
  intros Hin0 Hs0 Hr0.
  destruct (matcher_cases q urls results w)
    as [(best & mu & Hg & Hget & Hm) | [(Hnil & _) | (Hnil & _)]].
  - exists best, mu. destruct (build_slug_url_map_value _ _ Hget) as [Hin Hs].
    destruct (DifflibBounds.get_close_matches_best _ _ _ Hg) as (_ & _ & Hr & Hbest).
    split; [exact Hin|]. split; [exact Hs|]. split; [exact Hr|]. split; [|exact Hm].
    intros u slug Hu Hslug. apply Hbest. apply build_slug_url_map_keys. eauto.
  - exfalso. rewrite DifflibBounds.get_close_matches_nil_iff in Hnil.
    apply (Qlt_not_le _ _ (Hnil slug0 (proj2 (build_slug_url_map_keys urls slug0)
                                         (ex_intro _ u0 (conj Hin0 Hs0)))) Hr0).
  - exfalso. rewrite DifflibBounds.get_close_matches_nil_iff in Hnil.
    apply (Qlt_not_le _ _ (Hnil slug0 (proj2 (build_slug_url_map_keys urls slug0)
                                         (ex_intro _ u0 (conj Hin0 Hs0)))) Hr0).
Qed.

(** X10: when no slug reaches 0.5, the match is made by title and sends no
    request: there is none when every resolved title is below 0.6, and
    otherwise the title chosen is a resolved one with the greatest ratio to
    the query as typed and, among those with that ratio, the greatest as a
    string, with the URL it was resolved for. *)
Theorem title_match_is_the_closest_title q urls results w :
  (forall u slug, In u urls -> hyphen_slug u = Some slug ->
                  (Difflib.ratio slug (slugify q) < 1 # 2)%Q) ->
  ((forall t u, In (Some (t, u)) results -> (Difflib.ratio t q < 3 # 5)%Q) /\
   matcher q urls results w = (Return None, w)) \/
  (exists t u,
     In (Some (t, u)) results /\ (3 # 5 <= Difflib.ratio t q)%Q /\
     (forall t' u', In (Some (t', u')) results ->
        (Difflib.ratio t' q <= Difflib.ratio t q)%Q /\
        ((Difflib.ratio t' q == Difflib.ratio t q)%Q -> Py.str_gt t' t = false)) /\
     matcher q urls results w = (Return (Some (t, u)), w)).
Proof.
  intros Hslugs.
  assert (Hnil : Difflib.get_close_matches (slugify q)
                   (dict_keys (build_slug_url_map urls)) (1 # 2) = []).
  { apply DifflibBounds.get_close_matches_nil_iff. intros slug Hin.
    apply build_slug_url_map_keys in Hin. destruct Hin as (u & Hu & Hs). eauto. }
  destruct (matcher_cases q urls results w)
    as [(best & mu & Hg & _) | [(_ & t & u & Hg & Hget & Hm) | (_ & Hg & Hm)]].
  - rewrite Hnil in Hg. discriminate.
  - right. exists t, u.
    destruct (DifflibBounds.get_close_matches_best _ _ _ Hg) as (_ & _ & Hr & Hbest).
    split; [now apply build_title_url_map_value|]. split; [exact Hr|].
    split; [|exact Hm].
    intros t' u' Hin. apply Hbest. apply build_title_url_map_keys. eauto.
  - left. split; [|exact Hm]. intros t u Hin.
    rewrite DifflibBounds.get_close_matches_nil_iff in Hg. apply Hg.
    apply build_title_url_map_keys. eauto.
Qed.

(** X11: the empty query is matched by title only, and only with a page
    whose heading is empty: the match is the last candidate that resolved
    to the empty title, and there is none when no candidate did. *)
Theorem empty_query_matches_an_empty_title urls results w :
  matcher EmptyString urls results w =
  (Return (match last_url_of EmptyString results with
           | Some u => Some (EmptyString, u)
           | None => None
           end), w).
Proof.
  rewrite matcher_run.
  assert (Hnil : Difflib.get_close_matches (slugify EmptyString)
                   (dict_keys (build_slug_url_map urls)) (1 # 2) = []).
  { apply DifflibBounds.get_close_matches_nil_iff. intros slug Hin.
    apply build_slug_url_map_keys in Hin. destruct Hin as (u & _ & Hs).
    apply hyphen_slug_nonempty in Hs.
    change (slugify EmptyString) with EmptyString.
    rewrite (ratio_empty Hs). reflexivity. }
  rewrite Hnil, <- build_title_url_map_get.
  destruct (dict_get (build_title_url_map results) EmptyString) as [u|] eqn:Hget.
  - rewrite DifflibFacts.get_close_matches_exact;
      [now rewrite Hget | discriminate | now apply dict_get_In_keys with (v := u)].
  - rewrite DifflibFacts.get_close_matches_none; [reflexivity|].
    intros t Hin.
    assert (Hne : t <> EmptyString).
    { intros ->. now apply dict_get_None_keys in Hget. }
    rewrite (ratio_empty Hne). reflexivity.
Qed.

(** X12: a match is never much longer or shorter than the query: a slug
    that is matched is at most three times as long as the query and at
    least a third of it, and a title that is matched has between 3/7 and
    7/3 of the length of the query. *)
Theorem match_has_a_comparable_length q urls results w t u :
  fst (matcher q urls results w) = Return (Some (t, u)) ->
  (exists slug, hyphen_slug u = Some slug /\
                String.length slug <= 3 * String.length q /\
                String.length q <= 3 * String.length slug) \/
  (In (Some (t, u)) results /\
   3 * String.length t <= 7 * String.length q /\
   3 * String.length q <= 7 * String.length t).
Proof.
  assert (Hwin : forall cutoff a b,
             (cutoff <= Difflib.ratio a b)%Q ->
             (Qnum cutoff * Z.of_nat (String.length a + String.length b)
              <= 2 * Z.of_nat (Nat.min (String.length a) (String.length b))
                 * Z.pos (Qden cutoff))%Z).
  { intros cutoff a b Hr.
    assert (Hq : (cutoff <= Difflib.real_quick_ratio a b)%Q).
    { eapply Qle_trans; [exact Hr|]. eapply Qle_trans;
        [apply DifflibBounds.ratio_le_quick | apply DifflibBounds.quick_le_real_quick]. }
    unfold Difflib.real_quick_ratio in Hq.
    destruct (Nat.eq_dec (String.length a + String.length b) 0) as [E|Hne].
    - rewrite E. assert (E' : Nat.min (String.length a) (String.length b) = 0) by lia.
      rewrite E'. simpl. lia.
    - now apply DifflibFacts.calculate_ratio_lt in Hq. }
  pose proof (slugify_length q) as Hlen.
  destruct (matcher_cases q urls results w)
    as [(best & mu & Hg & Hget & ->) | [(_ & t' & u' & Hg & Hget & ->) | (_ & _ & ->)]];
    simpl; intros Hm; inversion Hm; subst.
  - left. exists best. destruct (build_slug_url_map_value _ _ Hget) as [_ Hs].
    split; [exact Hs|].
    destruct (DifflibFacts.get_close_matches_cases (slugify q)
                (dict_keys (build_slug_url_map urls)) (1 # 2))
      as [Hnil | (x & Hx & _ & Hr)]; rewrite Hg in *; [discriminate|].
    inversion Hx; subst x. apply Hwin in Hr. rewrite Hlen in Hr. cbn [Qnum Qden] in Hr. lia.
  - right. split; [now apply build_title_url_map_value|].
    destruct (DifflibFacts.get_close_matches_cases q
                (dict_keys (build_title_url_map results)) (3 # 5))
      as [Hnil | (x & Hx & _ & Hr)]; rewrite Hg in *; [discriminate|].
    inversion Hx; subst x. apply Hwin in Hr. cbn [Qnum Qden] in Hr. lia.
Qed.


(** X14: for a URL whose path ends with a part that is not empty and has no
    slash, followed by at most one slash, the slug is that part, and it is
    the last non-empty segment of the path. *)
Theorem slug_of_a_plain_path u prefix slug path :
  slug <> EmptyString -> Py.contains "/" slug = false ->
  path = (prefix ++ "/" ++ slug)%string \/ path = (prefix ++ "/" ++ slug ++ "/")%string ->
  urlparse_path u = Some path ->
  slug_of_url u = Some slug /\ last_nonempty_segment path = Some slug.
Proof.
  intros Hne Hslash Hpath Hu. rewrite (slug_of_url_parts _ Hu).
  unfold last_nonempty_segment.
  pose proof (PyFacts.split_not_nil "/" prefix) as Hprefix.
  assert (Hrev : exists before parts, rev (Py.split "/" prefix) = before :: parts).
  { destruct (rev (Py.split "/" prefix)) as [|before parts] eqn:E; [|now eauto].
    apply (f_equal (@rev string)) in E. rewrite rev_involutive in E. contradiction. }
  destruct Hrev as (before & parts & Hrev).
  assert (Hslug : String.eqb slug EmptyString = false) by now apply String.eqb_neq.
  assert (Htruthy : Py.truthy slug = true) by (destruct slug; [contradiction|reflexivity]).
  destruct Hpath as [-> | ->].
  - change (prefix ++ "/" ++ slug)%string with (prefix ++ String "/" slug)%string.
    rewrite PyFacts.split_app, (PyFacts.split_no_sep _ _ Hslash).
    rewrite filter_app, !rev_app_distr, Hrev. simpl. now rewrite Hslug, Htruthy.
  - change (prefix ++ "/" ++ slug ++ "/")%string
      with (prefix ++ String "/" (slug ++ String "/" EmptyString))%string.
    rewrite !PyFacts.split_app, (PyFacts.split_no_sep _ _ Hslash).
    rewrite !filter_app, !rev_app_distr, Hrev. simpl. now rewrite Htruthy.
Qed.

(** X15: a match whose page cannot be used is an error.  When the request
    for the page of the match fails, the result is the error "Failed to
    fetch blog HTML for " with the URL, and when the page has neither an
    article container nor a body, or no block of it has text, the result is
    the error "Failed to extract blog content."; the endpoint answers 500
    with that error as detail. *)
Theorem unusable_page_is_an_error q w t u :
  candidates w <> [] ->
  fst (matcher q (candidates w) (resolved w) (after_titles w)) = Return (Some (t, u)) ->
  match network w (clock (snd (matcher q (candidates w) (resolved w) (after_titles w))))
          u with
  | None =>
      fst (run_blog_search q w) =
      Return [("error", VStr ("Failed to fetch blog HTML for " ++ u ++ ".")%string)] /\
      fst (search_blog_endpoint q w) =
      HTTP500 (VStr ("Failed to fetch blog HTML for " ++ u ++ ".")%string)
  | Some text =>
      match tag_or (select_one_container (html_parser text)) (body (html_parser text)) with
      | Some content_blocks => Forall (fun b => tag_text b = EmptyString) content_blocks
      | None => True
      end ->
      fst (run_blog_search q w) =
      Return [("error", VStr "Failed to extract blog content.")] /\
      fst (search_blog_endpoint q w) = HTTP500 (VStr "Failed to extract blog content.")
  end.
Proof.
  intros Hne Hm. rewrite !endpoint_respond.
  destruct (run_blog_search_cases q w)
    as [(Hnil & _) | [(_ & Hnone & _) | (t' & u' & _ & Hm' & Hd)]];
    [contradiction | congruence |].
  rewrite Hm in Hm'. inversion Hm'; subst t' u'.
  destruct (network w _ u) as [text|].
  - intros Hblocks.
    destruct (extract_blog_content_nothing _ Hblocks) as [Hex | Hex];
      rewrite Hex in Hd; rewrite Hd; now split.
  - rewrite Hd. now split.
Qed.

(** X16: the titles are resolved in the order of the URLs, one request
    each, and never raise: the i-th result is what the i-th request gives
    for the i-th URL, a title with that very URL or nothing. *)
Theorem titles_are_resolved_in_order urls w :
  exists results,
    mapM get_title_from_url urls w = (Return results, advance (length urls) w) /\
    length results = length urls /\
    forall i u, nth_error urls i = Some u ->
      nth_error results i = Some (title_at w (clock w + i) u) /\
      (title_at w (clock w + i) u = None \/
       exists t, title_at w (clock w + i) u = Some (t, u)).
Proof.
  exists (titles_from w (clock w) urls).
  split; [apply mapM_get_title_run|]. split; [apply titles_from_length|].
  intros i u Hnth. split; [now apply titles_from_nth|].
  unfold title_at. destruct (network w (clock w + i) u) as [text|]; [|now left].
  destruct (tag_or _ _) as [title_text|]; [right; now exists title_text | now left].
Qed.

(** X17: when no slug reaches 0.5, a query that is, character for
    character, the title some candidate resolved to is matched with that
    title, and with the last candidate that resolved to it. *)
Theorem exact_title_is_matched q urls results w u0 :
  (forall u slug, In u urls -> hyphen_slug u = Some slug ->
                  (Difflib.ratio slug (slugify q) < 1 # 2)%Q) ->
  In (Some (q, u0)) results ->
  exists u,
    last_url_of q results = Some u /\
    matcher q urls results w = (Return (Some (q, u)), w).
Proof.
  intros Hslugs Hin.
  assert (Hnil : Difflib.get_close_matches (slugify q)
                   (dict_keys (build_slug_url_map urls)) (1 # 2) = []).
  { apply DifflibBounds.get_close_matches_nil_iff. intros slug Hslug.
    apply build_slug_url_map_keys in Hslug. destruct Hslug as (u & Hu & Hs). eauto. }
  assert (Hkey : In q (dict_keys (build_title_url_map results)))
    by (apply build_title_url_map_keys; eauto).
  destruct (In_keys_dict_get _ _ Hkey) as [u Hget].
  exists u. split; [now rewrite <- build_title_url_map_get|].
  rewrite matcher_run, Hnil.
  rewrite DifflibFacts.get_close_matches_exact; [now rewrite Hget | discriminate | exact Hkey].
Qed.

End Further.

(* ===================================================================== *)
(** ** The further properties on the small sites *)
(* ===================================================================== *)

Module FurtherFacts.
Import Demo Gallery.

(** When the second child sitemap is fetched first, its URLs come first. *)
Example crawl_out_of_order :
  @candidates libs out_of_order = [tips_url; guide_url].
Proof. vm_compute. reflexivity. Qed.

(** A search sends two requests for the sitemaps of the site, two for the
    titles, and two more on a slug match. *)
Example requests_field_service :
  clock (snd (@run_blog_search libs "field service" online)) = 6.
Proof. vm_compute. reflexivity. Qed.

(** A page with a heading and nothing else has no content to extract. *)
Example search_blank :
  fst (@run_blog_search libs "field gallery" blank) =
  Return [("error", VStr "Failed to extract blog content.")].
Proof. vm_compute. reflexivity. Qed.

Lemma crawl_keeps_the_sitemap_order_witness :
  @candidates libs online =
  flat_map (@kept_locs libs)
    (responses_from online (S (clock online)) (@child_sitemaps libs online)).
Proof.
  apply (@crawl_keeps_the_sitemap_order libs online).
  intros i j Hle _. exact Hle.
Defined.

Lemma returned_url_is_a_candidate_witness :
  exists u, VStr guide_url = VStr u /\ In u (@candidates libs online) /\
            has_keyword u = true.
Proof.
  refine (@returned_url_is_a_candidate libs "field service" online _ (VStr guide_url) _ _).
  - vm_compute. reflexivity.
  - reflexivity.
Defined.

Lemma returned_content_is_stripped_witness :
  "All about field service." <> EmptyString /\
  Py.strip "All about field service." = "All about field service.".
Proof.
  destruct (@returned_content_is_stripped libs "field service" online
              [("title", VStr "Field Service Guide");
               ("url", VStr guide_url);
               ("content_preview", VStr "All about field service.");
               ("full_content", VStr "All about field service.");
               ("image_urls",
                VList ["https://d5meta.com/img/a.png"; "https://d5meta.com/img/b.png"])]
              "All about field service.")
    as (Hne & Hstrip & _).
  - vm_compute. reflexivity.
  - reflexivity.
  - split; [exact Hne | exact Hstrip].
Defined.

Lemma search_raises_only_in_urljoin_witness :
  fst (@run_blog_search strict_libs "field gallery" gallery) = Raise "Invalid IPv6 URL" /\
  fst (@search_blog_endpoint strict_libs "field gallery" gallery) =
  HTTP500 (VStr "An internal server error occurred: Invalid IPv6 URL").
Proof.
  assert (Hrun : fst (@run_blog_search strict_libs "field gallery" gallery)
                 = Raise "Invalid IPv6 URL") by (vm_compute; reflexivity).
  split; [exact Hrun|].
  exact (proj2 (@search_raises_only_in_urljoin strict_libs "field gallery" gallery
                  "Invalid IPv6 URL" Hrun)).
Defined.

Lemma slug_match_is_the_closest_slug_witness :
  exists best match_url,
    In match_url [guide_url; tips_url] /\
    @hyphen_slug libs match_url = Some best /\
    (1 # 2 <= Difflib.ratio best (slugify "field service"))%Q.
Proof.
  destruct (@slug_match_is_the_closest_slug libs "field service" [guide_url; tips_url] []
              online guide_url "field-service-guide")
    as (best & match_url & Hin & Hslug & Hratio & _).
  - now left.
  - vm_compute. reflexivity.
  - vm_compute. discriminate.
  - exists best, match_url. split; [exact Hin|]. split; [exact Hslug | exact Hratio].
Defined.

Lemma title_match_is_the_closest_title_witness :
  exists t u,
    In (Some (t, u))
      [Some ("Release Notes", "https://d5meta.com/blog/first/");
       Some ("Release Notes", "https://d5meta.com/blog/second/")] /\
    (3 # 5 <= Difflib.ratio t "release notes")%Q /\
    @matcher libs "release notes"
      ["https://d5meta.com/blog/first/"; "https://d5meta.com/blog/second/"]
      [Some ("Release Notes", "https://d5meta.com/blog/first/");
       Some ("Release Notes", "https://d5meta.com/blog/second/")]
      (world_of twins)
    = (Return (Some (t, u)), world_of twins).
Proof.
  destruct (@title_match_is_the_closest_title libs "release notes"
              ["https://d5meta.com/blog/first/"; "https://d5meta.com/blog/second/"]
              [Some ("Release Notes", "https://d5meta.com/blog/first/");
               Some ("Release Notes", "https://d5meta.com/blog/second/")]
              (world_of twins))
    as [(Hall & _) | (t & u & Hin & Hratio & _ & Hm)].
  - intros u slug [<- | [<- | []]] Hslug; vm_compute in Hslug; discriminate.
  - exfalso.
    assert (Hlt : (Difflib.ratio "Release Notes" "release notes" < 3 # 5)%Q)
      by (apply (Hall "Release Notes" "https://d5meta.com/blog/first/"); now left).
    vm_compute in Hlt. discriminate.
  - exists t, u. split; [exact Hin|]. split; [exact Hratio | exact Hm].
Defined.

Lemma match_has_a_comparable_length_witness :
  (exists slug, @hyphen_slug libs guide_url = Some slug /\
                String.length slug <= 3 * String.length "field service" /\
                String.length "field service" <= 3 * String.length slug) \/
  (In (Some ("Field Service Guide", guide_url)) [] /\
   3 * String.length "Field Service Guide" <= 7 * String.length "field service" /\
   3 * String.length "field service" <= 7 * String.length "Field Service Guide").
Proof.
  apply (@match_has_a_comparable_length libs "field service" [guide_url; tips_url] []
           online "Field Service Guide" guide_url).
  vm_compute. reflexivity.
Defined.

Lemma slug_of_a_plain_path_witness :
  @slug_of_url libs guide_url = Some "field-service-guide" /\
  last_nonempty_segment "/blog/field-service-guide/" = Some "field-service-guide".
Proof.
  apply (@slug_of_a_plain_path libs guide_url "/blog" "field-service-guide"
           "/blog/field-service-guide/").
  - discriminate.
  - reflexivity.
  - right. reflexivity.
  - vm_compute. reflexivity.
Defined.

Lemma unusable_page_is_an_error_witness :
  fst (@run_blog_search libs "field service" taken_down) =
  Return [("error",
           VStr "Failed to fetch blog HTML for https://d5meta.com/blog/field-service-guide/.")] /\
  fst (@search_blog_endpoint libs "field service" taken_down) =
  HTTP500 (VStr "Failed to fetch blog HTML for https://d5meta.com/blog/field-service-guide/.").
Proof.
  assert (Hne : @candidates libs taken_down <> []) by (vm_compute; discriminate).
  assert (Hm : fst (@matcher libs "field service" (@candidates libs taken_down)
                      (@resolved libs taken_down) (@after_titles libs taken_down))
               = Return (Some ("Matched via URL: field-service-guide", guide_url)))
    by (vm_compute; reflexivity).
  pose proof (@unusable_page_is_an_error libs "field service" taken_down
                "Matched via URL: field-service-guide" guide_url Hne Hm) as Hx.
  vm_compute in Hx. vm_compute. exact Hx.
Defined.

Lemma exact_title_is_matched_witness :
  exists u,
    last_url_of "Release Notes"
      [Some ("Release Notes", "https://d5meta.com/blog/first/");
       Some ("Release Notes", "https://d5meta.com/blog/second/")] = Some u /\
    @matcher libs "Release Notes"
      ["https://d5meta.com/blog/first/"; "https://d5meta.com/blog/second/"]
      [Some ("Release Notes", "https://d5meta.com/blog/first/");
       Some ("Release Notes", "https://d5meta.com/blog/second/")]
      (world_of twins)
    = (Return (Some ("Release Notes", u)), world_of twins).
Proof.
  apply (@exact_title_is_matched libs "Release Notes"
           ["https://d5meta.com/blog/first/"; "https://d5meta.com/blog/second/"]
           [Some ("Release Notes", "https://d5meta.com/blog/first/");
            Some ("Release Notes", "https://d5meta.com/blog/second/")]
           (world_of twins) "https://d5meta.com/blog/first/").
  - intros u slug [<- | [<- | []]] Hslug; vm_compute in Hslug; discriminate.
  - now left.
Defined.

End FurtherFacts.
